(** * Currency & Crypto Converter API: rate resolution and TTL cache

  A shallow embedding of [src/main.py] (the TTL cache, the fiat rate
  resolver, the crypto price resolver and the two conversion endpoints)
  together with the properties the specification states about them.

  Conventions of the embedding:
  - Python [str] values are modelled as ASCII text ([string]); [upper] and
    [lower] change the 26 letters only.
  - Values decoded from JSON (and [None]) are the inductive [pyval];
    Python [float] is IEEE binary64, written with [spec_float]; what the
    float operations compute is stated over the rationals ([Q]).
  - [time.time()] readings are integers (seconds on an idealised clock).
  - The module-level dict [CACHE], the clock and the upstream providers
    form the [world]; every function is a state-and-exception computation
    [M A] over it.  The environment ([env]) answers each clock reading and
    each HTTP request; it is indexed by the number of effects performed so
    far, so any sequence of answers can be expressed. *)

From Stdlib Require Import ZArith String Ascii List Lia Bool.
From Stdlib Require Import Floats.SpecFloat.
From Stdlib Require Import QArith Qabs Qpower Lqa.
From stdpp Require Import base option gmap strings pretty.

Set Warnings "-register-all".

Open Scope Z_scope.
Open Scope string_scope.

(** ** Python strings *)

Module PyStr.

Definition upper_ascii (c : ascii) : ascii :=
  let n := nat_of_ascii c in
  if ((97 <=? n) && (n <=? 122))%nat then ascii_of_nat (n - 32) else c.

Definition lower_ascii (c : ascii) : ascii :=
  let n := nat_of_ascii c in
  if ((65 <=? n) && (n <=? 90))%nat then ascii_of_nat (n + 32) else c.

Fixpoint map_chars (f : ascii -> ascii) (s : string) : string :=
  match s with
  | EmptyString => EmptyString
  | String c s' => String (f c) (map_chars f s')
  end.

(** [s.upper()] and [s.lower()] on ASCII text, the domain of the embedding:
    there Python changes the 26 letters only.  Where the code compares
    letter cases (line 147 compares uppercased forms), statements are given
    with the code's own comparison. *)
Definition upper (s : string) : string := map_chars upper_ascii s.
Definition lower (s : string) : string := map_chars lower_ascii s.

End PyStr.
Export PyStr.

(** ** Python values *)

(** What [resp.json()] can produce, plus [None].  A dict is kept as the list
  of its items; a lookup takes the first item with the key. *)
Inductive pyval : Type :=
| PNone
| PBool (b : bool)
| PInt (z : Z)
| PFloat (f : spec_float)
| PStr (s : string)
| PList (l : list pyval)
| PDict (d : list (string * pyval)).

(** Exception classes raised by the interpreter itself. *)
Inductive pyerror : Type :=
| AttributeError
| TypeError
| KeyError
| JSONDecodeError
| UnboundLocalError
| OverflowError.

(** The exceptions that travel through the resolvers.  [HTTPException] is
  FastAPI's; like every other constructor here it is a subclass of
  [Exception]. *)
Inductive exc : Type :=
| HTTPException (status_code : Z) (detail : string)
| HTTPStatusError (response_status_code : Z)
| RequestError (message : string)
| PyError (e : pyerror).

Inductive result (A : Type) : Type :=
| Ok (a : A)
| Raise (e : exc).
Arguments Ok {A} a.
Arguments Raise {A} e.

(** Text produced by [str()] where it depends on the interpreter and the
  installed libraries: on a decoded JSON value, and on a caught exception. *)
Class Runtime := {
  py_str : pyval -> string;
  exc_str : exc -> string
}.

Module Py.

Definition is_None (v : pyval) : bool :=
  match v with PNone => true | _ => false end.

(** [bool(v)] *)
Definition truthy (v : pyval) : bool :=
  match v with
  | PNone => false
  | PBool b => b
  | PInt z => negb (Z.eqb z 0)
  | PFloat (S754_zero _) => false
  | PFloat _ => true
  | PStr s => negb (String.eqb s EmptyString)
  | PList l => match l with [] => false | _ => true end
  | PDict d => match d with [] => false | _ => true end
  end.

(** [x or y] *)
Definition or_ (x y : pyval) : pyval := if truthy x then x else y.

(** [f"{v}"] *)
Definition format `{Runtime} (v : pyval) : string :=
  match v with PStr s => s | _ => py_str v end.

Fixpoint lookup_item (d : list (string * pyval)) (k : string) : option pyval :=
  match d with
  | [] => None
  | (k', v) :: d' => if String.eqb k' k then Some v else lookup_item d' k
  end.

(** [v.get(k)] with a string key. *)
Definition get (v : pyval) (k : string) : result pyval :=
  match v with
  | PDict d => Ok (default PNone (lookup_item d k))
  | _ => Raise (PyError AttributeError)
  end.

(** [v.get(key, dflt)] with an arbitrary key: only a string can be found
    among the keys of a decoded JSON object; a list or dict key is
    unhashable. *)
Definition get_default (v key dflt : pyval) : result pyval :=
  match v with
  | PDict d =>
      match key with
      | PStr k => Ok (default dflt (lookup_item d k))
      | PList _ | PDict _ => Raise (PyError TypeError)
      | _ => Ok dflt
      end
  | _ => Raise (PyError AttributeError)
  end.

(** [v[k]] with a string key. *)
Definition getitem (v : pyval) (k : string) : result pyval :=
  match v with
  | PDict d =>
      match lookup_item d k with
      | Some x => Ok x
      | None => Raise (PyError KeyError)
      end
  | _ => Raise (PyError TypeError)
  end.

(** [v.upper()] *)
Definition upper_method (v : pyval) : result string :=
  match v with
  | PStr s => Ok (upper s)
  | _ => Raise (PyError AttributeError)
  end.

(** [v != "literal"] *)
Definition ne_str (v : pyval) (s : string) : bool :=
  match v with PStr s' => negb (String.eqb s' s) | _ => true end.

(** The items a [for] loop over [v] visits. *)
Definition iter (v : pyval) : result (list pyval) :=
  match v with
  | PList l => Ok l
  | PDict d => Ok (map (fun kv => PStr (fst kv)) d)
  | PStr s => Ok (map (fun c => PStr (String c EmptyString)) (list_ascii_of_string s))
  | _ => Raise (PyError TypeError)
  end.

End Py.

(** ** The world: cache, clock and upstream providers *)

(** [{"value": ..., "expires_at": ...}] *)
Record entry := { value : pyval; expires_at : Z }.

Record Response := { status_code : Z; body : option pyval }.

(** What [await client.get(url)] yields: a response, or [httpx.RequestError]
  (timeout, connection failure) with its text. *)
Inductive outcome : Type :=
| Responded (r : Response)
| Failed (message : string).

(** The environment: what the [n]-th effect of a run gets as its answer,
    the clock reading if it is [time.time()], the upstream's outcome if it is
    a request to [url]. *)
Record env := {
  clock : nat -> Z;
  net : nat -> string -> outcome
}.

(** The module-level dict [CACHE], the number of effects performed so far,
    and the log of the requests sent with their outcomes. *)
Record world := {
  CACHE : gmap string entry;
  steps : nat;
  requests : list (string * outcome)
}.

(** A computation returns or raises, and leaves a world behind either way. *)
Definition M (A : Type) : Type := env -> world -> result A * world.

Definition ret {A} (a : A) : M A := fun _ w => (Ok a, w).

Definition raise {A} (e : exc) : M A := fun _ w => (Raise e, w).

Definition bind {A B} (m : M A) (k : A -> M B) : M B :=
  fun E w =>
  match m E w with
  | (Ok a, w') => k a E w'
  | (Raise e, w') => (Raise e, w')
  end.

Definition lift {A} (r : result A) : M A := fun _ w => (r, w).

(** [try: body  except ...: raise handler(e)]: every [except] clause of the
  source ends in a [raise]. *)
Definition try_except {A} (body : M A) (handler : exc -> exc) : M A :=
  fun E w =>
  match body E w with
  | (Ok a, w') => (Ok a, w')
  | (Raise e, w') => (Raise (handler e), w')
  end.

Notation "x <- c ;; k" := (bind c (fun x => k))
  (at level 62, c at next level, right associativity).
Notation "c ;;; k" := (bind c (fun _ => k))
  (at level 62, right associativity).

(** One effect performed, nothing else changed. *)
Definition tick (w : world) : world :=
  {| CACHE := CACHE w; steps := S (steps w); requests := requests w |}.

(** [time.time()] *)
Definition time_time : M Z := fun E w => (Ok (clock E (steps w)), tick w).

(** The world after a request to [url] was answered with [o]. *)
Definition logged (w : world) (url : string) (o : outcome) : world :=
  {| CACHE := CACHE w; steps := S (steps w);
     requests := requests w ++ [(url, o)] |}.

(** [await client.get(url)] *)
Definition client_get (url : string) : M Response :=
  fun E w =>
  let o := net E (steps w) url in
  match o with
  | Responded r => (Ok r, logged w url o)
  | Failed msg => (Raise (RequestError msg), logged w url o)
  end.

(** [resp.raise_for_status()]: httpx raises [HTTPStatusError] unless the
  status is 2xx. *)
Definition raise_for_status (resp : Response) : M unit :=
  if Z.leb 200 (status_code resp) && Z.leb (status_code resp) 299 then ret tt
  else raise (HTTPStatusError (status_code resp)).

(** [resp.json()] *)
Definition json (resp : Response) : M pyval :=
  match body resp with
  | Some v => ret v
  | None => raise (PyError JSONDecodeError)
  end.

Definition get_CACHE : M (gmap string entry) := fun _ w => (Ok (CACHE w), w).

Definition put_CACHE (c : gmap string entry) : M unit :=
  fun _ w => (Ok tt, {| CACHE := c; steps := steps w; requests := requests w |}).

(** ** Central configuration *)

Definition FIAT_API_BASE_URL : string := "https://open.er-api.com/v6/latest/".
Definition COINGECKO_API_BASE_URL : string := "https://api.coingecko.com/api/v3/".

Definition CACHE_TTL_SECONDS : Z := 60 * 15.

(** ** Utilities *)

(** [cache_get] (lines 26-33): the clock is read only when the key has an
    entry, and the entry is dropped only when the clock is strictly past
    [expires_at]. *)
Definition cache_get (key : string) : M pyval :=
  c <- get_CACHE ;;
  match c !! key with
  | None => ret PNone
  | Some entry =>
    now <- time_time ;;
    if Z.ltb (expires_at entry) now then
      put_CACHE (delete key c) ;;; ret PNone
    else ret (value entry)
  end.

(** [cache_set] (lines 36-37); callers that omit [ttl] pass
    [CACHE_TTL_SECONDS]. *)
Definition cache_set (key : string) (v : pyval) (ttl : Z) : M unit :=
  now <- time_time ;;
  c <- get_CACHE ;;
  put_CACHE (<[key := {| value := v; expires_at := now + ttl |}]> c).

(** Mapping common crypto symbols to CoinGecko ids (lines 41-63). *)
Definition CRYPTO_SYMBOL_MAP : list (string * string) :=
  [ ("BTC", "bitcoin");
  ("ETH", "ethereum");
  ("USDT", "tether");
  ("BNB", "binancecoin");
  ("ADA", "cardano");
  ("SOL", "solana");
  ("DOGE", "dogecoin");
  ("XRP", "ripple");
  ("DOT", "polkadot");
  ("LTC", "litecoin");
  ("USDC", "usd-coin");
  ("DAI", "dai");
  ("TRX", "tron");
  ("SHIB", "shiba-inu");
  ("AVAX", "avalanche-2");
  ("LINK", "chainlink");
  ("UNI", "uniswap");
  ("BCH", "bitcoin-cash");
  ("MATIC", "polygon");
  ("HBAR", "hedera-hashgraph") ].

(** [CRYPTO_SYMBOL_MAP.get(k)] *)
Fixpoint symbol_map_get (m : list (string * string)) (k : string) : pyval :=
  match m with
  | [] => PNone
  | (k', v) :: m' => if String.eqb k' k then PStr v else symbol_map_get m' k
  end.

(** ** Data fetching helpers *)

Section Resolvers.
Context `{Runtime}.

(** The [except] clauses of [get_fiat_rate], tried in order. *)
Definition fiat_except (e : exc) : exc :=
  match e with
  | HTTPStatusError code =>
      HTTPException 502
        ("Failed to fetch fiat rates (HTTP Error " +:+ pretty code +:+ ")")
  | RequestError msg =>
      HTTPException 504
        ("Timeout or network error connecting to ExchangeRate-API: " +:+ msg)
  | _ =>
      HTTPException 500
        ("Internal server error while processing fiat rates: " +:+ exc_str e)
  end.

(** [get_fiat_rate] (lines 68-110). *)
Definition get_fiat_rate (base target : string) : M pyval :=
  let base_u := upper base in
  let target_u := upper target in
  let cache_key := "fiat:" +:+ base_u +:+ ":" +:+ target_u in
  cached_rate <- cache_get cache_key ;;
  if negb (Py.is_None cached_rate) then ret cached_rate else
  let url := FIAT_API_BASE_URL +:+ base_u in
  rate <- try_except
    (resp <- client_get url ;;
     raise_for_status resp ;;;
     data <- json resp ;;
     result_field <- lift (Py.get data "result") ;;
     if Py.ne_str result_field "success" then
       error_field <- lift (Py.get data "error") ;;
       raise (HTTPException 502
                ("ExchangeRate-API failed: " +:+
                 Py.format (Py.or_ error_field (PStr "Unknown error"))))
     else
     rates <- lift (Py.get data "rates") ;;
     if negb (Py.truthy rates) then
       raise (HTTPException 502
                "Unexpected response structure from ExchangeRate-API")
     else
     rate <- lift (Py.get rates target_u) ;;
     if Py.is_None rate then
       raise (HTTPException 400 ("Invalid currency code: " +:+ target_u))
     else ret rate)
    fiat_except ;;
  cache_set cache_key rate CACHE_TTL_SECONDS ;;;
  ret rate.

(** The [except] clauses of [get_crypto_price], tried in order. *)
Definition crypto_except (e : exc) : exc :=
  match e with
  | HTTPStatusError code =>
      if Z.eqb code 429 then
        HTTPException 429
          "Rate limit exceeded on CoinGecko. Increase cache TTL or upgrade CoinGecko plan."
      else
        HTTPException 502
          ("Failed to fetch crypto price (HTTP Error " +:+ pretty code +:+ ")")
  | RequestError msg =>
      HTTPException 504
        ("Timeout or network error connecting to CoinGecko: " +:+ msg)
  | _ =>
      HTTPException 500
        ("Internal server error while processing crypto rates: " +:+ exc_str e)
  end.

Definition price_url (coin_id : pyval) (vs_currency_lower : string) : string :=
  COINGECKO_API_BASE_URL +:+ "simple/price?ids=" +:+ Py.format coin_id
    +:+ "&vs_currencies=" +:+ vs_currency_lower.

Definition list_cache_key : string := "coingecko:coins:list".

Definition coins_list_url : string := COINGECKO_API_BASE_URL +:+ "coins/list".

(** [next((c["id"] for c in items if c["symbol"].upper() == symbol_upper), None)]
    once the iteration over the catalog has started. *)
Fixpoint first_coin_id (items : list pyval) (symbol_upper : string) : result pyval :=
  match items with
  | [] => Ok PNone
  | c :: rest =>
      match Py.getitem c "symbol" with
      | Raise e => Raise e
      | Ok sym =>
          match Py.upper_method sym with
          | Raise e => Raise e
          | Ok u =>
              if String.eqb u symbol_upper then Py.getitem c "id"
              else first_coin_id rest symbol_upper
          end
      end
  end.

Definition next_coin_id (coins_list : pyval) (symbol_upper : string) : result pyval :=
  match Py.iter coins_list with
  | Ok items => first_coin_id items symbol_upper
  | Raise e => Raise e
  end.

(** How the [try] block of [get_crypto_price] is left without an exception:
    by the [return] inside attempt 1, or by running off its end with the
    local [price]. *)
Inductive try_exit : Type :=
| Returned (price : pyval)
| Completed (price : pyval).

(** Attempt 1.  [inl price] is the [return price] inside the block; [inr]
    carries the local [price] on, unbound ([None] here) when the block is
    skipped. *)
Definition attempt_mapped (coin_id : pyval) (vs_currency_lower cache_key : string)
  : M (pyval + option pyval) :=
  if Py.truthy coin_id then
    resp <- client_get (price_url coin_id vs_currency_lower) ;;
    raise_for_status resp ;;;
    data <- json resp ;;
    inner <- lift (Py.get_default data coin_id (PDict [])) ;;
    price <- lift (Py.get inner vs_currency_lower) ;;
    if negb (Py.is_None price) then
      cache_set cache_key price CACHE_TTL_SECONDS ;;;
      ret (inl price)
    else ret (inr (Some price))
  else ret (inr None).

(** Attempt 2 (fallback), first half: the catalog, from the cache or from
    the provider. *)
Definition load_coins_list : M pyval :=
  coins_list <- cache_get list_cache_key ;;
  if Py.is_None coins_list then
    resp <- client_get coins_list_url ;;
    raise_for_status resp ;;;
    coins_list <- json resp ;;
    cache_set list_cache_key coins_list (3600 * 24) ;;;
    ret coins_list
  else ret coins_list.

(** Attempt 2, second half: find the id by symbol and fetch its price. *)
Definition price_via_catalog (coins_list : pyval) (symbol_upper vs_currency_lower : string)
  : M pyval :=
  coin_id <- lift (next_coin_id coins_list symbol_upper) ;;
  if negb (Py.truthy coin_id) then
    raise (HTTPException 404
             ("Crypto symbol '" +:+ symbol_upper +:+ "' not found on CoinGecko"))
  else
  resp <- client_get (price_url coin_id vs_currency_lower) ;;
  raise_for_status resp ;;;
  data <- json resp ;;
  inner <- lift (Py.get_default data coin_id (PDict [])) ;;
  lift (Py.get inner vs_currency_lower).

(** Attempt 2 (fallback), entered when [coin_id] is falsy. *)
Definition attempt_fallback (symbol_upper vs_currency_lower : string) : M pyval :=
  coins_list <- load_coins_list ;;
  price_via_catalog coins_list symbol_upper vs_currency_lower.

(** [get_crypto_price] (lines 114-173). *)
Definition get_crypto_price (symbol vs_currency : string) : M pyval :=
  let symbol_upper := upper symbol in
  let vs_currency_lower := lower vs_currency in
  let coin_id := symbol_map_get CRYPTO_SYMBOL_MAP symbol_upper in
  let cache_key := "crypto:" +:+ symbol_upper +:+ ":" +:+ vs_currency_lower in
  cached <- cache_get cache_key ;;
  if negb (Py.is_None cached) then ret cached else
  exit <- try_except
    (a1 <- attempt_mapped coin_id vs_currency_lower cache_key ;;
     match a1 with
     | inl price => ret (Returned price)
     | inr price =>
         price <-
           (if negb (Py.truthy coin_id) then
              p <- attempt_fallback symbol_upper vs_currency_lower ;;
              ret (Some p)
            else ret price) ;;
         match price with
         | None => raise (PyError UnboundLocalError)
         | Some p =>
             if Py.is_None p then
               raise (HTTPException 502
                        "CoinGecko returned no price for requested vs_currency")
             else ret (Completed p)
         end
     end)
    crypto_except ;;
  match exit with
  | Returned price => ret price
  | Completed price =>
      cache_set cache_key price CACHE_TTL_SECONDS ;;;
      ret price
  end.

End Resolvers.

(** ** Cache keys *)

Definition fiat_cache_key (base target : string) : string :=
  "fiat:" +:+ upper base +:+ ":" +:+ upper target.

Definition crypto_cache_key (symbol vs_currency : string) : string :=
  "crypto:" +:+ upper symbol +:+ ":" +:+ lower vs_currency.

(** ** Sessions

    The server handles calls one after the other on the same world. *)

Inductive call : Type :=
| FiatCall (base target : string)
| CryptoCall (symbol vs_currency : string).

Definition run_call `{Runtime} (c : call) : M pyval :=
  match c with
  | FiatCall base target => get_fiat_rate base target
  | CryptoCall symbol vs_currency => get_crypto_price symbol vs_currency
  end.

Fixpoint run_calls `{Runtime} (cs : list call) (E : env) (w : world) : world :=
  match cs with
  | [] => w
  | c :: cs' => run_calls cs' E (snd (run_call c E w))
  end.

(** The cache key a call reads and, on success, writes. *)
Definition call_cache_key (c : call) : string :=
  match c with
  | FiatCall base target => fiat_cache_key base target
  | CryptoCall symbol vs_currency => crypto_cache_key symbol vs_currency
  end.

(** Direct uses of the cache, for the cache's own contract. *)
Inductive cache_op : Type :=
| OpGet (key : string)
| OpSet (key : string) (v : pyval) (ttl : Z).

Definition run_op (o : cache_op) (E : env) (w : world) : world :=
  match o with
  | OpGet key => snd (cache_get key E w)
  | OpSet key v ttl => snd (cache_set key v ttl E w)
  end.

Fixpoint run_ops (os : list cache_op) (E : env) (w : world) : world :=
  match os with
  | [] => w
  | o :: os' => run_ops os' E (run_op o E w)
  end.

Definition sets_key (key : string) (o : cache_op) : bool :=
  match o with
  | OpGet _ => false
  | OpSet key' _ _ => String.eqb key' key
  end.

(** The requests a computation added to the log. *)
Definition new_requests (w w' : world) : list (string * outcome) :=
  drop (length (requests w)) (requests w').

(** A clock that never runs backwards. *)
Definition monotonic (E : env) : Prop :=
  forall i j : nat, (i <= j)%nat -> clock E i <= clock E j.

(** ** Python floats *)

Module PyFloat.

Definition prec : Z := 53.
Definition emax : Z := 1024.

(** Conversion of a Python int to a float: correctly rounded, ties to even;
    [OverflowError] when no finite float is near. *)
Definition of_int (z : Z) : result spec_float :=
  match binary_normalize prec emax z 0 false with
  | S754_infinity _ => Raise (PyError OverflowError)
  | f => Ok f
  end.

(** [x * v] with a float on the left. *)
Definition mul (x : spec_float) (v : pyval) : result spec_float :=
  match v with
  | PFloat y => Ok (SFmul prec emax x y)
  | PInt z =>
      match of_int z with
      | Ok y => Ok (SFmul prec emax x y)
      | Raise e => Raise e
      end
  | PBool b =>
      Ok (SFmul prec emax x (binary_normalize prec emax (if b then 1 else 0) 0 false))
  | _ => Raise (PyError TypeError)
  end.

(** The integer nearest to [n / d] for [d > 0], ties to the even one. *)
Definition nearest_even (n d : Z) : Z :=
  let q := Z.div n d in
  match Z.compare (2 * Z.modulo n d) d with
  | Lt => q
  | Eq => if Z.even q then q else q + 1
  | Gt => q + 1
  end.

(** The float nearest to [k / 10^ndigits] (ties to even), with sign [s]. *)
Definition of_decimal (s : bool) (k : positive) (ndigits : Z) : spec_float :=
  let '(mz, ez, lz) :=
    SFdiv_core_binary prec emax (Zpos k) 0 (Z.pow 10 ndigits) 0 in
  binary_round_aux prec emax s mz ez lz.

(** [round(x, ndigits)] for [0 <= ndigits] (the endpoints pass 8): the value
    is rounded to [ndigits] decimals, ties to even, on its exact binary
    expansion, and the decimal is converted back to the nearest float; the
    sign is kept, infinities and NaN round to themselves. *)
Definition round (x : spec_float) (ndigits : Z) : spec_float :=
  match x with
  | S754_finite s m e =>
      let num := Zpos m * Z.pow 10 ndigits * Z.pow 2 (Z.max e 0) in
      let den := Z.pow 2 (Z.max (- e) 0) in
      match nearest_even num den with
      | Zpos k => of_decimal s k ndigits
      | _ => S754_zero s
      end
  | _ => x
  end.

End PyFloat.

(** ** Exact arithmetic

    What "the product, rounded to 8 decimal places" means, stated over the
    rationals and independently of how the floats compute it. *)

(** The number a float stands for (0 for the infinities and NaN). *)
Definition float_value (x : spec_float) : Q :=
  match x with
  | S754_finite s m e => (inject_Z (cond_Zopp s (Zpos m)) * 2 ^ e)%Q
  | _ => 0%Q
  end.

Definition sign_bit (x : spec_float) : bool :=
  match x with
  | S754_zero s | S754_infinity s | S754_finite s _ _ => s
  | S754_nan => false
  end.

Definition is_finite (x : spec_float) : bool :=
  match x with
  | S754_zero _ | S754_finite _ _ _ => true
  | _ => false
  end.

(** The binary64 numbers: zeros and finite floats in canonical form. *)
Definition representable (x : spec_float) : Prop :=
  is_finite x = true /\ valid_binary PyFloat.prec PyFloat.emax x = true.

Definition even_mantissa (x : spec_float) : bool :=
  match x with
  | S754_finite _ m _ => Z.even (Zpos m)
  | _ => true
  end.

(** The least magnitude that rounds to an infinity: the largest float plus
    half a unit in its last place. *)
Definition overflow_threshold : Q := inject_Z (2 ^ 1024 - 2 ^ 970).

(** [rounds_to v x]: [x] is [v] rounded to binary64, to nearest and ties to
    even: an infinity from the overflow threshold on, and below it a
    representable number that no representable number is nearer to [v]
    than, with an even mantissa when another one is as near. *)
Definition rounds_to (v : Q) (x : spec_float) : Prop :=
  match x with
  | S754_nan => False
  | S754_infinity _ => (overflow_threshold <= Qabs v)%Q
  | _ =>
      (Qabs v < overflow_threshold)%Q /\
      valid_binary PyFloat.prec PyFloat.emax x = true /\
      forall y, representable y ->
        (Qabs (float_value x - v) <= Qabs (float_value y - v))%Q /\
        ((Qabs (float_value x - v) == Qabs (float_value y - v))%Q ->
         (float_value y == float_value x)%Q \/ even_mantissa x = true)
  end.

(** [k] is the integer nearest to [v], the even one of the two on a tie. *)
Definition nearest_integer (v : Q) (k : Z) : Prop :=
  (Qabs (v - inject_Z k) <= 1 # 2)%Q /\
  ((Qabs (v - inject_Z k) == 1 # 2)%Q -> Z.even k = true).

(** The float that [amount * v] multiplies with: [v] itself for a float,
    [float(v)] for an int or a bool. *)
Definition rate_as_float (v : pyval) (f : spec_float) : Prop :=
  match v with
  | PFloat y => f = y
  | PInt z =>
      representable f /\ rounds_to (inject_Z z) f /\ sign_bit f = Z.ltb z 0
  | PBool b =>
      representable f /\ rounds_to (inject_Z (if b then 1 else 0)) f /\
      sign_bit f = false
  | _ => False
  end.

(** [r] is [x] rounded to 8 decimal places: the multiple of 10^-8 nearest to
    [x] (ties to the even multiple), rounded to binary64, with the sign of
    [x]. *)
Definition rounded_to_8_decimals (x r : spec_float) : Prop :=
  exists k : Z,
    nearest_integer (float_value x * inject_Z (10 ^ 8)) k /\
    rounds_to (inject_Z k / inject_Z (10 ^ 8)) r /\
    sign_bit r = sign_bit x /\
    representable r.

(** [converted] is [amount * rate] rounded to 8 decimal places: the exact
    product of the two numbers rounded to binary64, and that float rounded
    to 8 decimal places (an infinite product is left as it is). *)
Definition rounded_product (amount : spec_float) (rate : pyval)
    (converted : spec_float) : Prop :=
  exists r product : spec_float,
    rate_as_float rate r /\
    (representable r ->
     rounds_to (float_value amount * float_value r) product /\
     sign_bit product = xorb (sign_bit amount) (sign_bit r) /\
     if is_finite product then rounded_to_8_decimals product converted
     else converted = product).

(** *** Auxiliary notions of the rounding proofs *)

(** [m] is the integer part of [N / D], and [l] says where the fractional
    part lies with respect to one half. *)
Definition located (N D m : Z) (l : location) : Prop :=
  0 <= m /\
  exists rho, N = m * D + rho /\ 0 <= rho < D /\
    match l with
    | loc_Exact => rho = 0
    | loc_Inexact c => 0 < rho /\ Z.compare (2 * rho) D = c
    end.

(** The float of sign [s] and magnitude [m1 * 2^e1], for a mantissa of at
    most 53 bits or exactly 2^53. *)
Definition pack (s : bool) (m1 e1 : Z) : spec_float :=
  if Z.eqb m1 0 then S754_zero s
  else if Z.eqb m1 (2 ^ 53) then
    if Z.leb (e1 + 1) 971 then S754_finite s (2 ^ 52)%positive (e1 + 1)
    else S754_infinity s
  else if Z.leb e1 971 then S754_finite s (Z.to_pos m1) e1
  else S754_infinity s.

Definition signum (s : bool) : Q := if s then (-1)%Q else 1%Q.

(** ** Endpoints *)

Record convert_response := {
  conv_from : string;
  conv_to : string;
  conv_amount : spec_float;
  conv_rate : pyval;
  conv_converted_amount : spec_float
}.

Record crypto_response := {
  crypto_symbol : string;
  crypto_vs_currency : string;
  crypto_amount : spec_float;
  crypto_price_per_unit : pyval;
  crypto_converted_amount : spec_float
}.

(** [except HTTPException: raise] then [except Exception as e: raise
    HTTPException(status_code=500, detail=str(e))]. *)
Definition endpoint_except `{Runtime} (e : exc) : exc :=
  match e with
  | HTTPException _ _ => e
  | _ => HTTPException 500 (exc_str e)
  end.

(** [convert] (lines 183-206); [amount] has been validated as a float by
    the framework. *)
Definition convert `{Runtime} (from_currency to_currency : string) (amount : spec_float)
  : M convert_response :=
  rate <- try_except (get_fiat_rate from_currency to_currency) endpoint_except ;;
  product <- lift (PyFloat.mul amount rate) ;;
  let converted := PyFloat.round product 8 in
  ret {| conv_from := upper from_currency;
         conv_to := upper to_currency;
         conv_amount := amount;
         conv_rate := rate;
         conv_converted_amount := converted |}.

(** [crypto_convert] (lines 210-233). *)
Definition crypto_convert `{Runtime} (symbol vs_currency : string) (amount : spec_float)
  : M crypto_response :=
  price <- try_except (get_crypto_price symbol vs_currency) endpoint_except ;;
  product <- lift (PyFloat.mul amount price) ;;
  let converted := PyFloat.round product 8 in
  ret {| crypto_symbol := upper symbol;
         crypto_vs_currency := lower vs_currency;
         crypto_amount := amount;
         crypto_price_per_unit := price;
         crypto_converted_amount := converted |}.

(** [root] (lines 177-179) *)
Definition root : pyval :=
  PDict [("message", PStr "Currency & Crypto Converter API (Monetizable) is running.")].

(** ** Sample data

    Concrete environments on which the statements below are exercised. *)

(** [str()] as CPython and Starlette give it on the values met here. *)
Definition sample_runtime : Runtime :=
  {| py_str := fun v => match v with PNone => "None" | _ => "?" end;
     exc_str := fun e =>
       match e with
       | HTTPException code detail => pretty code +:+ ": " +:+ detail
       | HTTPStatusError code => "status " +:+ pretty code
       | RequestError msg => msg
       | PyError _ => "error"
       end |}.

Definition empty_world : world := {| CACHE := ∅; steps := 0; requests := [] |}.

Definition ok_json (v : pyval) : outcome :=
  Responded {| status_code := 200; body := Some v |}.

(** 0.9, 100.0 and 90.0 as binary64 *)
Definition float_0_9 : spec_float := S754_finite false 8106479329266893 (-53).
Definition float_100 : spec_float := S754_finite false 7036874417766400 (-46).
Definition float_90 : spec_float := S754_finite false 6333186975989760 (-46).

(** 0.1, the product 0.1 * 0.9 = 0.09000000000000001 and 0.09 *)
Definition float_0_1 : spec_float := S754_finite false 7205759403792794 (-56).
Definition float_0_09_up : spec_float := S754_finite false 6485183463413515 (-56).
Definition float_0_09 : spec_float := S754_finite false 6485183463413514 (-56).

(** One second passes per effect; the fiat provider knows EUR only. *)
Definition eur_env : env :=
  {| clock := Z.of_nat;
     net := fun _ _ =>
       ok_json (PDict [("result", PStr "success");
                       ("rates", PDict [("EUR", PFloat float_0_9)])]) |}.

Definition foo_catalog : pyval :=
  PList [PDict [("id", PStr "foo-coin"); ("symbol", PStr "foo")]].

(** The crypto provider lists foo-coin only and quotes it at 3 usd. *)
Definition foo_env : env :=
  {| clock := Z.of_nat;
     net := fun _ url =>
       if String.eqb url coins_list_url then ok_json foo_catalog
       else ok_json (PDict [("foo-coin", PDict [("usd", PInt 3)])]) |}.

(** The crypto provider answers every request with status 429. *)
Definition limited_env : env :=
  {| clock := Z.of_nat;
     net := fun _ _ => Responded {| status_code := 429; body := None |} |}.

(** The catalog lists a second coin under the ticker btc, quoted at 7 usd;
    the provider has no usd price for bitcoin itself. *)
Definition btc_alt_env : env :=
  {| clock := Z.of_nat;
     net := fun _ url =>
       if String.eqb url coins_list_url then
         ok_json (PList [PDict [("id", PStr "bitcoin-alt"); ("symbol", PStr "btc")]])
       else ok_json (PDict [("bitcoin-alt", PDict [("usd", PInt 7)])]) |}.

(** ** Vocabulary of the properties *)

(** [always R m]: whatever the environment answers and however [m] ends, the
    worlds before and after are related by [R]. *)
Definition always (R : env -> world -> world -> Prop) {A} (m : M A) : Prop :=
  forall E w, R E w (snd (m E w)).

(** What a computation may do to the world: time passes and requests are
    appended, all of them to URLs in [U]; a cache key keeps its entry, or
    loses it if [P] allows, or gets a fresh entry expiring [ttl] seconds
    after a clock reading of the computation if [W] allows that [ttl]. *)
Definition touches (P : string -> Prop) (W : string -> Z -> Prop) (U : string -> Prop)
  (E : env) (w w' : world) : Prop :=
  (steps w <= steps w')%nat /\
  (exists new, requests w' = (requests w ++ new)%list /\ Forall (fun uo => U (fst uo)) new) /\
  forall k,
    CACHE w' !! k = CACHE w !! k \/
    (P k /\ CACHE w' !! k = None) \/
    (exists ttl v n, W k ttl /\ (steps w <= n < steps w')%nat /\
       CACHE w' !! k = Some {| value := v; expires_at := clock E n + ttl |}).

(** [post Q R m]: whenever [m] ends with a result in [Q], the worlds before
    and after are related by [R]. *)
Definition post {A} (Q : result A -> Prop) (R : env -> world -> world -> Prop)
  (m : M A) : Prop :=
  forall E w, Q (fst (m E w)) -> R E w (snd (m E w)).

Definition is_Raise {A} (r : result A) : Prop :=
  match r with Raise _ => True | Ok _ => False end.

(** ** The catalog, as the specification describes it *)

(** The id and symbol of a catalog entry [{"id": ..., "symbol": ..., ...}]. *)
Definition coin_fields (c : pyval) : option (string * string) :=
  match c with
  | PDict d =>
      match Py.lookup_item d "id", Py.lookup_item d "symbol" with
      | Some (PStr id), Some (PStr sym) => Some (id, sym)
      | _, _ => None
      end
  | _ => None
  end.

(** Every entry has a string symbol and a non-empty string id. *)
Definition well_formed_catalog (items : list pyval) : bool :=
  forallb (fun c =>
             match coin_fields c with
             | Some (id, _) => negb (String.eqb id EmptyString)
             | None => false
             end) items.

(** Two tickers match case-insensitively. *)
Definition same_symbol (a b : string) : bool := String.eqb (lower a) (lower b).

(** The id of the first entry whose symbol matches, in catalog order. *)
Fixpoint first_match (items : list pyval) (symbol : string) : option string :=
  match items with
  | [] => None
  | c :: rest =>
      match coin_fields c with
      | Some (id, sym) =>
          if same_symbol sym symbol then Some id else first_match rest symbol
      | None => first_match rest symbol
      end
  end.


(** How many of the logged requests went to the catalog URL. *)
Fixpoint catalog_fetches (log : list (string * outcome)) : nat :=
  match log with
  | [] => 0
  | (url, _) :: rest =>
      ((if String.eqb url coins_list_url then 1 else 0) + catalog_fetches rest)%nat
  end.


(** ** Responses and cache entries *)

Definition is_2xx (resp : Response) : Prop :=
  200 <= status_code resp <= 299.

(** Either the entry under [key] is still [stored], or it was purged by a
    read that saw the clock past its expiry. *)
Definition kept_or_expired (E : env) (key : string) (stored : entry) (w : world) : Prop :=
  CACHE w !! key = Some stored \/
  (CACHE w !! key = None /\ expires_at stored < clock E (steps w)).

(** ** Rate limiting *)

(** A logged request that the provider answered with status 429. *)
Definition is_429 (uo : string * outcome) : bool :=
  match snd uo with
  | Responded r => Z.eqb (status_code r) 429
  | Failed _ => false
  end.

(** [on_429 final m]: a run of [m] that returns has seen no 429, and a run
    that has seen one ends by raising [final]. *)
Definition on_429 {A} (final : exc) (m : M A) : Prop :=
  forall E w, exists new,
    requests (snd (m E w)) = (requests w ++ new)%list /\
    match fst (m E w) with
    | Ok _ => Forall (fun uo => is_429 uo = false) new
    | Raise e => Exists (fun uo => is_429 uo = true) new -> e = final
    end.

(** ** Transport errors *)

(** What an outcome of a request makes the exchange raise: nothing for a 2xx
    response, [HTTPStatusError] for another status, [RequestError] when no
    response came. *)
Definition transport_error (o : outcome) : option exc :=
  match o with
  | Responded r =>
      if Z.leb 200 (status_code r) && Z.leb (status_code r) 299 then None
      else Some (HTTPStatusError (status_code r))
  | Failed msg => Some (RequestError msg)
  end.

(** The exceptions that do not come from the transport. *)
Definition app_level (e : exc) : Prop :=
  match e with
  | HTTPException _ _ | PyError _ => True
  | HTTPStatusError _ | RequestError _ => False
  end.

(** How a run that sent [new] may have ended, [h] being the [except]
    clauses it went through: it returned and every request was answered 2xx;
    or the last request met a transport error, which [h] translated; or
    every request was answered 2xx and [h] translated an exception of the
    program's own. *)
Definition transport_verdict {A} (h : exc -> exc) (r : result A)
  (new : list (string * outcome)) : Prop :=
  match r with
  | Ok _ => Forall (fun uo => transport_error (snd uo) = None) new
  | Raise err =>
      (exists pre uo e,
         new = (pre ++ [uo])%list /\
         Forall (fun uo => transport_error (snd uo) = None) pre /\
         transport_error (snd uo) = Some e /\ err = h e) \/
      (Forall (fun uo => transport_error (snd uo) = None) new /\
       exists e, app_level e /\ err = h e)
  end.

Definition reports {A} (h : exc -> exc) (m : M A) : Prop :=
  forall E w, exists new,
    requests (snd (m E w)) = (requests w ++ new)%list /\
    transport_verdict h (fst (m E w)) new.

(** ** Request budgets *)

(** [sends_at_most n c m]: a run of [m] sends at most [n] requests, at most
    [c] of them to the catalog URL. *)
Definition sends_at_most (n c : nat) {A} (m : M A) : Prop :=
  forall E w, exists new,
    requests (snd (m E w)) = (requests w ++ new)%list /\
    (length new <= n)%nat /\ (catalog_fetches new <= c)%nat.

(** ** Codes and rates *)

(** No colon in the text. *)
Fixpoint colon_free (s : string) : bool :=
  match s with
  | EmptyString => true
  | String c s' => negb (Ascii.eqb c ":"%char) && colon_free s'
  end.

(** The values a float can be multiplied with. *)
Definition is_number (v : pyval) : bool :=
  match v with
  | PBool _ | PInt _ | PFloat _ => true
  | _ => false
  end.

(** ** More sample data *)

(** The fiat provider quotes EUR as the text "0.9". *)
Definition text_rate_env : env :=
  {| clock := Z.of_nat;
     net := fun _ _ =>
       ok_json (PDict [("result", PStr "success");
                       ("rates", PDict [("EUR", PStr "0.9")])]) |}.

(** The crypto provider quotes bitcoin at 50000 usd. *)
Definition btc_env : env :=
  {| clock := Z.of_nat;
     net := fun _ _ => ok_json (PDict [("bitcoin", PDict [("usd", PInt 50000)])]) |}.

(** The provider does not answer. *)
Definition down_env : env :=
  {| clock := Z.of_nat; net := fun _ _ => Failed "timed out" |}.

(** The provider answers every request with status 503. *)
Definition unavailable_env : env :=
  {| clock := Z.of_nat;
     net := fun _ _ => Responded {| status_code := 503; body := None |} |}.



(** The provider answers the catalog request with JSON null. *)
Definition null_catalog_env : env :=
  {| clock := Z.of_nat; net := fun _ _ => ok_json PNone |}.

(** The fiat provider refuses the base currency. *)
Definition refused_env : env :=
  {| clock := Z.of_nat;
     net := fun _ _ =>
       ok_json (PDict [("result", PStr "error");
                       ("error-type", PStr "unsupported-code")]) |}.

(** A cache that holds one rate, for GBP/JPY, expiring at clock reading 0. *)
Definition stale_world : world :=
  {| CACHE := {[ "fiat:GBP:JPY" := {| value := PInt 150; expires_at := 0 |} ]};
     steps := 0;
     requests := [] |}.

(** * Reasoning about computations *)

(** [simpl] evaluates the glue of a computation and leaves the effects and
    the string operations folded. *)
Arguments cache_get : simpl never.
Arguments cache_set : simpl never.
Arguments client_get : simpl never.
Arguments time_time : simpl never.
Arguments raise_for_status : simpl never.
Arguments upper : simpl never.
Arguments lower : simpl never.
Arguments String.append : simpl never.
Arguments pretty : simpl never.
Arguments price_url : simpl never.
Arguments fiat_cache_key : simpl never.
Arguments crypto_cache_key : simpl never.
Arguments next_coin_id : simpl never.
Arguments Py.lookup_item : simpl never.
Arguments Py.get : simpl never.
Arguments Py.get_default : simpl never.
Arguments load_coins_list : simpl never.
Arguments price_via_catalog : simpl never.
Arguments attempt_mapped : simpl never.
Arguments attempt_fallback : simpl never.
Arguments get_fiat_rate : simpl never.
Arguments get_crypto_price : simpl never.
Arguments PyFloat.mul : simpl never.
Arguments PyFloat.round : simpl never.

Section Always.

Variable R : env -> world -> world -> Prop.
Hypothesis R_refl : forall E w, R E w w.
Hypothesis R_trans : forall E w1 w2 w3, R E w1 w2 -> R E w2 w3 -> R E w1 w3.

Lemma always_ret {A} (a : A) : always R (ret a).
Proof. intros E w. apply R_refl. Qed.

Lemma always_raise {A} (e : exc) : always R (@raise A e).
Proof. intros E w. apply R_refl. Qed.

Lemma always_lift {A} (r : result A) : always R (lift r).
Proof. intros E w. apply R_refl. Qed.

Lemma always_bind {A B} (m : M A) (k : A -> M B) :
  always R m -> (forall a, always R (k a)) -> always R (bind m k).
Proof.
  intros Hm Hk E w. unfold bind.
  specialize (Hm E w). destruct (m E w) as [[a|e] w1]; simpl in *.
  - eapply R_trans; [exact Hm | apply Hk].
  - exact Hm.
Qed.

Lemma always_try_except {A} (m : M A) (h : exc -> exc) :
  always R m -> always R (try_except m h).
Proof.
  intros Hm E w. unfold try_except.
  specialize (Hm E w). destruct (m E w) as [[a|e] w1]; exact Hm.
Qed.

Lemma always_raise_for_status (resp : Response) : always R (raise_for_status resp).
Proof.
  unfold raise_for_status.
  destruct (_ && _); [apply always_ret | apply always_raise].
Qed.

Lemma always_json (resp : Response) : always R (json resp).
Proof.
  unfold json. destruct (body resp); [apply always_ret | apply always_raise].
Qed.

Lemma post_always {A} (Q : result A -> Prop) (m : M A) :
  always R m -> post Q R m.
Proof. intros Hm E w _. apply Hm. Qed.

Lemma post_never {A} (Q : result A -> Prop) (m : M A) :
  (forall E w, ~ Q (fst (m E w))) -> post Q R m.
Proof. intros Hm E w HQ. by destruct (Hm E w). Qed.

Lemma post_bind {A B} (Q : result B -> Prop) (m : M A) (k : A -> M B) :
  always R m -> (forall a, post Q R (k a)) -> post Q R (bind m k).
Proof.
  intros Hm Hk E w. unfold bind.
  specialize (Hm E w). destruct (m E w) as [[a|e] w1] eqn:Hrun; simpl in *.
  - intros HQ. eapply R_trans; [exact Hm | by apply Hk].
  - intros _. exact Hm.
Qed.

(** The general sequencing rule: [m] keeps [R] on the results in [Q1]; after
    any other result of [m] the continuation cannot end in [Q]. *)
Lemma post_bind_split {A B} (Q1 : result A -> Prop) (Q : result B -> Prop)
    (m : M A) (k : A -> M B) :
  post Q1 R m ->
  (forall e, Q (Raise e) -> Q1 (Raise e)) ->
  (forall a, (Q1 (Ok a) /\ post Q R (k a)) \/ (forall E w, ~ Q (fst (k a E w)))) ->
  post Q R (bind m k).
Proof.
  intros Hm Hraise Hk E w. unfold bind.
  specialize (Hm E w). destruct (m E w) as [[a|e] w1] eqn:Hrun; simpl in *.
  - intros HQ. destruct (Hk a) as [[Ha Hpost] | Hnever].
    + eapply R_trans; [by apply Hm | by apply Hpost].
    + by destruct (Hnever E w1).
  - intros HQ. apply Hm. by apply Hraise.
Qed.

Lemma post_try_except {A} (Q : result A -> Prop) (m : M A) (h : exc -> exc) :
  post (fun r => match r with Ok a => Q (Ok a) | Raise e => Q (Raise (h e)) end) R m ->
  post Q R (try_except m h).
Proof.
  intros Hm E w. unfold try_except.
  specialize (Hm E w). destruct (m E w) as [[a|e] w1]; exact Hm.
Qed.

End Always.

Section Touches.

Variable P : string -> Prop.
Variable W : string -> Z -> Prop.
Variable U : string -> Prop.

Lemma touches_refl E w : touches P W U E w w.
Proof.
  repeat split; [lia | | by left].
  exists []. by rewrite app_nil_r.
Qed.

Lemma touches_trans E w1 w2 w3 :
  touches P W U E w1 w2 -> touches P W U E w2 w3 -> touches P W U E w1 w3.
Proof.
  intros (Hs1 & (n1 & Hr1 & Hu1) & Hc1) (Hs2 & (n2 & Hr2 & Hu2) & Hc2).
  repeat split; [lia | |].
  - exists (n1 ++ n2)%list. split.
    + by rewrite Hr2, Hr1, app_assoc.
    + by apply Forall_app.
  - intros k. destruct (Hc2 k) as [Heq | [[Hp Hn] | (ttl & v & n & Hw & Hn & Hk)]].
    + rewrite Heq. destruct (Hc1 k) as [? | [? | (ttl & v & n & Hw & Hn & Hk)]];
        [by left | by right; left |].
      right; right. exists ttl, v, n. repeat split; [done | lia | lia | done].
    + by right; left.
    + right; right. exists ttl, v, n. repeat split; [done | lia | lia | done].
Qed.

Lemma touches_time_time : always (touches P W U) time_time.
Proof.
  intros E w. unfold time_time, tick; simpl. repeat split; simpl; [lia | | by left].
  exists []. by rewrite app_nil_r.
Qed.

Lemma touches_client_get url : U url -> always (touches P W U) (client_get url).
Proof.
  intros Hu E w. unfold client_get.
  assert (Hgoal : touches P W U E w (logged w url (net E (steps w) url))).
  { repeat split; simpl; [lia | | by left].
    eexists. split; [done |]. by constructor. }
  by destruct (net E (steps w) url).
Qed.

Lemma touches_cache_get key : P key -> always (touches P W U) (cache_get key).
Proof.
  intros Hp E w. unfold cache_get, bind, get_CACHE, time_time, tick, put_CACHE, ret; simpl.
  destruct (CACHE w !! key) as [e|] eqn:He; simpl; [| apply touches_refl].
  destruct (Z.ltb (expires_at e) (clock E (steps w))); simpl.
  - repeat split; simpl; [lia | |].
    + exists []. by rewrite app_nil_r.
    + intros k. destruct (decide (key = k)) as [<- | Hne].
      * right; left. by rewrite lookup_delete_eq.
      * left. by rewrite lookup_delete_ne.
  - repeat split; simpl; [lia | | by left].
    exists []. by rewrite app_nil_r.
Qed.

Lemma touches_cache_set key v ttl : W key ttl -> always (touches P W U) (cache_set key v ttl).
Proof.
  intros Hw E w. unfold cache_set, bind, get_CACHE, time_time, tick, put_CACHE; simpl.
  repeat split; simpl; [lia | |].
  - exists []. by rewrite app_nil_r.
  - intros k. destruct (decide (key = k)) as [<- | Hne].
    + right; right. exists ttl, v, (steps w). rewrite lookup_insert_eq.
      repeat split; [done | lia | lia].
    + left. by rewrite lookup_insert_ne.
Qed.

End Touches.

(** One structural step of a proof of [always (touches P W U) m]. *)
Ltac touch_step :=
  lazymatch goal with
  | |- always _ (bind _ _) =>
      apply always_bind; [apply touches_trans | | intros ?]
  | |- always _ (ret _) => apply always_ret, touches_refl
  | |- always _ (raise _) => apply always_raise, touches_refl
  | |- always _ (lift _) => apply always_lift, touches_refl
  | |- always _ (try_except _ _) =>
      apply always_try_except
  | |- always _ (raise_for_status _) =>
      apply always_raise_for_status, touches_refl
  | |- always _ (json _) =>
      apply always_json, touches_refl
  | |- always _ time_time => apply touches_time_time
  | |- always _ (if ?b then _ else _) => destruct b
  | |- always _ (match ?x with _ => _ end) => destruct x
  end.

(** ** Keys and URLs do not collide *)

Lemma fiat_key_not_crypto_key base target symbol vs_currency :
  fiat_cache_key base target <> crypto_cache_key symbol vs_currency.
Proof. unfold fiat_cache_key, crypto_cache_key. simpl. discriminate. Qed.

Lemma fiat_key_not_list_key base target :
  fiat_cache_key base target <> list_cache_key.
Proof. unfold fiat_cache_key, list_cache_key. simpl. discriminate. Qed.

Lemma crypto_key_not_list_key symbol vs_currency :
  crypto_cache_key symbol vs_currency <> list_cache_key.
Proof. unfold crypto_cache_key, list_cache_key. simpl. discriminate. Qed.

Lemma fiat_url_not_coins_list_url base_u :
  FIAT_API_BASE_URL +:+ base_u <> coins_list_url.
Proof. unfold FIAT_API_BASE_URL, coins_list_url. simpl. discriminate. Qed.

Lemma price_url_not_coins_list_url `{Runtime} coin_id vs :
  price_url coin_id vs <> coins_list_url.
Proof.
  unfold price_url, coins_list_url. intros Heq.
  apply String.app_inj in Heq. simpl in Heq. discriminate.
Qed.

Section Effects.
Context `{Runtime}.
Variable P : string -> Prop.
Variable W : string -> Z -> Prop.
Variable U : string -> Prop.

Lemma fiat_touches base target :
  P (fiat_cache_key base target) ->
  W (fiat_cache_key base target) 900 ->
  U (FIAT_API_BASE_URL +:+ upper base) ->
  always (touches P W U) (get_fiat_rate base target).
Proof.
  intros HP HW HU. unfold get_fiat_rate. cbv zeta.
  repeat touch_step.
  all: first [ by apply touches_cache_get
             | by apply touches_client_get
             | by apply touches_cache_set ].
Qed.

Lemma mapped_touches coin_id vs cache_key :
  W cache_key 900 ->
  U (price_url coin_id vs) ->
  always (touches P W U) (attempt_mapped coin_id vs cache_key).
Proof.
  intros HW HU. unfold attempt_mapped.
  repeat touch_step.
  all: first [ by apply touches_client_get | by apply touches_cache_set ].
Qed.

Lemma load_touches :
  P list_cache_key ->
  W list_cache_key 86400 ->
  U coins_list_url ->
  always (touches P W U) load_coins_list.
Proof.
  intros HP HW HU. unfold load_coins_list.
  repeat touch_step.
  all: first [ by apply touches_cache_get
             | by apply touches_client_get
             | by apply touches_cache_set ].
Qed.

Lemma via_catalog_touches coins_list symbol_upper vs :
  (forall coin_id, U (price_url coin_id vs)) ->
  always (touches P W U) (price_via_catalog coins_list symbol_upper vs).
Proof.
  intros HU. unfold price_via_catalog.
  repeat touch_step.
  all: by apply touches_client_get.
Qed.

Lemma crypto_touches symbol vs_currency :
  P (crypto_cache_key symbol vs_currency) ->
  P list_cache_key ->
  W (crypto_cache_key symbol vs_currency) 900 ->
  W list_cache_key 86400 ->
  U coins_list_url ->
  (forall coin_id, U (price_url coin_id (lower vs_currency))) ->
  always (touches P W U) (get_crypto_price symbol vs_currency).
Proof.
  intros HPk HPl HWk HWl HUl HUp. unfold get_crypto_price, attempt_fallback. cbv zeta.
  repeat touch_step.
  all: first [ by apply touches_cache_get
             | by apply touches_cache_set
             | by apply mapped_touches
             | by apply load_touches
             | by apply via_catalog_touches ].
Qed.

End Effects.

(** * The TTL cache *)


Lemma cache_get_absent key E w :
  CACHE w !! key = None -> cache_get key E w = (Ok PNone, w).
Proof.
  intros Hk. unfold cache_get, bind, get_CACHE; simpl. by rewrite Hk.
Qed.

Lemma cache_get_live key E w e :
  CACHE w !! key = Some e ->
  clock E (steps w) <= expires_at e ->
  cache_get key E w = (Ok (value e), tick w).
Proof.
  intros Hk Ht. unfold cache_get, bind, get_CACHE, time_time; simpl.
  rewrite Hk; simpl.
  destruct (Z.ltb_spec (expires_at e) (clock E (steps w))); [lia | done].
Qed.

Lemma cache_get_expired key E w e :
  CACHE w !! key = Some e ->
  expires_at e < clock E (steps w) ->
  cache_get key E w =
    (Ok PNone,
     {| CACHE := delete key (CACHE w); steps := S (steps w); requests := requests w |}).
Proof.
  intros Hk Ht. unfold cache_get, bind, get_CACHE, time_time; simpl.
  rewrite Hk; simpl.
  destruct (Z.ltb_spec (expires_at e) (clock E (steps w))); [done | lia].
Qed.

Lemma cache_set_eq key v ttl E w :
  cache_set key v ttl E w =
    (Ok tt,
     {| CACHE := <[key := {| value := v; expires_at := clock E (steps w) + ttl |}]> (CACHE w);
        steps := S (steps w); requests := requests w |}).
Proof. reflexivity. Qed.

Section CacheContract.

Variable E : env.
Hypothesis clock_mono : monotonic E.
Variable key : string.
Variable stored : entry.

Lemma kept_or_expired_op (o : cache_op) (w : world) :
  sets_key key o = false ->
  kept_or_expired E key stored w -> kept_or_expired E key stored (run_op o E w).
Proof.
  intros Hset Hinv. destruct o as [k | k v ttl]; unfold run_op; simpl in Hset.
  - (* a read *)
    destruct (CACHE w !! k) as [e|] eqn:Hk.
    + destruct (Z.lt_ge_cases (expires_at e) (clock E (steps w))) as [Hlt | Hge].
      * rewrite (cache_get_expired _ _ _ _ Hk Hlt); simpl.
        assert (Hmono : clock E (steps w) <= clock E (S (steps w)))
          by (apply clock_mono; lia).
        destruct (decide (k = key)) as [-> | Hne].
        -- right. simpl. rewrite lookup_delete_eq. split; [done |].
           destruct Hinv as [Hs | [Hn _]]; [| congruence].
           assert (e = stored) by congruence. subst e. simpl. lia.
        -- destruct Hinv as [Hs | [Hn Hx]]; [left | right]; simpl;
             rewrite lookup_delete_ne by done; [done | split; [done | lia]].
      * rewrite (cache_get_live _ _ _ _ Hk Hge); unfold tick; simpl.
        destruct Hinv as [Hs | [Hn Hx]]; [by left | right]. split; [done |].
        assert (clock E (steps w) <= clock E (S (steps w)))
          by (apply clock_mono; lia).
        simpl. lia.
    + by rewrite (cache_get_absent _ _ _ Hk).
  - (* a write to another key *)
    apply String.eqb_neq in Hset. rewrite cache_set_eq; simpl.
    assert (clock E (steps w) <= clock E (S (steps w)))
      by (apply clock_mono; lia).
    destruct Hinv as [Hs | [Hn Hx]]; [left | right]; simpl;
      rewrite lookup_insert_ne by done; [done | split; [done | lia]].
Qed.

Lemma kept_or_expired_ops (os : list cache_op) (w : world) :
  forallb (fun o => negb (sets_key key o)) os = true ->
  kept_or_expired E key stored w -> kept_or_expired E key stored (run_ops os E w).
Proof.
  revert w. induction os as [| o os IH]; intros w Hall Hinv; simpl in *; [done |].
  apply andb_true_iff in Hall as [Ho Hos].
  apply IH; [done |]. apply kept_or_expired_op; [| done].
  by apply negb_true_iff.
Qed.

End CacheContract.

(** C4 (as amended).  After [cache_set key v ttl] reads the clock at [t0],
    and whatever reads and whatever writes to other keys come in between on
    a monotonic clock, [cache_get key] at clock reading [t] returns [v] and
    leaves the cache alone when [t <= t0 + ttl], and returns [None] with the
    entry gone from the cache when [t0 + ttl < t]. *)
Theorem cache_get_after_set (E : env) (w : world) (key : string) (v : pyval) (ttl : Z)
    (between : list cache_op) :
  monotonic E ->
  forallb (fun o => negb (sets_key key o)) between = true ->
  let t0 := clock E (steps w) in
  let w2 := run_ops between E (snd (cache_set key v ttl E w)) in
  let t := clock E (steps w2) in
  (t <= t0 + ttl ->
     cache_get key E w2 = (Ok v, tick w2)) /\
  (t0 + ttl < t ->
     fst (cache_get key E w2) = Ok PNone /\
     CACHE (snd (cache_get key E w2)) !! key = None).
Proof.
  intros Hmono Hnoset t0 w2 t.
  pose (stored := {| value := v; expires_at := t0 + ttl |}).
  assert (Hinv : kept_or_expired E key stored w2).
  { apply kept_or_expired_ops; [done | done |].
    left. rewrite cache_set_eq; simpl. by rewrite lookup_insert_eq. }
  split; intros Ht.
  - destruct Hinv as [Hs | [_ Hx]]; [| simpl in Hx; fold t in Hx; lia].
    by rewrite (cache_get_live _ _ _ _ Hs Ht).
  - destruct Hinv as [Hs | [Hn _]].
    + rewrite (cache_get_expired _ _ _ _ Hs Ht); simpl.
      split; [done | apply lookup_delete_eq].
    + by rewrite (cache_get_absent _ _ _ Hn).
Qed.

(** * Cache writes of the resolvers *)

Section CacheWrites.
Context `{Runtime}.

(** C10.  The default TTL is 900 seconds, and it is the TTL of every fiat
    rate and crypto price entry: an entry that a resolver call leaves in the
    cache and that was not there before the call is either the call's own
    rate or price key, expiring 900 seconds after a clock reading of the
    call, or the catalog key of a crypto call, expiring 86400 seconds after
    one. *)
Theorem written_entries_ttl :
  CACHE_TTL_SECONDS = 900 /\
  forall (c : call) (E : env) (w : world) (k : string) (e : entry),
    let w' := snd (run_call c E w) in
    CACHE w' !! k = Some e ->
    CACHE w !! k = Some e \/
    exists n : nat, (steps w <= n < steps w')%nat /\
      ((k = call_cache_key c /\ expires_at e = clock E n + 900) \/
       (k = list_cache_key /\ k <> call_cache_key c /\
        (exists symbol vs_currency, c = CryptoCall symbol vs_currency) /\
        expires_at e = clock E n + 86400)).
Proof.
  split; [reflexivity |].
  intros c E w k e w' Hk.
  assert (Hrun : touches (fun _ => True)
                   (fun k ttl => (k = call_cache_key c /\ ttl = 900) \/
                      (k = list_cache_key /\ k <> call_cache_key c /\
                       (exists symbol vs_currency, c = CryptoCall symbol vs_currency) /\
                       ttl = 86400))
                   (fun _ => True) E w w').
  { subst w'. destruct c as [base target | symbol vs_currency]; simpl.
    - apply fiat_touches; [done | by left | done].
    - apply crypto_touches; try done; [by left |].
      right. repeat split; [| by eauto].
      intros Heq. by apply (crypto_key_not_list_key symbol vs_currency). }
  destruct Hrun as (_ & _ & Hcache).
  destruct (Hcache k) as [Heq | [[_ Hnone] | (ttl & v & n & Hw & Hn & Hnew)]].
  - left. congruence.
  - congruence.
  - right. exists n. split; [done |].
    rewrite Hk in Hnew. injection Hnew as ->. simpl.
    destruct Hw as [[-> ->] | (-> & Hne & Hc & ->)]; [by left | by right].
Qed.

(** Attempt 1 writes the price key only on the way to its [return]. *)
Lemma mapped_post (P : string -> Prop) (W : string -> Z -> Prop) (U : string -> Prop)
    coin_id vs cache_key :
  U (price_url coin_id vs) ->
  post (fun r => match r with Ok (inl _) => False | _ => True end)
       (touches P W U) (attempt_mapped coin_id vs cache_key).
Proof.
  intros HU. unfold attempt_mapped.
  destruct (Py.truthy coin_id); [| apply post_always, always_ret, touches_refl].
  apply post_bind; [apply touches_trans | by apply touches_client_get | intros resp].
  apply post_bind; [apply touches_trans | apply always_raise_for_status, touches_refl | intros _].
  apply post_bind; [apply touches_trans | apply always_json, touches_refl | intros data].
  apply post_bind; [apply touches_trans | apply always_lift, touches_refl | intros inner].
  apply post_bind; [apply touches_trans | apply always_lift, touches_refl | intros price].
  destruct (negb (Py.is_None price)).
  - apply post_never. intros E w. unfold bind. rewrite cache_set_eq. simpl. tauto.
  - apply post_always, always_ret, touches_refl.
Qed.

(** A failing crypto resolution leaves the price key alone: it may only have
    purged an expired entry. *)
Lemma crypto_raise_post (P : string -> Prop) (W : string -> Z -> Prop) (U : string -> Prop)
    symbol vs_currency :
  P (crypto_cache_key symbol vs_currency) ->
  P list_cache_key ->
  W list_cache_key 86400 ->
  U coins_list_url ->
  (forall coin_id, U (price_url coin_id (lower vs_currency))) ->
  post is_Raise (touches P W U) (get_crypto_price symbol vs_currency).
Proof.
  intros HPk HPl HWl HUl HUp. unfold get_crypto_price. cbv zeta.
  apply post_bind; [apply touches_trans | by apply touches_cache_get | intros cached].
  destruct (negb (Py.is_None cached)); [apply post_always, always_ret, touches_refl |].
  apply post_bind_split with (Q1 := is_Raise); [apply touches_trans | | done |].
  - apply post_try_except.
    apply post_bind_split
      with (Q1 := fun r => match r with Ok (inl _) => False | _ => True end);
      [apply touches_trans | by apply mapped_post | done |].
    intros [price | price]; [right; intros E w; simpl; tauto | left].
    split; [done |]. apply post_always.
    repeat touch_step.
    unfold attempt_fallback. repeat touch_step.
    + by apply load_touches.
    + by apply via_catalog_touches.
  - intros [price | price]; right; intros E w; [simpl; tauto |].
    unfold bind. rewrite cache_set_eq. simpl. tauto.
Qed.

End CacheWrites.

(** * One upstream exchange *)

Lemma raise_for_status_2xx resp E w :
  is_2xx resp -> raise_for_status resp E w = (Ok tt, w).
Proof.
  intros [Hlo Hhi]. unfold raise_for_status.
  destruct (Z.leb_spec 200 (status_code resp)); [| lia].
  destruct (Z.leb_spec (status_code resp) 299); [done | lia].
Qed.

Lemma client_get_Responded url E w resp :
  net E (steps w) url = Responded resp ->
  client_get url E w = (Ok resp, logged w url (Responded resp)).
Proof. intros Hnet. unfold client_get. by rewrite Hnet. Qed.

(** Evaluate the glue between the effects of a computation. *)
Ltac glue := unfold json, bind, try_except, lift, ret, raise; simpl.

(** * The fiat rate resolver *)

Section Fiat.
Context `{Runtime}.

(** C1 (what the code does).  When the cache misses and the provider
    answers with result "success" and a rate table without the uppercased
    target, [get_fiat_rate] ends with status 500: the 400 "Invalid currency
    code" it raises inside its [try] block (502 for an empty table) is caught
    by its own [except Exception] clause and wrapped.  The endpoint passes
    the 500 on. *)
Theorem fiat_unknown_target_is_500 (E : env) (w w1 : world) (base target : string)
    (resp : Response) (data rates : list (string * pyval)) (amount : spec_float) :
  cache_get (fiat_cache_key base target) E w = (Ok PNone, w1) ->
  net E (steps w1) (FIAT_API_BASE_URL +:+ upper base) = Responded resp ->
  is_2xx resp ->
  body resp = Some (PDict data) ->
  Py.lookup_item data "result" = Some (PStr "success") ->
  Py.lookup_item data "rates" = Some (PDict rates) ->
  Py.lookup_item rates (upper target) = None ->
  let raised :=
    match rates with
    | [] => HTTPException 502 "Unexpected response structure from ExchangeRate-API"
    | _ => HTTPException 400 ("Invalid currency code: " +:+ upper target)
    end in
  let surfaced :=
    HTTPException 500
      ("Internal server error while processing fiat rates: " +:+ exc_str raised) in
  fst (get_fiat_rate base target E w) = Raise surfaced /\
  fst (convert base target amount E w) = Raise surfaced.
Proof.
  intros Hmiss Hnet H2xx Hbody Hresult Hrates Htarget raised surfaced.
  assert (Hrun : fst (get_fiat_rate base target E w) = Raise surfaced).
  { unfold fiat_cache_key in Hmiss.
    unfold get_fiat_rate. cbv zeta. glue.
    rewrite Hmiss. glue.
    rewrite (client_get_Responded _ _ _ _ Hnet), raise_for_status_2xx by done.
    rewrite Hbody. unfold Py.get. rewrite Hresult. simpl. rewrite Hrates. simpl.
    destruct rates as [| item rates']; [reflexivity |].
    simpl. rewrite Htarget. reflexivity. }
  split; [exact Hrun |].
  unfold convert. glue.
  destruct (get_fiat_rate base target E w) as [[rate | e] w']; simpl in *;
    [discriminate |].
  injection Hrun as ->. reflexivity.
Qed.

End Fiat.

(** * Letter case *)

Lemma lower_upper_ascii c : lower_ascii (upper_ascii c) = lower_ascii c.
Proof. by destruct c as [[] [] [] [] [] [] [] []]. Qed.

Lemma upper_lower_ascii c : upper_ascii (lower_ascii c) = upper_ascii c.
Proof. by destruct c as [[] [] [] [] [] [] [] []]. Qed.

Lemma map_chars_compose f g h s :
  (forall c, f (g c) = h c) -> map_chars f (map_chars g s) = map_chars h s.
Proof.
  intros Hc. induction s as [| c s IH]; simpl; [done |]. by rewrite Hc, IH.
Qed.

Lemma lower_upper s : lower (upper s) = lower s.
Proof. apply map_chars_compose, lower_upper_ascii. Qed.

Lemma upper_lower s : upper (lower s) = upper s.
Proof. apply map_chars_compose, upper_lower_ascii. Qed.

(** Comparing the uppercased forms, as the code does, is comparing the
    lowercased forms. *)
Lemma upper_eq_iff_lower_eq a b : upper a = upper b <-> lower a = lower b.
Proof.
  split; intros Heq.
  - by rewrite <- (lower_upper a), Heq, lower_upper.
  - by rewrite <- (upper_lower a), Heq, upper_lower.
Qed.

Lemma eqb_upper_same_symbol a b :
  String.eqb (upper a) (upper b) = same_symbol a b.
Proof.
  unfold same_symbol.
  destruct (String.eqb_spec (upper a) (upper b)) as [Heq | Hne];
    destruct (String.eqb_spec (lower a) (lower b)) as [Heq' | Hne']; try done.
  - by apply upper_eq_iff_lower_eq in Heq.
  - by apply upper_eq_iff_lower_eq in Heq'.
Qed.

(** * The catalog search *)

(** On a well-formed catalog the generator expression of the source finds
    the first case-insensitive match, and [None] when there is none. *)
Lemma first_coin_id_first_match items symbol :
  well_formed_catalog items = true ->
  first_coin_id items (upper symbol) =
    Ok (match first_match items symbol with
        | Some id => PStr id
        | None => PNone
        end).
Proof.
  induction items as [| c items IH]; intros Hwf; [done |].
  simpl in Hwf. apply andb_true_iff in Hwf as [Hc Hwf].
  destruct (coin_fields c) as [[id sym] |] eqn:Hfields; [| done].
  simpl. rewrite Hfields.
  destruct c as [| | | | | | d]; try done. simpl in *.
  destruct (Py.lookup_item d "id") as [[| | | | id' | |] |]; try done.
  destruct (Py.lookup_item d "symbol") as [[| | | | sym' | |] |]; try done.
  injection Hfields as -> ->. simpl.
  rewrite eqb_upper_same_symbol.
  destruct (same_symbol sym symbol); [done | by apply IH].
Qed.




(** * The crypto price resolver *)

Section Crypto.
Context `{Runtime}.

Lemma symbol_map_truthy k :
  Py.truthy (symbol_map_get CRYPTO_SYMBOL_MAP k) =
  negb (Py.is_None (symbol_map_get CRYPTO_SYMBOL_MAP k)).
Proof.
  unfold CRYPTO_SYMBOL_MAP. cbn [symbol_map_get].
  repeat (destruct (String.eqb _ k); [reflexivity |]). reflexivity.
Qed.

(** The fast path when the provider's answer holds no price for the pair. *)
Lemma mapped_no_price coin_id vs cache_key E w resp data inner :
  Py.truthy coin_id = true ->
  net E (steps w) (price_url coin_id vs) = Responded resp ->
  is_2xx resp ->
  body resp = Some data ->
  Py.get_default data coin_id (PDict []) = Ok inner ->
  Py.get inner vs = Ok PNone ->
  attempt_mapped coin_id vs cache_key E w =
    (Ok (inr (Some PNone)), logged w (price_url coin_id vs) (Responded resp)).
Proof.
  intros Htruthy Hnet H2xx Hbody Hinner Hprice.
  unfold attempt_mapped. rewrite Htruthy. glue.
  rewrite (client_get_Responded _ _ _ _ Hnet), raise_for_status_2xx by done.
  rewrite Hbody. simpl. rewrite Hinner. simpl. rewrite Hprice. reflexivity.
Qed.


(** C2 (as amended).  When the uppercased symbol is in the static map and
    the answer to the fast-path price request holds no price for the id and
    currency, the resolver does not run the fallback: the call fails, its
    only request is that price request, and it writes nothing to the cache
    (neither a price nor the catalog). *)
Theorem mapped_symbol_without_price_skips_fallback (E : env) (w w1 : world)
    (symbol vs_currency id : string) (resp : Response) (data inner : pyval) :
  symbol_map_get CRYPTO_SYMBOL_MAP (upper symbol) = PStr id ->
  cache_get (crypto_cache_key symbol vs_currency) E w = (Ok PNone, w1) ->
  net E (steps w1) (price_url (PStr id) (lower vs_currency)) = Responded resp ->
  is_2xx resp ->
  body resp = Some data ->
  Py.get_default data (PStr id) (PDict []) = Ok inner ->
  Py.get inner (lower vs_currency) = Ok PNone ->
  let w' := snd (get_crypto_price symbol vs_currency E w) in
  is_Raise (fst (get_crypto_price symbol vs_currency E w)) /\
  new_requests w1 w' = [(price_url (PStr id) (lower vs_currency), Responded resp)] /\
  catalog_fetches (new_requests w1 w') = 0%nat /\
  CACHE w' = CACHE w1.
Proof.
  intros Hmap Hmiss Hnet H2xx Hbody Hinner Hprice w'.
  assert (Htruthy : Py.truthy (PStr id) = true).
  { pose proof (symbol_map_truthy (upper symbol)) as Ht. by rewrite Hmap in Ht. }
  assert (Hrun : get_crypto_price symbol vs_currency E w =
            (Raise (crypto_except
                      (HTTPException 502
                         "CoinGecko returned no price for requested vs_currency")),
             logged w1 (price_url (PStr id) (lower vs_currency)) (Responded resp))).
  { unfold crypto_cache_key in Hmiss.
    unfold get_crypto_price. cbv zeta. rewrite Hmap. glue.
    rewrite Hmiss. simpl.
    erewrite mapped_no_price by eassumption. simpl.
    simpl in Htruthy. apply negb_true_iff in Htruthy. rewrite Htruthy. reflexivity. }
  subst w'. rewrite Hrun. simpl.
  assert (Hnew : new_requests w1
            (logged w1 (price_url (PStr id) (lower vs_currency)) (Responded resp))
          = [(price_url (PStr id) (lower vs_currency), Responded resp)]).
  { unfold new_requests, logged. simpl. by rewrite drop_app_length. }
  rewrite Hnew. split; [done |]. split; [done |]. split; [| done].
  unfold catalog_fetches. simpl.
  destruct (String.eqb_spec (price_url (PStr id) (lower vs_currency)) coins_list_url)
    as [Heq | Hne]; [| done].
  by apply price_url_not_coins_list_url in Heq.
Qed.

(** C3 (what the code does).  When the uppercased symbol is absent from the
    static map, the cache has no price for it, the catalog is obtained and is
    well formed, and no entry matches the symbol, [get_crypto_price] ends
    with status 500: the 404 "not found" it raises inside its [try] block is
    caught by its own [except Exception] clause and wrapped.  The endpoint
    passes the 500 on. *)
Theorem crypto_unknown_symbol_is_500 (E : env) (w w1 w2 : world)
    (symbol vs_currency : string) (items : list pyval) (amount : spec_float) :
  symbol_map_get CRYPTO_SYMBOL_MAP (upper symbol) = PNone ->
  cache_get (crypto_cache_key symbol vs_currency) E w = (Ok PNone, w1) ->
  load_coins_list E w1 = (Ok (PList items), w2) ->
  well_formed_catalog items = true ->
  first_match items symbol = None ->
  let raised :=
    HTTPException 404
      ("Crypto symbol '" +:+ upper symbol +:+ "' not found on CoinGecko") in
  let surfaced :=
    HTTPException 500
      ("Internal server error while processing crypto rates: " +:+ exc_str raised) in
  fst (get_crypto_price symbol vs_currency E w) = Raise surfaced /\
  fst (crypto_convert symbol vs_currency amount E w) = Raise surfaced.
Proof.
  intros Hmap Hmiss Hload Hwf Hnone raised surfaced.
  assert (Hrun : fst (get_crypto_price symbol vs_currency E w) = Raise surfaced).
  { unfold crypto_cache_key in Hmiss.
    unfold get_crypto_price. cbv zeta. rewrite Hmap. glue.
    rewrite Hmiss. simpl.
    unfold attempt_fallback. glue. rewrite Hload. simpl.
    unfold price_via_catalog. glue.
    unfold next_coin_id. simpl.
    rewrite (first_coin_id_first_match _ _ Hwf), Hnone. reflexivity. }
  split; [exact Hrun |].
  unfold crypto_convert. glue.
  destruct (get_crypto_price symbol vs_currency E w) as [[price | e] w']; simpl in *;
    [discriminate |].
  injection Hrun as ->. reflexivity.
Qed.

End Crypto.

(** * Rate-limit propagation *)

Section RateLimit.

Variable final : exc.

Lemma on_429_quiet {A} (m : M A) P W :
  always (touches P W (fun _ => False)) m -> on_429 final m.
Proof.
  intros Hm E w. destruct (Hm E w) as (_ & (new & Hreq & Hnew) & _).
  destruct new as [| uo new]; [| by apply Forall_cons in Hnew as [[] _]].
  exists []. split; [done |].
  destruct (fst (m E w)); [constructor | by intros ?%Exists_nil].
Qed.

Lemma on_429_ret {A} (a : A) : on_429 final (ret a).
Proof. intros E w. exists []. simpl. by rewrite app_nil_r. Qed.

Lemma on_429_raise {A} (e : exc) : on_429 final (@raise A e).
Proof.
  intros E w. exists []. simpl. rewrite app_nil_r. split; [done |].
  by intros ?%Exists_nil.
Qed.

Lemma on_429_lift {A} (r : result A) : on_429 final (lift r).
Proof.
  intros E w. exists []. simpl. rewrite app_nil_r. split; [done |].
  destruct r; [constructor | by intros ?%Exists_nil].
Qed.

Lemma on_429_bind {A B} (m : M A) (k : A -> M B) :
  on_429 final m -> (forall a, on_429 final (k a)) -> on_429 final (bind m k).
Proof.
  intros Hm Hk E w. unfold bind.
  destruct (Hm E w) as (new1 & Hreq1 & Hres1).
  destruct (m E w) as [[a | e] w1]; simpl in *; [| by exists new1].
  destruct (Hk a E w1) as (new2 & Hreq2 & Hres2).
  exists (new1 ++ new2)%list. split; [by rewrite Hreq2, Hreq1, app_assoc |].
  destruct (fst (k a E w1)).
  - by apply Forall_app.
  - intros [Hex | Hex]%Exists_app; [| by apply Hres2].
    apply Exists_exists in Hex as (uo & Hin & H429).
    rewrite Forall_forall in Hres1. by rewrite (Hres1 uo Hin) in H429.
Qed.

Lemma on_429_json resp : on_429 final (json resp).
Proof. unfold json. destruct (body resp); [apply on_429_ret | apply on_429_raise]. Qed.

End RateLimit.

(** A request followed by [raise_for_status]: the only place where a
    response with status 429 enters the program. *)
Lemma exchange_unfold {B} url (k : Response -> unit -> M B) E w :
  bind (client_get url) (fun resp => bind (raise_for_status resp) (k resp)) E w =
  match net E (steps w) url with
  | Responded resp =>
      if Z.leb 200 (status_code resp) && Z.leb (status_code resp) 299
      then k resp tt E (logged w url (Responded resp))
      else (Raise (HTTPStatusError (status_code resp)),
            logged w url (Responded resp))
  | Failed msg => (Raise (RequestError msg), logged w url (Failed msg))
  end.
Proof.
  unfold bind, client_get, raise_for_status, ret, raise.
  destruct (net E (steps w) url) as [resp | msg]; [| done].
  by destruct (Z.leb 200 (status_code resp) && Z.leb (status_code resp) 299).
Qed.

Lemma on_429_exchange {B} url (k : Response -> unit -> M B) :
  (forall resp u, on_429 (HTTPStatusError 429) (k resp u)) ->
  on_429 (HTTPStatusError 429)
    (bind (client_get url) (fun resp => bind (raise_for_status resp) (k resp))).
Proof.
  intros Hk E w. rewrite exchange_unfold.
  destruct (net E (steps w) url) as [resp | msg].
  - destruct (Z.leb 200 (status_code resp) && Z.leb (status_code resp) 299) eqn:H2xx.
    + destruct (Hk resp tt E (logged w url (Responded resp))) as (new & Hreq & Hres).
      exists ((url, Responded resp) :: new). split.
      * rewrite Hreq. simpl. by rewrite <- app_assoc.
      * assert (Hno : is_429 (url, Responded resp) = false).
        { unfold is_429; simpl. apply andb_true_iff in H2xx as [_ Hhi].
          apply Z.leb_le in Hhi. apply Z.eqb_neq. lia. }
        destruct (fst (k resp tt E (logged w url (Responded resp)))).
        -- by constructor.
        -- intros [Hhd | Htl]%Exists_cons; [congruence | by apply Hres].
    + exists [(url, Responded resp)]. split; [done |]. simpl.
      intros [Hhd | Htl]%Exists_cons; [| by apply Exists_nil in Htl].
      unfold is_429 in Hhd; simpl in Hhd. apply Z.eqb_eq in Hhd. by rewrite Hhd.
  - exists [(url, Failed msg)]. split; [done |]. simpl.
    intros [Hhd | Htl]%Exists_cons; [done | by apply Exists_nil in Htl].
Qed.

Lemma on_429_try_except {A} final (m : M A) (h : exc -> exc) :
  on_429 final m -> on_429 (h final) (try_except m h).
Proof.
  intros Hm E w. unfold try_except.
  destruct (Hm E w) as (new & Hreq & Hres). exists new.
  destruct (m E w) as [[a | e] w1]; simpl in *; [done |].
  split; [done |]. intros Hex. by rewrite (Hres Hex).
Qed.

(** One structural step of a proof of [on_429 (HTTPStatusError 429) m]. *)
Ltac on_429_step :=
  lazymatch goal with
  | |- on_429 _ (bind (client_get _) _) => apply on_429_exchange; intros ? ?
  | |- on_429 _ (bind _ _) => apply on_429_bind; [| intros ?]
  | |- on_429 _ (ret _) => apply on_429_ret
  | |- on_429 _ (raise _) => apply on_429_raise
  | |- on_429 _ (lift _) => apply on_429_lift
  | |- on_429 _ (json _) => apply on_429_json
  | |- on_429 _ (cache_get _) =>
      apply (on_429_quiet _ _ (fun _ => True) (fun _ _ => True)),
        touches_cache_get; exact I
  | |- on_429 _ (cache_set _ _ _) =>
      apply (on_429_quiet _ _ (fun _ => True) (fun _ _ => True)),
        touches_cache_set; exact I
  | |- on_429 _ (if ?b then _ else _) => destruct b
  | |- on_429 _ (match ?x with _ => _ end) => destruct x
  end.

Section RateLimitCrypto.
Context `{Runtime}.

Lemma crypto_on_429 symbol vs_currency :
  on_429 (crypto_except (HTTPStatusError 429)) (get_crypto_price symbol vs_currency).
Proof.
  unfold get_crypto_price. cbv zeta.
  apply on_429_bind; [on_429_step | intros cached].
  destruct (negb (Py.is_None cached)); [apply on_429_ret |].
  apply on_429_bind.
  - apply on_429_try_except.
    unfold attempt_mapped, attempt_fallback, load_coins_list, price_via_catalog.
    repeat on_429_step.
  - intros [price | price]; repeat on_429_step.
Qed.

(** C5.  When a request that [get_crypto_price] sends upstream (the price
    request in particular) is answered with HTTP status 429, the resolver
    raises the 429 "rate limit" error, and the [/crypto] endpoint passes it
    on unchanged: neither 502 nor 500. *)
Theorem rate_limit_is_surfaced (E : env) (w : world) (symbol vs_currency url : string)
    (resp : Response) (amount : spec_float) :
  In (url, Responded resp)
     (new_requests w (snd (get_crypto_price symbol vs_currency E w))) ->
  status_code resp = 429 ->
  let limited :=
    HTTPException 429
      "Rate limit exceeded on CoinGecko. Increase cache TTL or upgrade CoinGecko plan." in
  fst (get_crypto_price symbol vs_currency E w) = Raise limited /\
  fst (crypto_convert symbol vs_currency amount E w) = Raise limited.
Proof.
  intros Hin H429 limited.
  assert (Hrun : fst (get_crypto_price symbol vs_currency E w) = Raise limited).
  { destruct (crypto_on_429 symbol vs_currency E w) as (new & Hreq & Hres).
    unfold new_requests in Hin. rewrite Hreq, drop_app_length in Hin.
    apply list_elem_of_In in Hin.
    assert (Hlimited : is_429 (url, Responded resp) = true).
    { unfold is_429; simpl. by apply Z.eqb_eq. }
    destruct (fst (get_crypto_price symbol vs_currency E w)) as [price | e].
    - rewrite Forall_forall in Hres. by rewrite (Hres _ Hin) in Hlimited.
    - f_equal. apply Hres. apply Exists_exists. eauto. }
  split; [exact Hrun |].
  unfold crypto_convert. glue.
  destruct (get_crypto_price symbol vs_currency E w) as [[price | e] w']; simpl in *;
    [discriminate |].
  injection Hrun as ->. reflexivity.
Qed.

End RateLimitCrypto.

(** * Failing resolutions and the shared cache *)

Lemma touches_frame P W U E w w' k :
  touches P W U E w w' ->
  ~ P k -> (forall ttl, ~ W k ttl) ->
  CACHE w' !! k = CACHE w !! k.
Proof.
  intros (_ & _ & Hcache) HP HW.
  destruct (Hcache k) as [Heq | [[Hp _] | (ttl & _ & _ & Hw & _)]]; [done | done |].
  by destruct (HW ttl).
Qed.

Lemma touches_steps P W U E w w' :
  touches P W U E w w' -> (steps w <= steps w')%nat.
Proof. by intros (Hs & _). Qed.

Section FailingCalls.
Context `{Runtime}.

Lemma via_catalog_cache coins_list symbol_upper vs E w k :
  CACHE (snd (price_via_catalog coins_list symbol_upper vs E w)) !! k = CACHE w !! k.
Proof.
  eapply (touches_frame (fun _ => False) (fun _ _ => False) (fun _ => True));
    [| by intros [] | by intros _ []].
  by apply via_catalog_touches.
Qed.

(** C9.  A call of [get_crypto_price] that ends in an error has written no
    price entry: the price key holds what it held before, or nothing if the
    call purged an expired entry.  The catalog key is another matter: once
    the fallback has fetched the catalog, the entry is in the cache with its
    24-hour expiry however the rest of the resolution ends; and there are
    failing calls that leave it behind (symbol "bar" against a catalog that
    lists foo-coin only). *)
Theorem failing_crypto_call_cache_effect :
  (forall E w symbol vs_currency e w',
     get_crypto_price symbol vs_currency E w = (Raise e, w') ->
     CACHE w' !! crypto_cache_key symbol vs_currency
       = CACHE w !! crypto_cache_key symbol vs_currency \/
     CACHE w' !! crypto_cache_key symbol vs_currency = None) /\
  (forall E w w1 w2 symbol vs_currency resp catalog,
     symbol_map_get CRYPTO_SYMBOL_MAP (upper symbol) = PNone ->
     cache_get (crypto_cache_key symbol vs_currency) E w = (Ok PNone, w1) ->
     cache_get list_cache_key E w1 = (Ok PNone, w2) ->
     net E (steps w2) coins_list_url = Responded resp ->
     is_2xx resp ->
     body resp = Some catalog ->
     CACHE (snd (get_crypto_price symbol vs_currency E w)) !! list_cache_key
       = Some {| value := catalog;
                 expires_at := clock E (S (steps w2)) + 86400 |}) /\
  (is_Raise (fst (get_crypto_price "bar" "usd" foo_env empty_world)) /\
   CACHE empty_world !! list_cache_key = None /\
   CACHE (snd (get_crypto_price "bar" "usd" foo_env empty_world)) !! list_cache_key
     = Some {| value := foo_catalog; expires_at := 1 + 86400 |}).
Proof.
  split; [| split].
  - intros E w symbol vs_currency e w' Hrun.
    pose proof (crypto_raise_post
                  (fun _ => True)
                  (fun k ttl => k = list_cache_key)
                  (fun _ => True) symbol vs_currency I I eq_refl I (fun _ => I) E w)
      as Hpost.
    rewrite Hrun in Hpost. specialize (Hpost I). simpl in Hpost.
    destruct Hpost as (_ & _ & Hcache).
    destruct (Hcache (crypto_cache_key symbol vs_currency))
      as [Heq | [[_ Hnone] | (ttl & _ & _ & Hw & _)]]; [by left | by right |].
    by apply crypto_key_not_list_key in Hw.
  - intros E w w1 w2 symbol vs_currency resp catalog Hmap Hmiss Hlist Hnet H2xx Hbody.
    unfold crypto_cache_key in Hmiss.
    unfold get_crypto_price. cbv zeta. rewrite Hmap. glue.
    rewrite Hmiss. simpl.
    unfold attempt_fallback, load_coins_list at 1. glue.
    rewrite Hlist. simpl.
    rewrite (client_get_Responded _ _ _ _ Hnet), raise_for_status_2xx by done.
    rewrite Hbody. simpl.
    match goal with
    | |- context [price_via_catalog ?c ?s ?v ?E ?w] =>
        pose proof (via_catalog_cache c s v E w list_cache_key) as Hkeep;
        destruct (price_via_catalog c s v E w) as [[price | e] w3]
    end; simpl in *.
    + destruct (Py.is_None price); simpl.
      * rewrite Hkeep. by rewrite lookup_insert_eq.
      * rewrite lookup_insert_ne by apply crypto_key_not_list_key.
        rewrite Hkeep. by rewrite lookup_insert_eq.
    + rewrite Hkeep. by rewrite lookup_insert_eq.
  - by vm_compute.
Qed.

End FailingCalls.

(** * Sessions of calls *)

Lemma cache_get_inv key E w r w' :
  cache_get key E w = (r, w') ->
  requests w' = requests w /\ (steps w <= steps w' <= S (steps w))%nat /\
  exists v, r = Ok v /\
    (v = PNone \/
     exists e, CACHE w !! key = Some e /\ value e = v /\
       clock E (steps w) <= expires_at e /\ w' = tick w).
Proof.
  intros Hrun. destruct (CACHE w !! key) as [e |] eqn:Hk.
  - destruct (Z.lt_ge_cases (expires_at e) (clock E (steps w))) as [Hlt | Hge].
    + rewrite (cache_get_expired _ _ _ _ Hk Hlt) in Hrun.
      injection Hrun as <- <-. simpl. repeat split; [lia | lia |]. eauto.
    + rewrite (cache_get_live _ _ _ _ Hk Hge) in Hrun.
      injection Hrun as <- <-. simpl. repeat split; [lia | lia |].
      exists (value e). split; [done |]. right. by exists e.
  - rewrite (cache_get_absent _ _ _ Hk) in Hrun.
    injection Hrun as <- <-. repeat split; [lia | lia |]. eauto.
Qed.

Section Sessions.
Context `{Runtime}.

Lemma fiat_hit E w base target e :
  CACHE w !! fiat_cache_key base target = Some e ->
  value e <> PNone ->
  clock E (steps w) <= expires_at e ->
  get_fiat_rate base target E w = (Ok (value e), tick w).
Proof.
  intros Hk Hv Ht. unfold fiat_cache_key in Hk.
  unfold get_fiat_rate. cbv zeta. glue.
  rewrite (cache_get_live _ _ _ _ Hk Ht). simpl.
  by destruct (value e).
Qed.

(** A successful fiat resolution either was a cache hit, or went upstream
    once and cached what it returns. *)
Lemma fiat_Ok_inv E w base target rate w' :
  get_fiat_rate base target E w = (Ok rate, w') ->
  rate <> PNone /\
  exists e,
    CACHE w' !! fiat_cache_key base target = Some e /\ value e = rate /\
    (new_requests w w' = [] \/
     exists o n,
       new_requests w w' = [(FIAT_API_BASE_URL +:+ upper base, o)] /\
       (steps w <= n < steps w')%nat /\
       expires_at e = clock E n + CACHE_TTL_SECONDS).
Proof.
  unfold fiat_cache_key, get_fiat_rate. cbv zeta. glue.
  destruct (cache_get _ E w) as [[cached | e] w1] eqn:Hget; [| done].
  apply cache_get_inv in Hget as Hinv.
  destruct Hinv as (Hreq & Hsteps & c & Hc & Hcases). injection Hc as <-.
  destruct (Py.is_None cached) eqn:Hnone; simpl.
  - destruct cached; try done. clear Hnone Hcases.
    unfold client_get.
    destruct (net E (steps w1) _) as [resp | msg] eqn:Hnet; simpl; [| done].
    unfold raise_for_status.
    destruct (Z.leb 200 (status_code resp) && Z.leb (status_code resp) 299);
      simpl; [| done].
    destruct (body resp) as [data |]; simpl; [| done].
    destruct (Py.get data "result") as [result_field |]; simpl; [| done].
    destruct (Py.ne_str result_field "success"); simpl.
    { by destruct (Py.get data "error"). }
    destruct (Py.get data "rates") as [rates |]; simpl; [| done].
    destruct (negb (Py.truthy rates)); simpl; [done |].
    destruct (Py.get rates (upper target)) as [found |]; simpl; [| done].
    destruct (Py.is_None found) eqn:Hfound; simpl; [done |].
    intros Hrun. injection Hrun as <- <-.
    split; [by destruct found |]. simpl.
    eexists. split; [by rewrite lookup_insert_eq |]. split; [done |]. right.
    eexists _, (S (steps w1)). simpl. split; [| split; [lia | done]].
    unfold new_requests. simpl. by rewrite <- Hreq, drop_app_length.
  - intros Hrun. injection Hrun as <- <-.
    destruct Hcases as [-> | (e & Hk & He & _ & ->)]; [done |].
    split; [by destruct cached |].
    exists e. split; [done |]. split; [done |]. left.
    unfold new_requests, tick. simpl. by rewrite drop_all.
Qed.

Lemma run_call_steps c E w : (steps w <= steps (snd (run_call c E w)))%nat.
Proof.
  eapply (touches_steps (fun _ => True) (fun _ _ => True) (fun _ => True)).
  destruct c; simpl; [by apply fiat_touches | by apply crypto_touches].
Qed.

Lemma run_calls_steps cs E w : (steps w <= steps (run_calls cs E w))%nat.
Proof.
  revert w. induction cs as [| c cs IH]; intros w; simpl; [lia |].
  etrans; [apply (run_call_steps c E w) | apply IH].
Qed.

(** A live fiat entry survives any call made before it expires. *)
Lemma run_call_keeps_fiat_entry c E w base target e :
  CACHE w !! fiat_cache_key base target = Some e ->
  value e <> PNone ->
  clock E (steps w) <= expires_at e ->
  CACHE (snd (run_call c E w)) !! fiat_cache_key base target = Some e.
Proof.
  intros Hk Hv Ht. destruct c as [base' target' | symbol vs_currency]; simpl.
  - destruct (decide (fiat_cache_key base' target' = fiat_cache_key base target))
      as [Heq | Hne].
    + rewrite <- Heq in Hk. by rewrite (fiat_hit _ _ _ _ _ Hk Hv Ht), Heq in *.
    + rewrite <- Hk.
      eapply (touches_frame (fun k => k = fiat_cache_key base' target')
                (fun k _ => k = fiat_cache_key base' target') (fun _ => True));
        [by apply fiat_touches | congruence | intros _; congruence].
  - rewrite <- Hk.
    eapply (touches_frame
              (fun k => k = crypto_cache_key symbol vs_currency \/ k = list_cache_key)
              (fun k _ => k = crypto_cache_key symbol vs_currency \/ k = list_cache_key)
              (fun _ => True)).
    + apply crypto_touches; auto.
    + intros [Heq | Heq];
        [by apply fiat_key_not_crypto_key in Heq | by apply fiat_key_not_list_key in Heq].
    + intros _ [Heq | Heq];
        [by apply fiat_key_not_crypto_key in Heq | by apply fiat_key_not_list_key in Heq].
Qed.

Lemma run_calls_keep_fiat_entry cs E w base target e :
  monotonic E ->
  CACHE w !! fiat_cache_key base target = Some e ->
  value e <> PNone ->
  clock E (steps (run_calls cs E w)) <= expires_at e ->
  CACHE (run_calls cs E w) !! fiat_cache_key base target = Some e.
Proof.
  intros Hmono. revert w. induction cs as [| c cs IH]; intros w Hk Hv Ht; simpl in *;
    [done |].
  apply IH; [| done | done].
  apply run_call_keeps_fiat_entry; [done | done |].
  etrans; [| exact Ht]. apply Hmono.
  etrans; [apply (run_call_steps c E w) | apply run_calls_steps].
Qed.

End Sessions.

(** * Resolving the same fiat pair again *)

Section FiatAgain.
Context `{Runtime}.

Lemma fiat_cache_key_upper base target base' target' :
  upper base' = upper base -> upper target' = upper target ->
  fiat_cache_key base' target' = fiat_cache_key base target.
Proof. intros Hb Ht. unfold fiat_cache_key. by rewrite Hb, Ht. Qed.

(** C7.  After a successful [get_fiat_rate base target] the rate is in the
    cache under the pair's key.  If the call went upstream it sent exactly
    one request, and the entry expires [CACHE_TTL_SECONDS] after the clock
    reading [t0] at which the rate was cached.  Whatever calls are made in
    between on a monotonic clock, every later call for the same pair, in any
    letter case, at a clock reading [t] not past the expiry (so every
    [t < t0 + CACHE_TTL_SECONDS]) returns the same rate and sends no request:
    one upstream call for the two resolutions. *)
Theorem fiat_second_call_is_a_cache_hit (E : env) (w w1 : world)
    (base target : string) (rate : pyval) :
  monotonic E ->
  get_fiat_rate base target E w = (Ok rate, w1) ->
  exists e : entry,
    CACHE w1 !! fiat_cache_key base target = Some e /\
    value e = rate /\
    (new_requests w w1 = [] \/
     exists (o : outcome) (n : nat),
       new_requests w w1 = [(FIAT_API_BASE_URL +:+ upper base, o)] /\
       (steps w <= n < steps w1)%nat /\
       expires_at e = clock E n + CACHE_TTL_SECONDS) /\
    forall (between : list call) (base' target' : string),
      upper base' = upper base ->
      upper target' = upper target ->
      let w2 := run_calls between E w1 in
      clock E (steps w2) <= expires_at e ->
      get_fiat_rate base' target' E w2 = (Ok rate, tick w2) /\
      new_requests w2 (snd (get_fiat_rate base' target' E w2)) = [].
Proof.
  intros Hmono Hrun.
  apply fiat_Ok_inv in Hrun as (Hrate & e & Hk & Hv & Hnew).
  exists e. split; [done |]. split; [done |]. split; [done |].
  intros between base' target' Hb Ht w2 Htime.
  assert (Hk2 : CACHE w2 !! fiat_cache_key base target = Some e).
  { apply run_calls_keep_fiat_entry; [done | done | by rewrite Hv | done]. }
  rewrite <- (fiat_cache_key_upper base target base' target' Hb Ht) in Hk2.
  assert (Hv' : value e <> PNone) by (by rewrite Hv).
  rewrite (fiat_hit _ _ _ _ _ Hk2 Hv' Htime), Hv. split; [done |].
  unfold new_requests, tick. simpl. by rewrite drop_all.
Qed.

End FiatAgain.

(** * The cached catalog *)

Lemma catalog_fetches_app l1 l2 :
  catalog_fetches (l1 ++ l2) = (catalog_fetches l1 + catalog_fetches l2)%nat.
Proof.
  induction l1 as [| [url o] l1 IH]; simpl; [done |]. rewrite IH. lia.
Qed.


Lemma new_requests_eq w w' new :
  requests w' = (requests w ++ new)%list -> new_requests w w' = new.
Proof. intros Hreq. unfold new_requests. by rewrite Hreq, drop_app_length. Qed.

Section CatalogKept.

Variable e : entry.
Hypothesis e_not_None : value e <> PNone.





End CatalogKept.


Section CatalogSessions.
Context `{Runtime}.
Variable e : entry.
Hypothesis e_not_None : value e <> PNone.




End CatalogSessions.

(** * Resolution through the catalog *)

Section Fallback.
Context `{Runtime}.



End Fallback.

(** * Conversion math *)

(** [nearest_even n d] is within half a unit of [n / d]. *)
Lemma nearest_even_close n d :
  0 < d -> Z.abs (2 * n - 2 * d * PyFloat.nearest_even n d) <= d.
Proof.
  intros Hd. unfold PyFloat.nearest_even.
  pose proof (Z.div_mod n d ltac:(lia)) as Hdiv.
  pose proof (Z.mod_pos_bound n d Hd) as Hmod.
  destruct (Z.compare_spec (2 * (n mod d)) d) as [Heq | Hlt | Hgt].
  - destruct (Z.even (n / d)); nia.
  - nia.
  - nia.
Qed.

Lemma nearest_even_nonneg n d : 0 <= n -> 0 < d -> 0 <= PyFloat.nearest_even n d.
Proof.
  intros Hn Hd. unfold PyFloat.nearest_even.
  pose proof (Z.div_pos n d Hn Hd) as Hq.
  destruct (Z.compare (2 * (n mod d)) d); [destruct (Z.even (n / d)) | |]; lia.
Qed.

(** ** Rounding to binary64

    [binary_round_aux], through which the product, [float(int)] and the
    conversion of a decimal all go, rounds to nearest, ties to even. *)

Section FloatRounding.
Import PyFloat.

Lemma digits2_pos_bounds p :
  2 ^ (Zpos (digits2_pos p) - 1) <= Zpos p < 2 ^ Zpos (digits2_pos p).
Proof.
  induction p as [p IH | p IH |]; simpl digits2_pos.
  - rewrite Pos2Z.inj_succ.
    replace (Z.succ (Zpos (digits2_pos p)) - 1) with (Z.succ (Zpos (digits2_pos p) - 1)) by lia.
    rewrite !Z.pow_succ_r by lia. lia.
  - rewrite Pos2Z.inj_succ.
    replace (Z.succ (Zpos (digits2_pos p)) - 1) with (Z.succ (Zpos (digits2_pos p) - 1)) by lia.
    rewrite !Z.pow_succ_r by lia. lia.
  - simpl. lia.
Qed.

Lemma Zdigits2_bounds m :
  0 < m -> 2 ^ (Zdigits2 m - 1) <= m < 2 ^ Zdigits2 m.
Proof. destruct m as [| p | p]; [lia | intros _; apply digits2_pos_bounds | lia]. Qed.

Lemma Zdigits2_unique m k :
  0 < m -> 2 ^ (k - 1) <= m < 2 ^ k -> Zdigits2 m = k.
Proof.
  intros Hm [Hlo Hhi]. pose proof (Zdigits2_bounds m Hm) as [Hlo' Hhi'].
  assert (Hd : 0 < Zdigits2 m) by (destruct m; simpl; lia).
  assert (Hk : 0 < k).
  { destruct (Z.lt_ge_cases 0 k) as [| Hle]; [done |].
    assert (2 ^ k <= 2 ^ 0) by (apply Z.pow_le_mono_r; lia). simpl in *. lia. }
  destruct (Z.lt_trichotomy (Zdigits2 m) k) as [Hlt | [Heq | Hgt]]; [| done |].
  - assert (2 ^ Zdigits2 m <= 2 ^ (k - 1)) by (apply Z.pow_le_mono_r; lia). lia.
  - assert (2 ^ k <= 2 ^ (Zdigits2 m - 1)) by (apply Z.pow_le_mono_r; lia). lia.
Qed.

Lemma Zdigits2_nonneg m : 0 <= Zdigits2 m.
Proof. destruct m; simpl; lia. Qed.

Lemma loc_of_shr_record_of_loc m l :
  loc_of_shr_record (shr_record_of_loc m l) = l /\ shr_m (shr_record_of_loc m l) = m.
Proof. destruct l as [| []]; done. Qed.

Lemma shr_1_located N D mrs :
  located N D (shr_m mrs) (loc_of_shr_record mrs) ->
  located N (2 * D) (shr_m (shr_1 mrs)) (loc_of_shr_record (shr_1 mrs)).
Proof.
  destruct mrs as [m r s]. intros (Hm & rho & HN & Hrho & Hloc).
  cbn [shr_m] in Hm, HN.
  assert (Hcases : exists q b : Z, m = 2 * q + b /\ 0 <= q /\ (b = 0 \/ b = 1) /\
            shr_1 {| shr_m := m; shr_r := r; shr_s := s |} =
            {| shr_m := q; shr_r := Z.eqb b 1; shr_s := r || s |}).
  { destruct m as [| [p | p |] | p]; [| | | | lia].
    - exists 0, 0. repeat split; first [lia | reflexivity].
    - exists (Zpos p), 1. repeat split; first [lia | reflexivity].
    - exists (Zpos p), 0. repeat split; first [lia | reflexivity].
    - exists 0, 1. repeat split; first [lia | reflexivity]. }
  destruct Hcases as (q & b & -> & Hq & Hb & ->). cbn [shr_m].
  split; [done |]. exists (b * D + rho).
  split; [lia |]. split; [nia |].
  destruct Hb as [-> | ->]; destruct r, s; cbn in Hloc |- *;
    lazymatch type of Hloc with
    | _ /\ _ => destruct Hloc as [Hpos Hcmp]
    | _ => idtac
    end;
    try lia; (split; [lia |]);
    first [apply Z.compare_lt_iff; lia | apply Z.compare_gt_iff; lia
          | apply Z.compare_eq_iff; lia].
Qed.

Lemma iter_pos_shr_1_located n : forall N D mrs,
  located N D (shr_m mrs) (loc_of_shr_record mrs) ->
  located N (D * 2 ^ Zpos n) (shr_m (SpecFloat.iter_pos shr_1 n mrs))
    (loc_of_shr_record (SpecFloat.iter_pos shr_1 n mrs)).
Proof.
  induction n as [n IH | n IH |]; intros N D mrs Hloc; cbn [SpecFloat.iter_pos].
  - apply shr_1_located, IH, IH in Hloc.
    replace (D * 2 ^ Zpos n~1) with (2 * D * 2 ^ Zpos n * 2 ^ Zpos n); [done |].
    replace (Zpos n~1) with (Zpos n + Zpos n + 1) by lia.
    rewrite !Z.pow_add_r, Z.pow_1_r by lia. lia.
  - apply IH, IH in Hloc.
    replace (D * 2 ^ Zpos n~0) with (D * 2 ^ Zpos n * 2 ^ Zpos n); [done |].
    replace (Zpos n~0) with (Zpos n + Zpos n) by lia.
    rewrite !Z.pow_add_r by lia. lia.
  - apply shr_1_located in Hloc. by rewrite Z.mul_comm.
Qed.

Lemma fexp_eq x : fexp prec emax x = Z.max (x - 53) (-1074).
Proof. reflexivity. Qed.

Lemma located_div N D m l : located N D m l -> 0 < D /\ 0 <= N /\ m = N / D.
Proof.
  intros (Hm & rho & HN & Hrho & _). split; [lia |]. split; [nia |].
  apply (Z.div_unique_pos N D m rho); lia.
Qed.

Lemma shr_fexp_located N D m e l :
  located N D m l ->
  e <= fexp prec emax (Zdigits2 m + e) ->
  exists mrs,
    shr_fexp prec emax m e l = (mrs, fexp prec emax (Zdigits2 m + e)) /\
    located N (D * 2 ^ (fexp prec emax (Zdigits2 m + e) - e))
      (shr_m mrs) (loc_of_shr_record mrs).
Proof.
  intros Hloc He. unfold shr_fexp, shr.
  destruct (loc_of_shr_record_of_loc m l) as [Hl Hm].
  destruct (fexp prec emax (Zdigits2 m + e) - e) as [| n | n] eqn:Hn; [| | lia].
  - eexists. split; [f_equal; lia |]. rewrite Hl, Hm, Z.mul_1_r. done.
  - eexists. split; [f_equal; lia |].
    apply iter_pos_shr_1_located. by rewrite Hl, Hm.
Qed.

Lemma round_nearest_even_located N D m l :
  located N D m l -> round_nearest_even m l = nearest_even N D.
Proof.
  intros (Hm & rho & HN & Hrho & Hloc). unfold nearest_even.
  assert (Hq : N / D = m) by (symmetry; apply (Z.div_unique_pos N D m rho); lia).
  assert (Hr : N mod D = rho) by (symmetry; apply (Z.mod_unique_pos N D m rho); lia).
  rewrite Hq, Hr. destruct l as [| c]; simpl.
  - subst rho. by destruct (Z.compare_spec (2 * 0) D); try lia.
  - destruct Hloc as [_ ->]. by destruct c.
Qed.

Lemma nearest_even_floor n d :
  0 < d -> nearest_even n d = n / d \/ nearest_even n d = n / d + 1.
Proof.
  intros _. unfold nearest_even.
  destruct (Z.compare (2 * (n mod d)) d); [destruct (Z.even (n / d)) | |]; auto.
Qed.

Lemma binary_round_aux_located s mx ex lx N D :
  located N D mx lx ->
  ex <= fexp prec emax (Zdigits2 mx + ex) ->
  let e1 := fexp prec emax (Zdigits2 mx + ex) in
  let D1 := D * 2 ^ (e1 - ex) in
  let m1 := nearest_even N D1 in
  binary_round_aux prec emax s mx ex lx = pack s m1 e1 /\
  0 < D1 /\ 0 <= N /\ -1074 <= e1 /\ 0 <= m1 <= 2 ^ 53 /\
  (-1074 < e1 -> 2 ^ 52 * D1 <= N).
Proof.
  intros Hloc He e1 D1 m1.
  destruct (shr_fexp_located N D mx ex lx Hloc He) as (mrs & Hshr & Hloc1).
  fold e1 in Hshr, Hloc1. fold D1 in Hloc1.
  pose proof (round_nearest_even_located _ _ _ _ Hloc1) as Hround. fold m1 in Hround.
  destruct (located_div _ _ _ _ Hloc) as (HD & HN & Hmx).
  destruct (located_div _ _ _ _ Hloc1) as (HD1 & _ & Hm').
  assert (Hn : 0 <= e1 - ex) by (unfold e1; lia).
  assert (Hpow : 0 < 2 ^ (e1 - ex)) by (apply Z.pow_pos_nonneg; lia).
  assert (Hm'' : shr_m mrs = mx / 2 ^ (e1 - ex)).
  { rewrite Hm', Hmx. unfold D1. by rewrite Z.div_div by lia. }
  assert (Hmx0 : 0 <= mx) by (destruct Hloc; done).
  assert (He1 : -1074 <= e1) by (unfold e1; rewrite fexp_eq; lia).
  assert (Hfloor : m1 = shr_m mrs \/ m1 = shr_m mrs + 1).
  { rewrite Hm'. by apply nearest_even_floor. }
  assert (Hbounds : 0 <= shr_m mrs /\
            (-1074 < e1 -> 2 ^ 52 <= shr_m mrs < 2 ^ 53) /\
            (e1 = -1074 -> shr_m mrs < 2 ^ 53)).
  { split; [rewrite Hm''; apply Z.div_pos; lia |].
    destruct (Z.eq_dec mx 0) as [-> | Hnz].
    { rewrite Hm'', Z.div_0_l by lia.
      split; [| lia]. intros Hnorm. exfalso.
      unfold e1 in Hnorm. rewrite fexp_eq in He, Hnorm. simpl Zdigits2 in *. lia. }
    pose proof (Zdigits2_bounds mx ltac:(lia)) as [Hlo Hhi].
    pose proof (Zdigits2_nonneg mx) as Hd.
    assert (Hdpos : 0 < Zdigits2 mx) by (destruct mx; simpl; lia).
    split.
    - intros Hnorm.
      assert (Hn' : e1 - ex = Zdigits2 mx - 53) by (unfold e1 in *; rewrite fexp_eq in *; lia).
      rewrite Hm'', Hn'. rewrite Hn' in Hn.
      split.
      + apply Z.div_le_lower_bound; [apply Z.pow_pos_nonneg; lia |].
        rewrite <- Z.pow_add_r by lia.
        replace (Zdigits2 mx - 53 + 52) with (Zdigits2 mx - 1) by lia. done.
      + apply Z.div_lt_upper_bound; [apply Z.pow_pos_nonneg; lia |].
        rewrite <- Z.pow_add_r by lia.
        replace (Zdigits2 mx - 53 + 53) with (Zdigits2 mx) by lia. done.
    - intros Hsub.
      assert (Hn' : Zdigits2 mx - 53 <= e1 - ex) by (unfold e1 in *; rewrite fexp_eq in *; lia).
      rewrite Hm''.
      apply Z.div_lt_upper_bound; [done |].
      rewrite <- Z.pow_add_r by lia.
      eapply Z.lt_le_trans; [exact Hhi |]. apply Z.pow_le_mono_r; lia. }
  destruct Hbounds as (Hm0 & Hnormal & Hsubnormal).
  assert (Hm1 : 0 <= m1 <= 2 ^ 53).
  { destruct (Z.eq_dec e1 (-1074)) as [Heq | Hne].
    - specialize (Hsubnormal Heq). lia.
    - specialize (Hnormal ltac:(lia)). lia. }
  split; [| split; [done |]; split; [done |]; split; [done |]; split; [done |]].
  2: { intros Hnorm. specialize (Hnormal Hnorm).
       rewrite Hm' in Hnormal.
       pose proof (Z.mul_div_le N D1 HD1). nia. }
  (* the computation *)
  unfold binary_round_aux. rewrite Hshr, Hround.
  assert (Hsecond : shr_fexp prec emax m1 e1 loc_Exact =
            if Z.eqb m1 (2 ^ 53)
            then ({| shr_m := 2 ^ 52; shr_r := false; shr_s := false |}, e1 + 1)
            else ({| shr_m := m1; shr_r := false; shr_s := false |}, e1)).
  { unfold shr_fexp, shr. cbn [shr_record_of_loc].
    destruct (Z.eqb_spec m1 (2 ^ 53)) as [Heq | Hne].
    - rewrite Heq.
      replace (fexp prec emax (Zdigits2 (2 ^ 53) + e1) - e1) with 1
        by (rewrite fexp_eq; change (Zdigits2 (2 ^ 53)) with 54; lia).
      reflexivity.
    - replace (fexp prec emax (Zdigits2 m1 + e1) - e1) with 0; [done |].
      rewrite fexp_eq.
      destruct (Z.eq_dec m1 0) as [-> | Hnz].
      { simpl Zdigits2. destruct (Z.eq_dec e1 (-1074)); [lia |].
        specialize (Hnormal ltac:(lia)). lia. }
      pose proof (Zdigits2_bounds m1 ltac:(lia)) as [Hlo Hhi].
      assert (Hdpos : 0 < Zdigits2 m1) by (destruct m1; simpl; lia).
      assert (Hd53 : Zdigits2 m1 <= 53).
      { destruct (Z.le_gt_cases (Zdigits2 m1) 53) as [| Hgt]; [done |].
        assert (2 ^ 53 <= 2 ^ (Zdigits2 m1 - 1)) by (apply Z.pow_le_mono_r; lia). lia. }
      destruct (Z.eq_dec e1 (-1074)) as [Heq | Hne1]; [lia |].
      specialize (Hnormal ltac:(lia)).
      assert (Zdigits2 m1 = 53) by (apply Zdigits2_unique; lia). lia. }
  rewrite Hsecond. unfold pack.
  destruct (Z.eqb_spec m1 0) as [Hz | Hnz].
  - rewrite Hz. reflexivity.
  - destruct (Z.eqb_spec m1 (2 ^ 53)) as [Heq | Hne]; cbn [shr_m].
    + reflexivity.
    + destruct m1 as [| p | p]; [done | | lia]. reflexivity.
Qed.

(** Powers of two *)

Lemma pow2_pos e : (0 < 2 ^ e)%Q.
Proof. apply Qpower_0_lt. reflexivity. Qed.

Lemma pow2_add a b : (2 ^ (a + b) == 2 ^ a * 2 ^ b)%Q.
Proof. apply Qpower_plus. discriminate. Qed.

Lemma pow2_inject z : 0 <= z -> (2 ^ z == inject_Z (2 ^ z))%Q.
Proof. intros Hz. by rewrite Zpower_Qpower. Qed.

Lemma pow2_le a b : a <= b -> (2 ^ a <= 2 ^ b)%Q.
Proof. intros Hab. apply Qpower_le_compat_l; [done | discriminate]. Qed.

Lemma pow2_split a b : (2 ^ a == 2 ^ (a - b) * 2 ^ b)%Q.
Proof. rewrite <- pow2_add. by replace (a - b + b) with a by lia. Qed.

(** Nearest integers *)

Lemma nearest_even_tie n d :
  0 < d -> Z.abs (2 * n - 2 * d * nearest_even n d) = d ->
  Z.even (nearest_even n d) = true.
Proof.
  intros Hd. unfold nearest_even.
  pose proof (Z.div_mod n d ltac:(lia)) as Hdiv.
  pose proof (Z.mod_pos_bound n d Hd) as Hmod.
  destruct (Z.compare_spec (2 * (n mod d)) d) as [Heq | Hlt | Hgt].
  - destruct (Z.even (n / d)) eqn:Heven; [done |]. intros _.
    rewrite Z.even_add, Heven. done.
  - nia.
  - nia.
Qed.

Lemma Qabs_le_iff x y : (Qabs x <= y <-> - y <= x <= y)%Q.
Proof. apply Qabs_Qle_condition. Qed.

Lemma inject_Z_lt a b : a < b -> (inject_Z a < inject_Z b)%Q.
Proof. by rewrite <- Zlt_Qlt. Qed.

Lemma inject_Z_le a b : a <= b -> (inject_Z a <= inject_Z b)%Q.
Proof. by rewrite <- Zle_Qle. Qed.

Lemma inject_Z_sub a b : (inject_Z (a - b) == inject_Z a - inject_Z b)%Q.
Proof. unfold Z.sub. rewrite inject_Z_plus, inject_Z_opp. ring. Qed.

Lemma half_bound (dq x : Q) :
  (0 < dq -> - dq <= 2 * dq * x -> 2 * dq * x <= dq ->
   - (1 # 2) <= x /\ x <= 1 # 2)%Q.
Proof. intros Hd Hlo Hhi. split; nra. Qed.

Lemma half_exact (dq x z : Q) :
  (0 < dq -> z == 2 * dq * x -> x == 1 # 2 -> z == dq)%Q.
Proof. intros Hd Hz Hx. rewrite Hz, Hx. ring. Qed.

Lemma half_exact_neg (dq x z : Q) :
  (0 < dq -> z == 2 * dq * x -> - x == 1 # 2 -> z == - dq)%Q.
Proof.
  intros Hd Hz Hx. rewrite Hz. assert (Hx' : (x == - (1 # 2))%Q) by lra.
  rewrite Hx'. ring.
Qed.

Lemma nearest_even_Q n d :
  0 < d ->
  (Qabs (inject_Z n / inject_Z d - inject_Z (nearest_even n d)) <= 1 # 2)%Q /\
  ((Qabs (inject_Z n / inject_Z d - inject_Z (nearest_even n d)) == 1 # 2)%Q ->
   Z.even (nearest_even n d) = true).
Proof.
  intros Hd.
  pose proof (nearest_even_close n d Hd) as Hclose.
  pose proof (nearest_even_tie n d Hd) as Htie.
  set (k := nearest_even n d) in *.
  pose proof (inject_Z_lt 0 d Hd) as HdQ. change (inject_Z 0) with 0%Q in HdQ.
  set (t := (inject_Z n / inject_Z d)%Q).
  assert (Ht : (t * inject_Z d == inject_Z n)%Q).
  { unfold t. field. lra. }
  clearbody t k.
  assert (Hdiff : (inject_Z (2 * n - 2 * d * k) == 2 * inject_Z d * (t - inject_Z k))%Q).
  { rewrite inject_Z_sub, !inject_Z_mult. rewrite <- Ht. change (inject_Z 2) with 2%Q. ring. }
  split.
  - apply Qabs_le_iff.
    apply Z.abs_le in Hclose. destruct Hclose as [Hlo Hhi].
    apply inject_Z_le in Hlo, Hhi. rewrite Hdiff in Hlo, Hhi.
    rewrite inject_Z_opp in Hlo. by apply (half_bound (inject_Z d)).
  - intros Heq. apply Htie.
    destruct (Qlt_le_dec (t - inject_Z k) 0) as [Hneg | Hpos].
    + rewrite Qabs_neg in Heq by lra.
      assert (Hval : (inject_Z (2 * n - 2 * d * k) == inject_Z (- d))%Q).
      { rewrite inject_Z_opp. by apply (half_exact_neg _ (t - inject_Z k)). }
      apply (proj1 (inject_Z_injective _ _)) in Hval. rewrite Hval. lia.
    + rewrite Qabs_pos in Heq by lra.
      assert (Hval : (inject_Z (2 * n - 2 * d * k) == inject_Z d)%Q).
      { by apply (half_exact _ (t - inject_Z k)). }
      apply (proj1 (inject_Z_injective _ _)) in Hval. rewrite Hval. lia.
Qed.

Lemma Qabs_cases a : ((0 <= a /\ Qabs a == a) \/ (a <= 0 /\ Qabs a == - a))%Q.
Proof.
  destruct (Qlt_le_dec a 0) as [Hneg | Hpos].
  - right. split; [lra |]. apply Qabs_neg. lra.
  - left. split; [done |]. by apply Qabs_pos.
Qed.

(** Eliminate the absolute values of the goal and the context. *)
Ltac qabs :=
  repeat match goal with
  | |- context [Qabs ?a] =>
      let H := fresh "Habs" in
      destruct (Qabs_cases a) as [[? H] | [? H]];
      generalize dependent (Qabs a); intros
  | H0 : context [Qabs ?a] |- _ =>
      let H := fresh "Habs" in
      destruct (Qabs_cases a) as [[? H] | [? H]];
      generalize dependent (Qabs a); intros
  end.

Lemma near_grid (t m g : Q) :
  (Qabs (t - m) <= 1 # 2 -> (g <= m - 1 \/ g == m \/ m + 1 <= g) ->
   Qabs (m - t) <= Qabs (g - t) /\
   (Qabs (m - t) == Qabs (g - t) -> g == m \/ Qabs (t - m) == 1 # 2))%Q.
Proof.
  intros Hnear Hg. qabs; (split; [lra |]); intros Heq;
    destruct Hg as [Hg | [Hg | Hg]]; try (left; lra); right; lra.
Qed.

Lemma near_fine (t m y c : Q) :
  (Qabs (t - m) <= 1 # 2 -> c <= t -> (m == c \/ c + 1 <= m) ->
   Qabs y <= c - (1 # 2) ->
   Qabs (m - t) < Qabs (y - t))%Q.
Proof.
  intros Hnear Ht Hm Hy. qabs; destruct Hm as [Hm | Hm]; lra.
Qed.

Lemma bounded_inv m e :
  bounded prec emax m e = true -> Zpos m < 2 ^ 53 /\ -1074 <= e <= 971.
Proof.
  unfold bounded, canonical_mantissa. intros Hb.
  apply andb_true_iff in Hb as [Hc He].
  apply Z.eqb_eq in Hc. apply Z.leb_le in He. rewrite fexp_eq in Hc.
  change (emax - prec) with 971 in He.
  pose proof (digits2_pos_bounds m) as [_ Hhi].
  split; [| lia].
  eapply Z.lt_le_trans; [exact Hhi |]. apply Z.pow_le_mono_r; lia.
Qed.

Lemma inject_cond_Zopp s m : (inject_Z (cond_Zopp s m) == signum s * inject_Z m)%Q.
Proof. destruct s; simpl; [rewrite inject_Z_opp |]; ring. Qed.

Lemma signum_sq s : (signum s * signum s == 1)%Q.
Proof. by destruct s. Qed.

Lemma Qabs_signum s a : (Qabs (signum s * a) == Qabs a)%Q.
Proof.
  rewrite Qabs_Qmult.
  assert (Hs : (Qabs (signum s) == 1)%Q) by (by destruct s).
  rewrite Hs. ring.
Qed.

(** Against the grid of exponent [e1], a representable number is a multiple
    of the grid step or lies below the binade of the grid. *)
Lemma representable_cases y e1 :
  representable y -> -1074 <= e1 ->
  (exists g : Z, float_value y == inject_Z g * 2 ^ e1)%Q \/
  (-1074 < e1 /\
   exists y' : Q, (float_value y == y' * 2 ^ e1 /\ Qabs y' <= inject_Z (2 ^ 52) - (1 # 2))%Q).
Proof.
  intros [Hfin Hvalid] He1.
  destruct y as [s | s | | s m e]; try done.
  { left. exists 0. simpl. ring. }
  simpl in Hvalid. apply bounded_inv in Hvalid as [Hm He].
  destruct (Z.le_gt_cases e1 e) as [Hle | Hgt].
  - left. exists (cond_Zopp s (Zpos m) * 2 ^ (e - e1)). simpl float_value.
    rewrite inject_Z_mult, <- (pow2_inject (e - e1)) by lia.
    rewrite (pow2_split e e1). ring.
  - right. split; [lia |].
    exists (inject_Z (cond_Zopp s (Zpos m)) * 2 ^ (e - e1))%Q. split.
    + simpl float_value. rewrite (pow2_split e e1). ring.
    + rewrite inject_cond_Zopp, <- Qmult_assoc, Qabs_signum.
      pose proof (pow2_pos (e - e1)) as Hpos.
      pose proof (pow2_le (e - e1) (-1) ltac:(lia)) as Hhalf.
      change (2 ^ (-1))%Q with (1 # 2)%Q in Hhalf.
      assert (Hmq : (inject_Z (Zpos m) <= inject_Z (2 ^ 53) - 1)%Q).
      { change 1%Q with (inject_Z 1). rewrite <- inject_Z_sub. apply inject_Z_le. lia. }
      assert (Hm0 : (0 <= inject_Z (Zpos m))%Q) by (apply (inject_Z_le 0); lia).
      rewrite Qabs_pos by (apply Qmult_le_0_compat; lra).
      assert (H53 : (inject_Z (2 ^ 53) == 2 * inject_Z (2 ^ 52))%Q) by reflexivity.
      generalize dependent (inject_Z (2 ^ 53)). generalize dependent (inject_Z (2 ^ 52)).
      generalize dependent (inject_Z (Zpos m)). generalize dependent (2 ^ (e - e1))%Q.
      intros. nra.
Qed.

Lemma pack_valid s m1 e1 :
  -1074 <= e1 -> 0 <= m1 <= 2 ^ 53 -> (-1074 < e1 -> 2 ^ 52 <= m1) ->
  valid_binary prec emax (pack s m1 e1) = true.
Proof.
  intros He1 Hm1 Hnorm. unfold pack.
  destruct (Z.eqb_spec m1 0) as [Hz | Hnz]; [done |].
  destruct (Z.eqb_spec m1 (2 ^ 53)) as [Heq | Hne].
  - destruct (Z.leb_spec (e1 + 1) 971) as [Hle | Hgt]; [| done].
    simpl. unfold bounded, canonical_mantissa. apply andb_true_iff. split.
    + apply Z.eqb_eq. rewrite fexp_eq. change (Zpos (digits2_pos (2 ^ 52))) with 53. lia.
    + apply Z.leb_le. change (emax - prec) with 971. lia.
  - destruct (Z.leb_spec e1 971) as [Hle | Hgt]; [| done].
    simpl. unfold bounded, canonical_mantissa. apply andb_true_iff. split.
    + apply Z.eqb_eq. rewrite fexp_eq.
      assert (Hpos : 0 < m1) by lia.
      pose proof (Zdigits2_bounds m1 Hpos) as [Hlo Hhi].
      assert (Hd : Zpos (digits2_pos (Z.to_pos m1)) = Zdigits2 m1)
        by (destruct m1; try lia; reflexivity).
      rewrite Hd.
      assert (Hdpos : 0 < Zdigits2 m1) by (destruct m1; simpl; lia).
      assert (Hd53 : Zdigits2 m1 <= 53).
      { destruct (Z.le_gt_cases (Zdigits2 m1) 53) as [| Hgt]; [done |].
        assert (2 ^ 53 <= 2 ^ (Zdigits2 m1 - 1)) by (apply Z.pow_le_mono_r; lia). lia. }
      destruct (Z.eq_dec e1 (-1074)) as [Hsub | Hn]; [lia |].
      specialize (Hnorm ltac:(lia)).
      assert (Zdigits2 m1 = 53) by (apply Zdigits2_unique; lia). lia.
    + apply Z.leb_le. change (emax - prec) with 971. lia.
Qed.

Lemma pack_sign s m1 e1 : sign_bit (pack s m1 e1) = s.
Proof.
  unfold pack. destruct (Z.eqb m1 0); [done |].
  destruct (Z.eqb m1 (2 ^ 53)); [destruct (Z.leb (e1 + 1) 971) | destruct (Z.leb e1 971)];
    done.
Qed.

Lemma pack_value s m1 e1 :
  0 <= m1 -> is_finite (pack s m1 e1) = true ->
  (float_value (pack s m1 e1) == signum s * inject_Z m1 * 2 ^ e1)%Q.
Proof.
  intros Hm1. unfold pack.
  destruct (Z.eqb_spec m1 0) as [-> | Hnz]; [intros _; simpl; ring |].
  destruct (Z.eqb_spec m1 (2 ^ 53)) as [-> | Hne].
  - destruct (Z.leb (e1 + 1) 971); [intros _ | done].
    simpl float_value. rewrite inject_cond_Zopp, (Z.add_comm e1 1), pow2_add.
    change (2 ^ 1)%Q with 2%Q.
    assert (H53 : (inject_Z (2 ^ 53) == 2 * inject_Z (2 ^ 52))%Q) by reflexivity.
    rewrite H53. change (Zpos (2 ^ 52)) with (2 ^ 52). ring.
  - destruct (Z.leb e1 971); [intros _ | done].
    simpl float_value. rewrite inject_cond_Zopp, Z2Pos.id by lia. ring.
Qed.

Lemma pack_even s m1 e1 :
  0 <= m1 -> Z.even m1 = true -> even_mantissa (pack s m1 e1) = true.
Proof.
  intros Hm1 Heven. unfold pack.
  destruct (Z.eqb_spec m1 0) as [-> | Hnz]; [done |].
  destruct (Z.eqb_spec m1 (2 ^ 53)) as [-> | Hne].
  - by destruct (Z.leb (e1 + 1) 971).
  - destruct (Z.leb e1 971); [| done]. unfold even_mantissa. by rewrite Z2Pos.id by lia.
Qed.

Lemma pack_finite_cases s m1 e1 :
  0 <= m1 <= 2 ^ 53 -> is_finite (pack s m1 e1) = true ->
  m1 = 0 \/ (m1 = 2 ^ 53 /\ e1 <= 970) \/ (0 < m1 < 2 ^ 53 /\ e1 <= 971).
Proof.
  intros Hm1. unfold pack.
  destruct (Z.eqb_spec m1 0) as [-> | Hnz]; [by left |].
  destruct (Z.eqb_spec m1 (2 ^ 53)) as [-> | Hne].
  - destruct (Z.leb_spec (e1 + 1) 971); [| done]. intros _. right; left. lia.
  - destruct (Z.leb_spec e1 971); [| done]. intros _. right; right. lia.
Qed.

Lemma pack_infinite_cases s m1 e1 :
  0 <= m1 <= 2 ^ 53 -> is_finite (pack s m1 e1) = false ->
  (exists s', pack s m1 e1 = S754_infinity s') /\
  ((m1 = 2 ^ 53 /\ 971 <= e1) \/ (0 < m1 < 2 ^ 53 /\ 972 <= e1)).
Proof.
  intros Hm1. unfold pack.
  destruct (Z.eqb_spec m1 0) as [-> | Hnz]; [done |].
  destruct (Z.eqb_spec m1 (2 ^ 53)) as [-> | Hne].
  - destruct (Z.leb_spec (e1 + 1) 971); [done |]. intros _. split; [eauto |]. left. lia.
  - destruct (Z.leb_spec e1 971); [done |]. intros _. split; [eauto |]. right. lia.
Qed.

Lemma mul_bound_lt (t P c p : Q) :
  (0 <= t -> 0 < P -> t < c -> P <= p -> t * P < c * p)%Q.
Proof. intros. nra. Qed.

Lemma mul_bound_le (t P c p : Q) :
  (0 <= c -> 0 <= p -> c <= t -> p <= P -> c * p <= t * P)%Q.
Proof. intros. nra. Qed.

Lemma threshold_eq :
  ((inject_Z (2 ^ 53) - (1 # 2)) * inject_Z (2 ^ 971) == overflow_threshold)%Q.
Proof. vm_compute. reflexivity. Qed.

Lemma threshold_rolled :
  ((inject_Z (2 ^ 53) + 1) * inject_Z (2 ^ 970) <= overflow_threshold)%Q.
Proof. vm_compute. discriminate. Qed.

Lemma threshold_top :
  (overflow_threshold <= inject_Z (2 ^ 52) * inject_Z (2 ^ 972))%Q.
Proof. vm_compute. discriminate. Qed.

Lemma threshold_one : (1 <= overflow_threshold)%Q.
Proof. vm_compute. discriminate. Qed.

Lemma scale_abs (a P : Q) : (0 < P -> Qabs (a * P) == Qabs a * P)%Q.
Proof. intros HP. rewrite Qabs_Qmult, (Qabs_pos P) by lra. reflexivity. Qed.

Lemma pack_rounds_to s m1 e1 N D1 v :
  0 < D1 -> 0 <= N -> -1074 <= e1 ->
  m1 = nearest_even N D1 -> 0 <= m1 <= 2 ^ 53 ->
  (-1074 < e1 -> 2 ^ 52 * D1 <= N) ->
  (v == signum s * (inject_Z N / inject_Z D1) * 2 ^ e1)%Q ->
  rounds_to v (pack s m1 e1).
Proof.
  intros HD1 HN He1 Hm1def Hm1 Hnorm Hv.
  destruct (nearest_even_Q N D1 HD1) as [Hnear Htie].
  rewrite <- Hm1def in Hnear, Htie.
  pose proof (inject_Z_lt 0 D1 HD1) as HDq. change (inject_Z 0) with 0%Q in HDq.
  pose proof (inject_Z_le 0 N HN) as HNq. change (inject_Z 0) with 0%Q in HNq.
  set (t := (inject_Z N / inject_Z D1)%Q) in *.
  assert (HtD : (t * inject_Z D1 == inject_Z N)%Q) by (unfold t; field; lra).
  assert (Ht0 : (0 <= t)%Q).
  { apply Qnot_lt_le. intros Hneg.
    assert ((t * inject_Z D1 < 0 * inject_Z D1)%Q) by (by apply Qmult_lt_compat_r). lra. }
  assert (Htnorm : -1074 < e1 -> (inject_Z (2 ^ 52) <= t)%Q).
  { intros Hn. specialize (Hnorm Hn). apply inject_Z_le in Hnorm.
    rewrite inject_Z_mult, <- HtD in Hnorm.
    apply Qnot_lt_le. intros Hlt.
    assert ((t * inject_Z D1 < inject_Z (2 ^ 52) * inject_Z D1)%Q)
      by (by apply Qmult_lt_compat_r).
    lra. }
  assert (Hm1norm : -1074 < e1 -> 2 ^ 52 <= m1).
  { intros Hn. specialize (Hnorm Hn).
    assert (2 ^ 52 <= N / D1) by (apply Z.div_le_lower_bound; lia).
    destruct (nearest_even_floor N D1 HD1); lia. }
  clearbody t.
  set (P := (2 ^ e1)%Q) in *.
  pose proof (pow2_pos e1) as HP. fold P in HP.
  assert (Habsv : (Qabs v == t * P)%Q).
  { rewrite Hv, <- Qmult_assoc, Qabs_signum, scale_abs by done.
    by rewrite Qabs_pos. }
  assert (Hm1q : (0 <= inject_Z m1)%Q) by (apply (inject_Z_le 0); lia).
  destruct (is_finite (pack s m1 e1)) eqn:Hfin.
  2: { destruct (pack_infinite_cases s m1 e1 Hm1 Hfin) as [[s' ->] Hcases].
       simpl. rewrite Habsv.
       destruct Hcases as [[-> He] | [Hm He]].
       - rewrite <- threshold_eq.
         apply mul_bound_le.
         + vm_compute. discriminate.
         + vm_compute. discriminate.
         + apply Qabs_le_iff in Hnear. lra.
         + unfold P. rewrite <- (pow2_inject 971) by lia. by apply pow2_le.
       - eapply Qle_trans; [apply threshold_top |].
         apply mul_bound_le.
         + vm_compute. discriminate.
         + vm_compute. discriminate.
         + apply Htnorm. lia.
         + unfold P. rewrite <- (pow2_inject 972) by lia. by apply pow2_le. }
  pose proof (pack_value s m1 e1 ltac:(lia) Hfin) as Hvalue. fold P in Hvalue.
  pose proof (pack_valid s m1 e1 He1 Hm1 Hm1norm) as Hvalid.
  assert (Hbelow : (Qabs v < overflow_threshold)%Q).
  { rewrite Habsv.
    destruct (pack_finite_cases s m1 e1 Hm1 Hfin) as [-> | [[-> He] | [Hm He]]].
    - assert (He1' : e1 = -1074).
      { destruct (Z.eq_dec e1 (-1074)); [done |]. specialize (Hm1norm ltac:(lia)). lia. }
      assert (HP1 : (P <= 1)%Q).
      { unfold P. change 1%Q with (2 ^ 0)%Q. apply pow2_le. lia. }
      pose proof threshold_one. apply Qabs_le_iff in Hnear.
      change (inject_Z 0) with 0%Q in Hnear.
      assert ((t * P < 1 * 1)%Q); [| lra].
      apply mul_bound_lt; lra.
    - eapply Qlt_le_trans; [| apply threshold_rolled].
      apply mul_bound_lt; try done.
      + apply Qabs_le_iff in Hnear. lra.
      + unfold P. rewrite <- (pow2_inject 970) by lia. by apply pow2_le.
    - rewrite <- threshold_eq.
      apply mul_bound_lt; try done.
      + assert (Hle : (inject_Z m1 <= inject_Z (2 ^ 53) - 1)%Q).
        { change 1%Q with (inject_Z 1). rewrite <- inject_Z_sub. apply inject_Z_le. lia. }
        destruct (Z.eq_dec m1 (2 ^ 53 - 1)) as [Hmax | Hnot].
        * (* the odd top mantissa cannot come from a tie *)
          apply Qabs_le_iff in Hnear as Hnear'.
          destruct (Qlt_le_dec t (inject_Z (2 ^ 53) - (1 # 2))) as [| Hge]; [done |].
          exfalso.
          assert (Hexact : (Qabs (t - inject_Z m1) == 1 # 2)%Q).
          { rewrite Qabs_pos by lra. lra. }
          apply Htie in Hexact. by rewrite Hmax in Hexact.
        * assert (Hle' : (inject_Z m1 <= inject_Z (2 ^ 53) - 2)%Q).
          { change 2%Q with (inject_Z 2). rewrite <- inject_Z_sub. apply inject_Z_le. lia. }
          apply Qabs_le_iff in Hnear. lra.
      + unfold P. rewrite <- (pow2_inject 971) by lia. by apply pow2_le. }
  assert (Hxv : (Qabs (float_value (pack s m1 e1) - v) == Qabs (inject_Z m1 - t) * P)%Q).
  { transitivity (Qabs (signum s * ((inject_Z m1 - t) * P))).
    - apply Qabs_wd. rewrite Hvalue, Hv. ring.
    - rewrite Qabs_signum, scale_abs by done. reflexivity. }
  assert (Hbody : forall y, representable y ->
    (Qabs (float_value (pack s m1 e1) - v) <= Qabs (float_value y - v))%Q /\
    ((Qabs (float_value (pack s m1 e1) - v) == Qabs (float_value y - v))%Q ->
     (float_value y == float_value (pack s m1 e1))%Q \/ even_mantissa (pack s m1 e1) = true)).
  { intros y Hy.
    assert (Hscaled : forall y' : Q, (float_value y == y' * P)%Q ->
              (Qabs (float_value y - v) == Qabs (signum s * y' - t) * P)%Q).
    { intros y' Hy'.
      transitivity (Qabs (signum s * ((signum s * y' - t) * P))).
      - apply Qabs_wd. rewrite Hy', Hv. pose proof (signum_sq s) as Hsq.
        transitivity (signum s * signum s * y' * P - signum s * t * P)%Q; [| ring].
        rewrite Hsq. ring.
      - rewrite Qabs_signum, scale_abs by done. reflexivity. }
    destruct (representable_cases y e1 Hy He1) as [[g Hg] | [Hn (y' & Hy' & Hbound)]].
    - fold P in Hg. rewrite Hxv, (Hscaled _ Hg).
      assert (Hgs : (signum s * inject_Z g == inject_Z (cond_Zopp s g))%Q)
        by (by rewrite inject_cond_Zopp).
      assert (Hgrid : (inject_Z (cond_Zopp s g) <= inject_Z m1 - 1 \/
                       inject_Z (cond_Zopp s g) == inject_Z m1 \/
                       inject_Z m1 + 1 <= inject_Z (cond_Zopp s g))%Q).
      { destruct (Z.lt_trichotomy (cond_Zopp s g) m1) as [Hlt | [Heq | Hgt]].
        - left. change 1%Q with (inject_Z 1). rewrite <- inject_Z_sub.
          apply inject_Z_le. lia.
        - right; left. by rewrite Heq.
        - right; right. change 1%Q with (inject_Z 1). rewrite <- inject_Z_plus.
          apply inject_Z_le. lia. }
      rewrite Hgs.
      destruct (near_grid t (inject_Z m1) (inject_Z (cond_Zopp s g)) Hnear Hgrid)
        as [Hle Heq].
      split.
      + by apply Qmult_le_compat_r; [| lra].
      + intros Hsame. apply Qmult_inj_r in Hsame; [| lra].
        destruct (Heq Hsame) as [Hsameg | Hhalf].
        * left. rewrite Hg, Hvalue, <- Hsameg, <- Hgs.
          pose proof (signum_sq s) as Hsq.
          transitivity (signum s * signum s * inject_Z g * P)%Q; [| ring].
          rewrite Hsq. ring.
        * right. apply pack_even; [lia |]. by apply Htie.
    - fold P in Hy'. rewrite Hxv, (Hscaled _ Hy').
      assert (Hfine : (Qabs (inject_Z m1 - t) < Qabs (signum s * y' - t))%Q).
      { apply (near_fine t (inject_Z m1) (signum s * y') (inject_Z (2 ^ 52))).
        - done.
        - by apply Htnorm.
        - specialize (Hm1norm Hn).
          destruct (Z.eq_dec m1 (2 ^ 52)) as [-> | Hne]; [by left |].
          right. change 1%Q with (inject_Z 1). rewrite <- inject_Z_plus.
          apply inject_Z_le. lia.
        - by rewrite Qabs_signum. }
      split.
      + apply Qmult_le_compat_r; lra.
      + intros Hsame. apply Qmult_inj_r in Hsame; lra. }
  unfold rounds_to.
  destruct (pack s m1 e1) as [s0 | s0 | | s0 m0 e0] eqn:Hpack; try done.
Qed.

Lemma pack_rounds_to_located s mx ex lx N D v :
  located N D mx lx ->
  ex <= fexp prec emax (Zdigits2 mx + ex) ->
  (v == signum s * (inject_Z N / inject_Z D) * 2 ^ ex)%Q ->
  rounds_to v (binary_round_aux prec emax s mx ex lx) /\
  sign_bit (binary_round_aux prec emax s mx ex lx) = s.
Proof.
  intros Hloc He Hv.
  destruct (binary_round_aux_located s mx ex lx N D Hloc He)
    as (-> & HD1 & HN & He1 & Hm1 & Hnorm).
  split; [| apply pack_sign].
  set (e1 := fexp prec emax (Zdigits2 mx + ex)) in *.
  destruct (located_div _ _ _ _ Hloc) as (HD & _ & _).
  apply (pack_rounds_to s _ e1 N (D * 2 ^ (e1 - ex))); try done.
  rewrite Hv. 
  pose proof (inject_Z_lt 0 D HD) as HDq. change (inject_Z 0) with 0%Q in HDq.
  assert (Hn : 0 <= e1 - ex) by lia.
  rewrite inject_Z_mult, <- (pow2_inject (e1 - ex)) by lia.
  rewrite (pow2_split e1 ex).
  pose proof (pow2_pos (e1 - ex)) as Hpos.
  field. split; lra.
Qed.

Lemma rounds_to_wd v v' x : (v == v')%Q -> rounds_to v x -> rounds_to v' x.
Proof.
  intros Hv. unfold rounds_to. destruct x as [s | s | | s m e]; try done.
  - intros (Hb & Hval & Hy). rewrite <- Hv. split; [done |]. split; [done |].
    intros y Hrep. destruct (Hy y Hrep) as [Hle Htie]. split.
    + by rewrite <- Hv.
    + intros Heq. apply Htie. by rewrite Hv.
  - intros Hb. by rewrite <- Hv.
  - intros (Hb & Hval & Hy). rewrite <- Hv. split; [done |]. split; [done |].
    intros y Hrep. destruct (Hy y Hrep) as [Hle Htie]. split.
    + by rewrite <- Hv.
    + intros Heq. apply Htie. by rewrite Hv.
Qed.

Lemma rounds_to_zero s : rounds_to 0 (S754_zero s).
Proof.
  unfold rounds_to. split; [vm_compute; reflexivity |]. split; [done |].
  intros y _. split; [| by right].
  cbn [float_value].
  assert (Hz : (Qabs (0 - 0) == 0)%Q) by reflexivity.
  rewrite Hz. apply Qabs_nonneg.
Qed.

Lemma rounds_to_representable v x :
  rounds_to v x -> is_finite x = true -> representable x.
Proof. destruct x; simpl; try done; intros (_ & Hv & _) _; by split. Qed.

Lemma located_exact m : 0 <= m -> located m 1 m loc_Exact.
Proof. intros Hm. split; [done |]. exists 0. repeat split; lia. Qed.

Lemma canonical_inv m e :
  bounded prec emax m e = true ->
  Z.max (Zpos (digits2_pos m) + e - 53) (-1074) = e.
Proof.
  unfold bounded, canonical_mantissa. intros Hb.
  apply andb_true_iff in Hb as [Hc _]. apply Z.eqb_eq in Hc. by rewrite fexp_eq in Hc.
Qed.

Lemma digits2_pos_mul mx my :
  Zpos (digits2_pos mx) + Zpos (digits2_pos my) - 1 <= Zpos (digits2_pos (mx * my)).
Proof.
  pose proof (digits2_pos_bounds mx) as [Hx _].
  pose proof (digits2_pos_bounds my) as [Hy _].
  pose proof (digits2_pos_bounds (mx * my)) as [_ Hxy].
  destruct (Z.le_gt_cases (Zpos (digits2_pos mx) + Zpos (digits2_pos my) - 1)
              (Zpos (digits2_pos (mx * my)))) as [| Hgt]; [done |].
  exfalso.
  assert (Hpow : 2 ^ Zpos (digits2_pos (mx * my))
                 <= 2 ^ (Zpos (digits2_pos mx) - 1 + (Zpos (digits2_pos my) - 1)))
    by (apply Z.pow_le_mono_r; lia).
  rewrite Z.pow_add_r in Hpow by lia.
  rewrite Pos2Z.inj_mul in Hxy. nia.
Qed.

Lemma signum_xorb s1 s2 : (signum (xorb s1 s2) == signum s1 * signum s2)%Q.
Proof. by destruct s1, s2. Qed.

(** The product of two floats is the exact product of their values,
    rounded. *)
Lemma mul_rounds_to a b :
  representable a -> representable b ->
  rounds_to (float_value a * float_value b) (SFmul prec emax a b) /\
  sign_bit (SFmul prec emax a b) = xorb (sign_bit a) (sign_bit b).
Proof.
  intros [Hfa Hva] [Hfb Hvb].
  destruct a as [sa | sa | | sa ma ea], b as [sb | sb | | sb mb eb]; try done.
  - split; [| done]. cbn [SFmul float_value].
    apply (rounds_to_wd 0); [ring | apply rounds_to_zero].
  - split; [| done]. cbn [SFmul float_value].
    apply (rounds_to_wd 0); [ring | apply rounds_to_zero].
  - split; [| done]. cbn [SFmul float_value].
    apply (rounds_to_wd 0); [ring | apply rounds_to_zero].
  - cbn [SFmul sign_bit]. cbn [valid_binary] in Hva, Hvb.
    apply canonical_inv in Hva, Hvb.
    pose proof (digits2_pos_mul ma mb) as Hd.
    apply (pack_rounds_to_located _ _ _ _ (Zpos (ma * mb)) 1).
    + by apply located_exact.
    + rewrite fexp_eq. cbn [Zdigits2]. lia.
    + cbn [float_value]. rewrite !inject_cond_Zopp, signum_xorb, pow2_add, Pos2Z.inj_mul,
        inject_Z_mult. change (inject_Z 1) with 1%Q. field.
Qed.

Lemma pos_iter_xO m d : Zpos (Pos.iter xO m d) = Zpos m * 2 ^ Zpos d.
Proof.
  induction d as [| d IH] using Pos.peano_ind.
  - simpl. lia.
  - rewrite Pos.iter_succ, Pos2Z.inj_succ, Z.pow_succ_r by lia.
    rewrite Pos2Z.inj_xO, IH. lia.
Qed.

Lemma binary_round_rounds_to s m e :
  rounds_to (signum s * inject_Z (Zpos m) * 2 ^ e) (binary_round prec emax s m e) /\
  sign_bit (binary_round prec emax s m e) = s.
Proof.
  unfold binary_round, shl_align.
  pose proof (digits2_pos_bounds m) as [Hlo Hhi].
  destruct (fexp prec emax (Zpos (digits2_pos m) + e) - e) as [| d | d] eqn:Hd.
  - apply (pack_rounds_to_located _ _ _ _ (Zpos m) 1).
    + by apply located_exact.
    + cbn [Zdigits2]. lia.
    + change (inject_Z 1) with 1%Q. field.
  - apply (pack_rounds_to_located _ _ _ _ (Zpos m) 1).
    + by apply located_exact.
    + cbn [Zdigits2]. lia.
    + change (inject_Z 1) with 1%Q. field.
  - set (f := fexp prec emax (Zpos (digits2_pos m) + e)) in *.
    pose proof (pos_iter_xO m d) as Hshift.
    assert (Hdig : Zdigits2 (Zpos (Pos.iter xO m d)) = Zpos (digits2_pos m) + Zpos d).
    { apply Zdigits2_unique; [lia |]. rewrite Hshift.
      replace (Zpos (digits2_pos m) + Zpos d - 1) with (Zpos (digits2_pos m) - 1 + Zpos d)
        by lia.
      rewrite !Z.pow_add_r by lia.
      assert (0 < 2 ^ Zpos d) by (apply Z.pow_pos_nonneg; lia). nia. }
    apply (pack_rounds_to_located _ _ _ _ (Zpos (Pos.iter xO m d)) 1).
    + by apply located_exact.
    + rewrite Hdig. replace (Zpos (digits2_pos m) + Zpos d + f)
        with (Zpos (digits2_pos m) + e) by lia. fold f. lia.
    + rewrite Hshift, inject_Z_mult, <- (pow2_inject (Zpos d)) by lia.
      rewrite (pow2_split e f). replace (e - f) with (Zpos d) by lia.
      change (inject_Z 1) with 1%Q. field.
Qed.

(** [float(z)]: the integer, rounded; [OverflowError] exactly from the
    overflow threshold on. *)
Lemma of_int_exact z :
  match of_int z with
  | Ok f =>
      representable f /\ rounds_to (inject_Z z) f /\ sign_bit f = Z.ltb z 0
  | Raise e =>
      e = PyError OverflowError /\ (overflow_threshold <= Qabs (inject_Z z))%Q
  end.
Proof.
  unfold of_int, binary_normalize.
  destruct z as [| m | m].
  - split; [done |]. split; [apply rounds_to_zero | done].
  - destruct (binary_round_rounds_to false m 0) as [Hr Hs].
    assert (Hr' : rounds_to (inject_Z (Zpos m)) (binary_round prec emax false m 0)).
    { eapply rounds_to_wd; [| exact Hr]. cbn [signum]. change (2 ^ 0)%Q with 1%Q. ring. }
    destruct (binary_round prec emax false m 0) as [s0 | s0 | | s0 m0 e0] eqn:Hb;
      try done; (split; [by eapply rounds_to_representable | done]).
  - destruct (binary_round_rounds_to true m 0) as [Hr Hs].
    assert (Hr' : rounds_to (inject_Z (Zneg m)) (binary_round prec emax true m 0)).
    { eapply rounds_to_wd; [| exact Hr]. cbn [signum]. change (2 ^ 0)%Q with 1%Q.
      change (Zneg m) with (- Zpos m). rewrite inject_Z_opp. ring. }
    destruct (binary_round prec emax true m 0) as [s0 | s0 | | s0 m0 e0] eqn:Hb;
      try done; (split; [by eapply rounds_to_representable | done]).
Qed.

Lemma div_core_located k :
  0 < k ->
  exists q e' l,
    SFdiv_core_binary prec emax k 0 (10 ^ 8) 0 = (q, e', l) /\
    located (k * 2 ^ (- e')) (10 ^ 8) q l /\ e' <= 0 /\
    e' <= fexp prec emax (Zdigits2 q + e').
Proof.
  intros Hk. unfold SFdiv_core_binary.
  change (Zdigits2 (10 ^ 8)) with 27.
  pose proof (Zdigits2_bounds k Hk) as [Hlo Hhi].
  assert (Hd1 : 0 < Zdigits2 k) by (destruct k; simpl; lia).
  set (e' := Z.min (fexp prec emax (Zdigits2 k + 0 - (27 + 0))) (0 - 0)).
  assert (He' : e' <= 0) by (unfold e'; lia).
  assert (He'' : e' = Z.min (Zdigits2 k - 80) 0) by (unfold e'; rewrite fexp_eq; lia).
  set (m' := match 0 - 0 - e' with
             | 0 => k
             | Zpos _ => Z.shiftl k (0 - 0 - e')
             | Zneg _ => 0
             end).
  assert (Hm' : m' = k * 2 ^ (- e')).
  { unfold m'. destruct (0 - 0 - e') as [| p | p] eqn:Hs.
    - replace (- e') with 0 by lia. lia.
    - rewrite Z.shiftl_mul_pow2 by lia. f_equal. f_equal. lia.
    - lia. }
  assert (Hbig : 2 ^ 79 <= m').
  { rewrite Hm'. destruct (Z.le_gt_cases (Zdigits2 k) 80) as [Hle | Hgt].
    - replace (- e') with (80 - Zdigits2 k) by lia.
      replace 79 with (Zdigits2 k - 1 + (80 - Zdigits2 k)) by lia.
      rewrite Z.pow_add_r by lia.
      apply Z.mul_le_mono_nonneg_r; [apply Z.pow_nonneg; lia | done].
    - replace (- e') with 0 by lia. rewrite Z.mul_1_r.
      etrans; [| exact Hlo]. apply Z.pow_le_mono_r; lia. }
  destruct (Z.div_eucl m' (10 ^ 8)) as [q r] eqn:Hdiv.
  assert (Hq : q = m' / 10 ^ 8) by (unfold Z.div; by rewrite Hdiv).
  assert (Hr : r = m' mod 10 ^ 8) by (unfold Z.modulo; by rewrite Hdiv).
  pose proof (Z.div_mod m' (10 ^ 8) ltac:(lia)) as Heucl.
  pose proof (Z.mod_pos_bound m' (10 ^ 8) ltac:(lia)) as Hbound.
  rewrite <- Hq, <- Hr in Heucl. rewrite <- Hr in Hbound.
  assert (Hq52 : 2 ^ 52 <= q).
  { rewrite Hq. apply Z.div_le_lower_bound; [lia |].
    etrans; [| exact Hbig]. vm_compute. discriminate. }
  exists q, e', (new_location (10 ^ 8) r). split; [done |].
  split; [| split; [done |]].
  - split; [lia |]. exists r. rewrite <- Hm'. split; [lia |]. split; [done |].
    unfold new_location. change (Z.even (10 ^ 8)) with true. cbv iota.
    unfold new_location_even.
    destruct (Z.eqb_spec r 0) as [Hz | Hnz]; [done |]. split; [lia | done].
  - rewrite fexp_eq.
    assert (53 <= Zdigits2 q); [| lia].
    pose proof (Zdigits2_bounds q ltac:(lia)) as [_ Hqhi].
    destruct (Z.le_gt_cases 53 (Zdigits2 q)) as [| Hlt]; [done |].
    assert (2 ^ Zdigits2 q <= 2 ^ 52)
      by (apply Z.pow_le_mono_r; [lia | lia]).
    lia.
Qed.

Lemma mul_bound_le_upper (t P c p : Q) :
  (0 <= t -> 0 < P -> t <= c -> P <= p -> t * P <= c * p)%Q.
Proof. intros. nra. Qed.

Lemma threshold_margin :
  ((inject_Z (2 ^ 53) - 1) * inject_Z (2 ^ 971) + 1 < overflow_threshold)%Q.
Proof. vm_compute. reflexivity. Qed.

Lemma scaled_value m e :
  let num := Zpos m * 10 ^ 8 * 2 ^ Z.max e 0 in
  let den := 2 ^ Z.max (- e) 0 in
  0 < den /\ 0 <= num /\
  (inject_Z num / inject_Z den == inject_Z (Zpos m) * 2 ^ e * inject_Z (10 ^ 8))%Q.
Proof.
  intros num den.
  assert (Hden : 0 < den) by (apply Z.pow_pos_nonneg; lia).
  assert (Hnum : 0 <= num).
  { unfold num. apply Z.mul_nonneg_nonneg; [lia |]. apply Z.pow_nonneg. lia. }
  split; [done |]. split; [done |].
  unfold num, den. rewrite !inject_Z_mult.
  rewrite <- (pow2_inject (Z.max e 0)), <- (pow2_inject (Z.max (- e) 0)) by lia.
  pose proof (pow2_pos (Z.max (- e) 0)) as Hpos.
  assert (Hsplit : (2 ^ Z.max e 0 == 2 ^ e * 2 ^ Z.max (- e) 0)%Q).
  { rewrite <- pow2_add. by replace (e + Z.max (- e) 0) with (Z.max e 0) by lia. }
  rewrite Hsplit. field. lra.
Qed.

(** [round(x, 8)] of a finite float: the float_value is rounded to the nearest
    multiple of 10^-8, ties to the even multiple, and that decimal is
    rounded to the nearest float. *)
Lemma round_exact s m e :
  bounded prec emax m e = true ->
  exists k : Z,
    nearest_integer (float_value (S754_finite s m e) * inject_Z (10 ^ 8)) k /\
    rounds_to (inject_Z k / inject_Z (10 ^ 8)) (round (S754_finite s m e) 8) /\
    sign_bit (round (S754_finite s m e) 8) = s /\
    representable (round (S754_finite s m e) 8).
Proof.
  intros Hb. apply bounded_inv in Hb as [Hm He].
  destruct (scaled_value m e) as (Hden & Hnum & Hscaled).
  unfold round.
  set (num := Zpos m * 10 ^ 8 * 2 ^ Z.max e 0) in *.
  set (den := 2 ^ Z.max (- e) 0) in *.
  destruct (nearest_even_Q num den Hden) as [Hnear Htie].
  pose proof (nearest_even_nonneg num den Hnum Hden) as Hk0.
  set (k0 := nearest_even num den) in *.
  exists (cond_Zopp s k0).
  assert (Hdist : (Qabs (float_value (S754_finite s m e) * inject_Z (10 ^ 8)
                           - inject_Z (cond_Zopp s k0))
                   == Qabs (inject_Z num / inject_Z den - inject_Z k0))%Q).
  { rewrite <- (Qabs_signum s (inject_Z num / inject_Z den - inject_Z k0)).
    apply Qabs_wd. cbn [float_value]. rewrite !inject_cond_Zopp, Hscaled. ring. }
  assert (Hnearest : nearest_integer
            (float_value (S754_finite s m e) * inject_Z (10 ^ 8)) (cond_Zopp s k0)).
  { split; [by rewrite Hdist |]. intros Heq. rewrite Hdist in Heq.
    destruct s; cbn [cond_Zopp]; [rewrite Z.even_opp |]; by apply Htie. }
  split; [done |].
  assert (Hsmall : (Qabs (inject_Z (cond_Zopp s k0) / inject_Z (10 ^ 8))
                    < overflow_threshold)%Q).
  { eapply Qle_lt_trans; [| apply threshold_margin].
    assert (Hq : (inject_Z (cond_Zopp s k0) / inject_Z (10 ^ 8)
                  == signum s * (inject_Z k0 / inject_Z (10 ^ 8)))%Q).
    { rewrite inject_cond_Zopp. field. discriminate. }
    rewrite Hq, Qabs_signum.
    assert (Hk0q : (0 <= inject_Z k0)%Q) by (apply (inject_Z_le 0); done).
    assert (Hmq : (inject_Z (Zpos m) <= inject_Z (2 ^ 53) - 1)%Q).
    { change 1%Q with (inject_Z 1). rewrite <- inject_Z_sub. apply inject_Z_le. lia. }
    assert (Hm0 : (0 <= inject_Z (Zpos m))%Q) by (apply (inject_Z_le 0); lia).
    pose proof (pow2_pos e) as Hpe.
    assert (Hpe' : (2 ^ e <= inject_Z (2 ^ 971))%Q).
    { rewrite <- (pow2_inject 971) by lia. apply pow2_le. lia. }
    pose proof (mul_bound_le_upper _ _ _ _ Hm0 Hpe Hmq Hpe') as Hprod.
    apply Qabs_le_iff in Hnear. rewrite Hscaled in Hnear.
    assert (Hten : (inject_Z (10 ^ 8) == 100000000)%Q) by reflexivity.
    rewrite Hten in *.
    rewrite Qabs_pos.
    2: { apply Qle_shift_div_l; lra. }
    apply Qle_shift_div_r; [lra |].
    generalize dependent (inject_Z (Zpos m) * 2 ^ e)%Q.
    generalize dependent ((inject_Z (2 ^ 53) - 1) * inject_Z (2 ^ 971))%Q.
    generalize dependent (inject_Z k0). intros. lra. }
  assert (Hmain : rounds_to (inject_Z (cond_Zopp s k0) / inject_Z (10 ^ 8))
                    match k0 with
                    | Zpos k => of_decimal s k 8
                    | _ => S754_zero s
                    end /\
                  sign_bit match k0 with
                           | Zpos k => of_decimal s k 8
                           | _ => S754_zero s
                           end = s).
  { destruct k0 as [| k | k] eqn:Hk; [| | lia].
    - split; [| done]. apply (rounds_to_wd 0); [| apply rounds_to_zero].
      destruct s; reflexivity.
    - unfold of_decimal.
      destruct (div_core_located (Zpos k) ltac:(lia)) as (q & e' & l & -> & Hloc & He' & Hpre).
      apply (pack_rounds_to_located _ _ _ _ _ _ _ Hloc Hpre).
      rewrite inject_cond_Zopp, inject_Z_mult, <- (pow2_inject (- e')) by lia.
      pose proof (pow2_pos e') as Hpos.
      assert (Hinv : (2 ^ (- e') * 2 ^ e' == 1)%Q).
      { rewrite <- pow2_add. by replace (- e' + e') with 0 by lia. }
      transitivity (signum s * inject_Z (Zpos k) * (2 ^ (- e') * 2 ^ e')
                    / inject_Z (10 ^ 8))%Q.
      + rewrite Hinv. field. discriminate.
      + field. discriminate. }
  destruct Hmain as [Hrounds Hsign]. split; [done |]. split; [done |].
  apply (rounds_to_representable _ _ Hrounds).
  destruct (match k0 with Zpos k => of_decimal s k 8 | _ => S754_zero s end)
    as [s0 | s0 | | s0 m0 e0]; try done.
  unfold rounds_to in Hrounds. lra.
Qed.

Lemma round_of_rounded v product :
  rounds_to v product ->
  if is_finite product then rounded_to_8_decimals product (round product 8)
  else round product 8 = product.
Proof.
  intros Hr. destruct product as [s | s | | s m e]; cbn [is_finite]; try done.
  - exists 0. cbn [round float_value sign_bit].
    split; [| split; [| done]].
    + split; [vm_compute; discriminate | done].
    + apply (rounds_to_wd 0); [reflexivity | apply rounds_to_zero].
  - destruct Hr as (_ & Hvalid & _). by apply round_exact.
Qed.

Lemma rounded_product_intro amount rate product :
  representable amount ->
  mul amount rate = Ok product ->
  rounded_product amount rate (round product 8).
Proof.
  intros Hamount. unfold mul.
  assert (Hgen : forall r, rate_as_float rate r ->
            product = SFmul prec emax amount r ->
            rounded_product amount rate (round product 8)).
  { intros r Hrate ->. exists r, (SFmul prec emax amount r). split; [done |].
    intros Hr. destruct (mul_rounds_to amount r Hamount Hr) as [Hrounds Hsign].
    split; [done |]. split; [done |]. by eapply round_of_rounded. }
  destruct rate as [| b | z | y | | |]; try done.
  - intros Hp. injection Hp as <-.
    apply (Hgen (binary_normalize prec emax (if b then 1 else 0) 0 false)); [| done].
    destruct b; cbn [rate_as_float binary_normalize].
    + destruct (binary_round_rounds_to false 1 0) as [Hr Hs].
      assert (Hr' : rounds_to (inject_Z 1) (binary_round prec emax false 1 0))
        by (eapply rounds_to_wd; [| exact Hr]; reflexivity).
      split; [by apply (rounds_to_representable _ _ Hr') | done].
    + split; [done |]. split; [apply rounds_to_zero | done].
  - pose proof (of_int_exact z) as Hz.
    destruct (of_int z) as [y | e]; [| done].
    intros Hp. injection Hp as <-. by apply (Hgen y).
  - intros Hp. injection Hp as <-. by apply (Hgen y).
Qed.

End FloatRounding.

Section ConversionMath.
Context `{Runtime}.

(** C8.  A successful [/convert] (resp. [/crypto]) answers with the rate
    (price) the resolver returned, with the amount as given, and with
    [converted_amount] equal to [amount * rate] rounded to 8 decimal places.
    In exact terms, for a finite amount and rate: the product is the exact
    product of the two numbers rounded to the nearest float (ties to even,
    an infinity on overflow), and [converted_amount] is the float nearest to
    [k / 10^8], where [k] is the integer nearest to the product times 10^8
    (ties to even); the sign is kept throughout.  With amount 100.0 and rate
    0.9, [converted_amount] is exactly 90.0. *)
Theorem converted_amount_is_rounded_product :
  (forall E w from_currency to_currency amount resp w',
     convert from_currency to_currency amount E w = (Ok resp, w') ->
     fst (get_fiat_rate from_currency to_currency E w) = Ok (conv_rate resp) /\
     conv_amount resp = amount /\
     (representable amount ->
      rounded_product amount (conv_rate resp) (conv_converted_amount resp))) /\
  (forall E w symbol vs_currency amount resp w',
     crypto_convert symbol vs_currency amount E w = (Ok resp, w') ->
     fst (get_crypto_price symbol vs_currency E w) = Ok (crypto_price_per_unit resp) /\
     crypto_amount resp = amount /\
     (representable amount ->
      rounded_product amount (crypto_price_per_unit resp)
        (crypto_converted_amount resp))) /\
  (forall E w from_currency to_currency resp w',
     convert from_currency to_currency float_100 E w = (Ok resp, w') ->
     conv_rate resp = PFloat float_0_9 ->
     conv_converted_amount resp = float_90) /\
  (forall E w symbol vs_currency resp w',
     crypto_convert symbol vs_currency float_100 E w = (Ok resp, w') ->
     crypto_price_per_unit resp = PFloat float_0_9 ->
     crypto_converted_amount resp = float_90).
Proof.
  assert (Hconvert : forall E w from_currency to_currency amount resp w',
     convert from_currency to_currency amount E w = (Ok resp, w') ->
     fst (get_fiat_rate from_currency to_currency E w) = Ok (conv_rate resp) /\
     conv_amount resp = amount /\
     exists product,
       PyFloat.mul amount (conv_rate resp) = Ok product /\
       conv_converted_amount resp = PyFloat.round product 8).
  { intros E w from_currency to_currency amount resp w'. unfold convert. glue.
    destruct (get_fiat_rate from_currency to_currency E w) as [[rate | e] w1];
      simpl; [| done].
    destruct (PyFloat.mul amount rate) as [product | e] eqn:Hmul; simpl; [| done].
    intros Hrun. injection Hrun as <- <-. simpl. eauto. }
  assert (Hcrypto : forall E w symbol vs_currency amount resp w',
     crypto_convert symbol vs_currency amount E w = (Ok resp, w') ->
     fst (get_crypto_price symbol vs_currency E w) = Ok (crypto_price_per_unit resp) /\
     crypto_amount resp = amount /\
     exists product,
       PyFloat.mul amount (crypto_price_per_unit resp) = Ok product /\
       crypto_converted_amount resp = PyFloat.round product 8).
  { intros E w symbol vs_currency amount resp w'. unfold crypto_convert. glue.
    destruct (get_crypto_price symbol vs_currency E w) as [[price | e] w1];
      simpl; [| done].
    destruct (PyFloat.mul amount price) as [product | e] eqn:Hmul; simpl; [| done].
    intros Hrun. injection Hrun as <- <-. simpl. eauto. }
  assert (Hexample : PyFloat.mul float_100 (PFloat float_0_9) = Ok float_90 /\
                     PyFloat.round float_90 8 = float_90)
    by (split; vm_compute; reflexivity).
  split; [| split; [| split]].
  - intros E w from_currency to_currency amount resp w' Hrun.
    destruct (Hconvert _ _ _ _ _ _ _ Hrun) as (Hrate & Hamount & product & Hmul & ->).
    split; [done |]. split; [done |]. intros Hrep.
    by apply rounded_product_intro.
  - intros E w symbol vs_currency amount resp w' Hrun.
    destruct (Hcrypto _ _ _ _ _ _ _ Hrun) as (Hrate & Hamount & product & Hmul & ->).
    split; [done |]. split; [done |]. intros Hrep.
    by apply rounded_product_intro.
  - intros E w from_currency to_currency resp w' Hrun Hrate.
    destruct (Hconvert _ _ _ _ _ _ _ Hrun) as (_ & _ & product & Hmul & ->).
    rewrite Hrate in Hmul. destruct Hexample as [Hm Hr].
    rewrite Hm in Hmul. injection Hmul as <-. exact Hr.
  - intros E w symbol vs_currency resp w' Hrun Hrate.
    destruct (Hcrypto _ _ _ _ _ _ _ Hrun) as (_ & _ & product & Hmul & ->).
    rewrite Hrate in Hmul. destruct Hexample as [Hm Hr].
    rewrite Hm in Hmul. injection Hmul as <-. exact Hr.
Qed.

End ConversionMath.

(** * The statements on concrete runs *)

Lemma seconds_clock_monotonic (net : nat -> string -> outcome) :
  monotonic {| clock := Z.of_nat; net := net |}.
Proof. intros i j Hij. simpl. lia. Qed.

(** C4, as stated, fails on the boundary: one second after a write with a
    TTL of one second the clock reads exactly [t0 + ttl], and the read still
    returns the value and leaves the entry in the cache. *)
Lemma cache_expiry_boundary_counterexample :
  clock eur_env (steps (snd (cache_set "k" (PInt 1) 1 eur_env empty_world)))
    >= clock eur_env (steps empty_world) + 1 /\
  fst (cache_get "k" eur_env (snd (cache_set "k" (PInt 1) 1 eur_env empty_world)))
    = Ok (PInt 1) /\
  fst (cache_get "k" eur_env (snd (cache_set "k" (PInt 1) 1 eur_env empty_world)))
    <> Ok PNone /\
  CACHE (snd (cache_get "k" eur_env (snd (cache_set "k" (PInt 1) 1 eur_env empty_world))))
    !! "k" <> None.
Proof. vm_compute. repeat split; discriminate. Qed.

(** [cache_get_after_set] on a run with a read and an unrelated write in
    between: a hit within the TTL, and a purge once the clock is past it. *)
Lemma cache_get_after_set_witness :
  cache_get "k" eur_env
    (run_ops [OpGet "k"; OpSet "j" PNone 5] eur_env
       (snd (cache_set "k" (PInt 1) 5 eur_env empty_world)))
  = (Ok (PInt 1),
     tick (run_ops [OpGet "k"; OpSet "j" PNone 5] eur_env
             (snd (cache_set "k" (PInt 1) 5 eur_env empty_world)))) /\
  CACHE (snd (cache_get "k" eur_env
                (run_ops [OpGet "j"] eur_env
                   (snd (cache_set "k" (PInt 1) 0 eur_env empty_world)))))
    !! "k" = None.
Proof.
  split.
  - apply (cache_get_after_set eur_env empty_world "k" (PInt 1) 5
             [OpGet "k"; OpSet "j" PNone 5]).
    + apply seconds_clock_monotonic.
    + reflexivity.
    + vm_compute. discriminate.
  - apply (cache_get_after_set eur_env empty_world "k" (PInt 1) 0 [OpGet "j"]).
    + apply seconds_clock_monotonic.
    + reflexivity.
    + vm_compute. reflexivity.
Defined.

(** [fiat_unknown_target_is_500] on the sample provider: XYZ is not in the
    rate table. *)
Lemma fiat_unknown_target_is_500_witness :
  fst (@get_fiat_rate sample_runtime "usd" "xyz" eur_env empty_world)
  = Raise (HTTPException 500
      "Internal server error while processing fiat rates: 400: Invalid currency code: XYZ").
Proof.
  destruct (@fiat_unknown_target_is_500 sample_runtime eur_env empty_world empty_world
              "usd" "xyz"
              {| status_code := 200;
                 body := Some (PDict [("result", PStr "success");
                                      ("rates", PDict [("EUR", PFloat float_0_9)])]) |}
              [("result", PStr "success"); ("rates", PDict [("EUR", PFloat float_0_9)])]
              [("EUR", PFloat float_0_9)] float_100)
    as [Hresolver _];
    [reflexivity | reflexivity | unfold is_2xx; simpl; lia
     | reflexivity | reflexivity | reflexivity | reflexivity |].
  exact Hresolver.
Defined.

(** C2, as stated, fails: bitcoin is in the static map, the provider has no
    usd price for it, and the catalog (not cached) lists a coin under the
    ticker btc that the fallback would find and price; but the call fails
    after its single price request, without any catalog request. *)
Lemma mapped_symbol_fallback_counterexample :
  symbol_map_get CRYPTO_SYMBOL_MAP (upper "btc") = PStr "bitcoin" /\
  CACHE empty_world !! list_cache_key = None /\
  is_Raise (fst (@get_crypto_price sample_runtime "btc" "usd" btc_alt_env empty_world)) /\
  requests (snd (@get_crypto_price sample_runtime "btc" "usd" btc_alt_env empty_world))
    = [(@price_url sample_runtime (PStr "bitcoin") "usd",
        ok_json (PDict [("bitcoin-alt", PDict [("usd", PInt 7)])]))] /\
  catalog_fetches
    (requests (snd (@get_crypto_price sample_runtime "btc" "usd" btc_alt_env empty_world)))
    = 0%nat.
Proof. vm_compute. repeat split. Qed.

(** [mapped_symbol_without_price_skips_fallback] on that run. *)
Lemma mapped_symbol_without_price_skips_fallback_witness :
  is_Raise (fst (@get_crypto_price sample_runtime "btc" "usd" btc_alt_env empty_world)) /\
  catalog_fetches
    (new_requests empty_world
       (snd (@get_crypto_price sample_runtime "btc" "usd" btc_alt_env empty_world)))
    = 0%nat /\
  CACHE (snd (@get_crypto_price sample_runtime "btc" "usd" btc_alt_env empty_world))
    = CACHE empty_world.
Proof.
  destruct (@mapped_symbol_without_price_skips_fallback sample_runtime
              btc_alt_env empty_world empty_world "btc" "usd" "bitcoin"
              {| status_code := 200;
                 body := Some (PDict [("bitcoin-alt", PDict [("usd", PInt 7)])]) |}
              (PDict [("bitcoin-alt", PDict [("usd", PInt 7)])]) (PDict []))
    as (Hfails & _ & Hnone & Hcache);
    [reflexivity | reflexivity | reflexivity | unfold is_2xx; simpl; lia
     | reflexivity | reflexivity | reflexivity |].
  split; [exact Hfails | split; [exact Hnone | exact Hcache]].
Defined.

(** [crypto_unknown_symbol_is_500] on the sample provider: no coin has the
    ticker bar. *)
Lemma crypto_unknown_symbol_is_500_witness :
  fst (@get_crypto_price sample_runtime "bar" "usd" foo_env empty_world)
  = Raise (HTTPException 500
      "Internal server error while processing crypto rates: 404: Crypto symbol 'BAR' not found on CoinGecko").
Proof.
  destruct (@crypto_unknown_symbol_is_500 sample_runtime foo_env empty_world empty_world
              (snd (load_coins_list foo_env empty_world)) "bar" "usd"
              [PDict [("id", PStr "foo-coin"); ("symbol", PStr "foo")]] float_100)
    as [Hresolver _];
    [reflexivity | reflexivity | reflexivity | reflexivity | reflexivity |].
  exact Hresolver.
Defined.

(** [rate_limit_is_surfaced] on a provider that answers 429. *)
Lemma rate_limit_is_surfaced_witness :
  fst (@crypto_convert sample_runtime "btc" "usd" float_100 limited_env empty_world)
  = Raise (HTTPException 429
      "Rate limit exceeded on CoinGecko. Increase cache TTL or upgrade CoinGecko plan.").
Proof.
  destruct (@rate_limit_is_surfaced sample_runtime limited_env empty_world "btc" "usd"
              (@price_url sample_runtime (PStr "bitcoin") "usd")
              {| status_code := 429; body := None |} float_100)
    as [_ Hendpoint]; [vm_compute; left; reflexivity | reflexivity |].
  exact Hendpoint.
Defined.



(** [fiat_second_call_is_a_cache_hit] on the sample provider: usd/eur is
    resolved upstream, a crypto call comes in between, and USD/Eur is then
    answered from the cache. *)
Lemma fiat_second_call_is_a_cache_hit_witness :
  fst (@get_fiat_rate sample_runtime "USD" "Eur" eur_env
         (@run_calls sample_runtime [CryptoCall "btc" "usd"] eur_env
            (snd (@get_fiat_rate sample_runtime "usd" "eur" eur_env empty_world))))
  = Ok (PFloat float_0_9).
Proof.
  destruct (@fiat_second_call_is_a_cache_hit sample_runtime eur_env empty_world
              (snd (@get_fiat_rate sample_runtime "usd" "eur" eur_env empty_world))
              "usd" "eur" (PFloat float_0_9))
    as (e & Hk & _ & _ & Hagain).
  - apply seconds_clock_monotonic.
  - reflexivity.
  - vm_compute in Hk. injection Hk as <-.
    destruct (Hagain [CryptoCall "btc" "usd"] "USD" "Eur") as [Hhit _];
      [reflexivity | reflexivity | vm_compute; discriminate |].
    rewrite Hhit. reflexivity.
Defined.

(** [converted_amount_is_rounded_product] on the sample provider: 0.1 usd
    at 0.9 have the product 0.09000000000000001, which rounds to 0.09; and
    100 usd at 0.9 are exactly 90 eur. *)
Lemma converted_amount_is_rounded_product_witness :
  match fst (@convert sample_runtime "usd" "eur" float_0_1 eur_env empty_world) with
  | Ok resp =>
      PyFloat.mul (conv_amount resp) (conv_rate resp) = Ok float_0_09_up /\
      conv_converted_amount resp = float_0_09 /\
      rounded_product float_0_1 (PFloat float_0_9) float_0_09
  | Raise _ => False
  end /\
  match fst (@convert sample_runtime "usd" "eur" float_100 eur_env empty_world) with
  | Ok resp => conv_converted_amount resp = float_90
  | Raise _ => False
  end.
Proof.
  split.
  - destruct (@convert sample_runtime "usd" "eur" float_0_1 eur_env empty_world)
      as [[resp | e] w'] eqn:Hrun; simpl.
    + destruct (proj1 (@converted_amount_is_rounded_product sample_runtime)
                  eur_env empty_world "usd" "eur" float_0_1 resp w' Hrun)
        as (_ & _ & Hrounded).
      specialize (Hrounded (conj eq_refl eq_refl)).
      vm_compute in Hrun. injection Hrun as <- _.
      split; [reflexivity | split; [reflexivity | exact Hrounded]].
    + vm_compute in Hrun. discriminate Hrun.
  - destruct (@convert sample_runtime "usd" "eur" float_100 eur_env empty_world)
      as [[resp | e] w'] eqn:Hrun; simpl.
    + apply (proj1 (proj2 (proj2 (@converted_amount_is_rounded_product sample_runtime)))
               eur_env empty_world "usd" "eur" resp w' Hrun).
      vm_compute in Hrun. injection Hrun as <- _. reflexivity.
    + vm_compute in Hrun. discriminate Hrun.
Defined.

(** [failing_crypto_call_cache_effect] on the sample provider: the failing
    call for bar leaves no price entry behind. *)
Lemma failing_crypto_call_cache_effect_witness :
  CACHE (snd (@get_crypto_price sample_runtime "bar" "usd" foo_env empty_world))
    !! crypto_cache_key "bar" "usd" = None.
Proof.
  destruct (proj1 (@failing_crypto_call_cache_effect sample_runtime)
              foo_env empty_world "bar" "usd"
              (HTTPException 500
                 "Internal server error while processing crypto rates: 404: Crypto symbol 'BAR' not found on CoinGecko")
              (snd (@get_crypto_price sample_runtime "bar" "usd" foo_env empty_world))
              eq_refl)
    as [Hsame | Hnone]; [rewrite Hsame; reflexivity | exact Hnone].
Defined.

(** [written_entries_ttl] on the sample provider: the price entry of a
    fallback resolution expires 900 seconds after a reading of the call, the
    catalog entry 86400 seconds after one. *)
Lemma written_entries_ttl_witness :
  exists e_price e_list n m,
    CACHE (snd (@get_crypto_price sample_runtime "FOO" "usd" foo_env empty_world))
      !! crypto_cache_key "FOO" "usd" = Some e_price /\
    expires_at e_price = clock foo_env n + 900 /\
    CACHE (snd (@get_crypto_price sample_runtime "FOO" "usd" foo_env empty_world))
      !! list_cache_key = Some e_list /\
    expires_at e_list = clock foo_env m + 86400.
Proof.
  pose proof (proj2 (@written_entries_ttl sample_runtime) (CryptoCall "FOO" "usd")
                foo_env empty_world) as Httl.
  destruct (Httl (crypto_cache_key "FOO" "usd") {| value := PInt 3; expires_at := 903 |}
              eq_refl)
    as [Hold | (n & _ & [[_ Hn] | (Hkey & _)])];
    [discriminate Hold | | discriminate Hkey].
  destruct (Httl list_cache_key {| value := foo_catalog; expires_at := 86401 |} eq_refl)
    as [Hold | (m & _ & [[Hkey _] | (_ & _ & _ & Hm)])];
    [discriminate Hold | discriminate Hkey |].
  exists {| value := PInt 3; expires_at := 903 |},
    {| value := foo_catalog; expires_at := 86401 |}, n, m.
  repeat split; [exact Hn | exact Hm].
Defined.

(** * How resolutions fail *)

Lemma transport_error_None_2xx resp :
  transport_error (Responded resp) = None <-> is_2xx resp.
Proof.
  unfold transport_error, is_2xx.
  destruct (Z.leb_spec 200 (status_code resp));
    destruct (Z.leb_spec (status_code resp) 299); simpl; split; try done; lia.
Qed.

Lemma transport_error_status resp e :
  transport_error (Responded resp) = Some e ->
  ~ is_2xx resp /\ e = HTTPStatusError (status_code resp).
Proof.
  intros He. split.
  - intros H2xx. apply transport_error_None_2xx in H2xx. congruence.
  - unfold transport_error in He.
    destruct (Z.leb 200 (status_code resp) && Z.leb (status_code resp) 299);
      congruence.
Qed.

Section Reports.

Variable h : exc -> exc.

Lemma reports_ret {A} (a : A) : reports h (ret a).
Proof. intros E w. exists []. simpl. by rewrite app_nil_r. Qed.

Lemma reports_cache_get key : reports h (cache_get key).
Proof.
  intros E w. exists [].
  destruct (cache_get key E w) as [r w'] eqn:Hrun.
  apply cache_get_inv in Hrun as (Hreq & _ & v & -> & _). simpl.
  by rewrite Hreq, app_nil_r.
Qed.

Lemma reports_cache_set key v ttl : reports h (cache_set key v ttl).
Proof.
  intros E w. exists []. rewrite cache_set_eq. simpl. by rewrite app_nil_r.
Qed.

Lemma reports_bind {A B} (m : M A) (k : A -> M B) :
  reports h m -> (forall a, reports h (k a)) -> reports h (bind m k).
Proof.
  intros Hm Hk E w. unfold bind.
  destruct (Hm E w) as (new1 & Hreq1 & Hres1).
  destruct (m E w) as [[a | e] w1]; simpl in *; [| by exists new1].
  destruct (Hk a E w1) as (new2 & Hreq2 & Hres2).
  exists (new1 ++ new2)%list. split; [by rewrite Hreq2, Hreq1, app_assoc |].
  destruct (fst (k a E w1)) as [b | err]; simpl in *.
  - by apply Forall_app.
  - destruct Hres2 as [(pre & uo & e & -> & Hpre & Hlast & ->) | (Hall & e & He & ->)].
    + left. exists (new1 ++ pre)%list, uo, e.
      split; [by rewrite app_assoc |]. split; [by apply Forall_app | done].
    + right. split; [by apply Forall_app | eauto].
Qed.

End Reports.

Lemma reports_raise {A} (e : exc) :
  app_level e -> reports (fun e => e) (@raise A e).
Proof.
  intros He E w. exists []. simpl. rewrite app_nil_r. split; [done |].
  right. split; [constructor | eauto].
Qed.

Lemma reports_lift {A} (r : result A) :
  (forall e, r = Raise e -> app_level e) -> reports (fun e => e) (lift r).
Proof.
  intros Hr E w. exists []. simpl. rewrite app_nil_r. split; [done |].
  destruct r as [a | e]; simpl; [constructor |].
  right. split; [constructor | eauto].
Qed.

Lemma reports_json resp : reports (fun e => e) (json resp).
Proof.
  unfold json. destruct (body resp); [apply reports_ret | by apply reports_raise].
Qed.

Lemma reports_exchange {B} url (k : Response -> unit -> M B) :
  (forall resp u, reports (fun e => e) (k resp u)) ->
  reports (fun e => e)
    (bind (client_get url) (fun resp => bind (raise_for_status resp) (k resp))).
Proof.
  intros Hk E w. rewrite exchange_unfold.
  destruct (net E (steps w) url) as [resp | msg].
  - destruct (Z.leb 200 (status_code resp) && Z.leb (status_code resp) 299) eqn:H2xx.
    + destruct (Hk resp tt E (logged w url (Responded resp))) as (new & Hreq & Hres).
      assert (Hok : transport_error (snd (url, Responded resp)) = None)
        by (simpl; by rewrite H2xx).
      exists ((url, Responded resp) :: new). split.
      * rewrite Hreq. simpl. by rewrite <- app_assoc.
      * destruct (fst (k resp tt E (logged w url (Responded resp)))) as [b | err];
          simpl in *.
        -- by constructor.
        -- destruct Hres
             as [(pre & uo & e & -> & Hpre & Hlast & ->) | (Hall & e & He & ->)].
           ++ left. exists ((url, Responded resp) :: pre), uo, e.
              split; [done |]. split; [by constructor | done].
           ++ right. split; [by constructor | eauto].
    + exists [(url, Responded resp)]. split; [done |]. simpl. left.
      exists [], (url, Responded resp), (HTTPStatusError (status_code resp)).
      simpl. rewrite H2xx. done.
  - exists [(url, Failed msg)]. split; [done |]. simpl. left.
    by exists [], (url, Failed msg), (RequestError msg).
Qed.

Lemma reports_try_except {A} (m : M A) (h : exc -> exc) :
  reports (fun e => e) m -> reports h (try_except m h).
Proof.
  intros Hm E w. unfold try_except.
  destruct (Hm E w) as (new & Hreq & Hres). exists new.
  destruct (m E w) as [[a | e] w1]; simpl in *; [done |].
  split; [done |].
  destruct Hres as [(pre & uo & e' & -> & Hpre & Hlast & ->) | (Hall & e' & He & ->)].
  - left. by exists pre, uo, e'.
  - right. eauto.
Qed.

Lemma get_app_level v k e : Py.get v k = Raise e -> app_level e.
Proof. unfold Py.get. destruct v; intros He; simplify_eq; done. Qed.

Lemma get_default_app_level v key dflt e :
  Py.get_default v key dflt = Raise e -> app_level e.
Proof.
  unfold Py.get_default. destruct v; try (intros He; simplify_eq; done).
  destruct key; intros He; simplify_eq; done.
Qed.

Lemma getitem_app_level v k e : Py.getitem v k = Raise e -> app_level e.
Proof.
  unfold Py.getitem. destruct v; try (intros He; simplify_eq; done).
  destruct (Py.lookup_item d k); intros He; simplify_eq; done.
Qed.

Lemma first_coin_id_app_level items symbol_upper e :
  first_coin_id items symbol_upper = Raise e -> app_level e.
Proof.
  induction items as [| c items IH]; simpl; [done |].
  destruct (Py.getitem c "symbol") as [sym | e1] eqn:Hsym;
    [| intros He; simplify_eq; by eapply getitem_app_level].
  destruct sym; simpl; try (intros He; simplify_eq; done).
  destruct (String.eqb (upper s) symbol_upper); [apply getitem_app_level | done].
Qed.

Lemma next_coin_id_app_level coins_list symbol_upper e :
  next_coin_id coins_list symbol_upper = Raise e -> app_level e.
Proof.
  unfold next_coin_id.
  destruct coins_list; simpl; try (intros He; simplify_eq; done);
    apply first_coin_id_app_level.
Qed.

(** One structural step of a proof of [reports h m]. *)
Ltac reports_step :=
  lazymatch goal with
  | |- reports _ (bind (client_get _) _) => apply reports_exchange; intros ? ?
  | |- reports _ (bind _ _) => apply reports_bind; [| intros ?]
  | |- reports _ (ret _) => apply reports_ret
  | |- reports _ (raise _) => apply reports_raise; exact I
  | |- reports _ (lift _) =>
      apply reports_lift; intros ? ?;
      first [ eapply get_app_level; eassumption
            | eapply get_default_app_level; eassumption
            | eapply next_coin_id_app_level; eassumption ]
  | |- reports _ (json _) => apply reports_json
  | |- reports _ (cache_get _) => apply reports_cache_get
  | |- reports _ (cache_set _ _ _) => apply reports_cache_set
  | |- reports _ (if ?b then _ else _) => destruct b
  | |- reports _ (match ?x with _ => _ end) => destruct x
  end.

Section Taxonomy.
Context `{Runtime}.

Lemma fiat_reports base target :
  reports fiat_except (get_fiat_rate base target).
Proof.
  unfold get_fiat_rate. cbv zeta.
  apply reports_bind; [apply reports_cache_get | intros cached].
  destruct (negb (Py.is_None cached)); [apply reports_ret |].
  apply reports_bind.
  - apply reports_try_except. repeat reports_step.
  - intros rate. repeat reports_step.
Qed.

Lemma crypto_reports symbol vs_currency :
  reports crypto_except (get_crypto_price symbol vs_currency).
Proof.
  unfold get_crypto_price. cbv zeta.
  apply reports_bind; [apply reports_cache_get | intros cached].
  destruct (negb (Py.is_None cached)); [apply reports_ret |].
  apply reports_bind.
  - apply reports_try_except.
    unfold attempt_mapped, attempt_fallback, load_coins_list, price_via_catalog.
    repeat reports_step.
  - intros [price | price]; repeat reports_step.
Qed.

End Taxonomy.

Section FailureKinds.
Context `{Runtime}.

(** X2.  A failing [get_fiat_rate] is of one of three kinds, decided by the
    requests it sent: its last request was answered with a status outside
    2xx and the error is 502 naming that status (429 included: the fiat
    resolver has no rate-limit signal); or its last request got no answer
    and the error is 504 with the transport's text; or every request it sent
    was answered 2xx and the error is 500 wrapping an exception of the
    program's own.  No other status, 400 in particular, leaves the
    resolver. *)
Theorem fiat_failure_kinds (E : env) (w w' : world) (base target : string) (err : exc) :
  get_fiat_rate base target E w = (Raise err, w') ->
  (exists pre url resp,
     new_requests w w' = (pre ++ [(url, Responded resp)])%list /\
     ~ is_2xx resp /\
     err = HTTPException 502
             ("Failed to fetch fiat rates (HTTP Error "
                +:+ pretty (status_code resp) +:+ ")")) \/
  (exists pre url msg,
     new_requests w w' = (pre ++ [(url, Failed msg)])%list /\
     err = HTTPException 504
             ("Timeout or network error connecting to ExchangeRate-API: " +:+ msg)) \/
  (Forall (fun uo => exists resp, snd uo = Responded resp /\ is_2xx resp)
          (new_requests w w') /\
   exists e, app_level e /\
     err = HTTPException 500
             ("Internal server error while processing fiat rates: " +:+ exc_str e)).
Proof.
  intros Hrun.
  destruct (fiat_reports base target E w) as (new & Hreq & Hres).
  rewrite Hrun in Hreq, Hres. simpl in Hreq, Hres.
  rewrite (new_requests_eq _ _ _ Hreq).
  destruct Hres as [(pre & [url o] & e & -> & _ & Hlast & ->) | (Hall & e & He & ->)].
  - destruct o as [resp | msg]; simpl in Hlast.
    + apply transport_error_status in Hlast as [Hno ->]. left. by exists pre, url, resp.
    + injection Hlast as <-. right; left. by exists pre, url, msg.
  - right; right. split.
    + eapply Forall_impl; [exact Hall |]. intros [url [resp | msg]]; simpl; [| done].
      intros Hok%transport_error_None_2xx. eauto.
    + exists e. split; [done |]. by destruct e.
Qed.

(** X8.  A failing [get_crypto_price] is of one of four kinds: its last
    request was answered with status 429 and the error is the 429 rate-limit
    signal; or with another status outside 2xx and the error is 502 naming
    that status; or it got no answer and the error is 504; or every request
    was answered 2xx and the error is 500 wrapping an exception of the
    program's own.  No other status, 404 in particular, leaves the
    resolver. *)
Theorem crypto_failure_kinds (E : env) (w w' : world) (symbol vs_currency : string)
    (err : exc) :
  get_crypto_price symbol vs_currency E w = (Raise err, w') ->
  (exists pre url resp,
     new_requests w w' = (pre ++ [(url, Responded resp)])%list /\
     status_code resp = 429 /\
     err = HTTPException 429
             "Rate limit exceeded on CoinGecko. Increase cache TTL or upgrade CoinGecko plan.") \/
  (exists pre url resp,
     new_requests w w' = (pre ++ [(url, Responded resp)])%list /\
     ~ is_2xx resp /\ status_code resp <> 429 /\
     err = HTTPException 502
             ("Failed to fetch crypto price (HTTP Error "
                +:+ pretty (status_code resp) +:+ ")")) \/
  (exists pre url msg,
     new_requests w w' = (pre ++ [(url, Failed msg)])%list /\
     err = HTTPException 504
             ("Timeout or network error connecting to CoinGecko: " +:+ msg)) \/
  (Forall (fun uo => exists resp, snd uo = Responded resp /\ is_2xx resp)
          (new_requests w w') /\
   exists e, app_level e /\
     err = HTTPException 500
             ("Internal server error while processing crypto rates: " +:+ exc_str e)).
Proof.
  intros Hrun.
  destruct (crypto_reports symbol vs_currency E w) as (new & Hreq & Hres).
  rewrite Hrun in Hreq, Hres. simpl in Hreq, Hres.
  rewrite (new_requests_eq _ _ _ Hreq).
  destruct Hres as [(pre & [url o] & e & -> & _ & Hlast & ->) | (Hall & e & He & ->)].
  - destruct o as [resp | msg]; simpl in Hlast.
    + apply transport_error_status in Hlast as [Hno ->]. simpl.
      destruct (Z.eqb_spec (status_code resp) 429) as [H429 | Hother].
      * left. by exists pre, url, resp.
      * right; left. by exists pre, url, resp.
    + injection Hlast as <-. right; right; left. by exists pre, url, msg.
  - right; right; right. split.
    + eapply Forall_impl; [exact Hall |]. intros [url [resp | msg]]; simpl; [| done].
      intros Hok%transport_error_None_2xx. eauto.
    + exists e. split; [done |]. by destruct e.
Qed.

Lemma fiat_except_HTTPException e :
  exists code detail, fiat_except e = HTTPException code detail.
Proof. destruct e; simpl; eauto. Qed.

Lemma crypto_except_HTTPException e :
  exists code detail, crypto_except e = HTTPException code detail.
Proof.
  destruct e as [| code | |]; simpl; eauto.
  destruct (Z.eqb code 429); eauto.
Qed.

(** X9.  The endpoints add nothing to a resolver's failure: whatever
    [get_fiat_rate] (resp. [get_crypto_price]) raises, [convert] (resp.
    [crypto_convert]) raises the same exception and leaves the same world;
    the endpoint's own [except Exception] clause never rewrites it. *)
Theorem endpoints_pass_failures_on :
  (forall E w from_currency to_currency amount err w',
     get_fiat_rate from_currency to_currency E w = (Raise err, w') ->
     convert from_currency to_currency amount E w = (Raise err, w')) /\
  (forall E w symbol vs_currency amount err w',
     get_crypto_price symbol vs_currency E w = (Raise err, w') ->
     crypto_convert symbol vs_currency amount E w = (Raise err, w')).
Proof.
  split.
  - intros E w from_currency to_currency amount err w' Hrun.
    destruct (fiat_reports from_currency to_currency E w) as (new & _ & Hres).
    unfold convert. glue. rewrite Hrun in Hres |- *. simpl in *.
    assert (exists code detail, err = HTTPException code detail) as (c & d & ->).
    { destruct Hres as [(_ & _ & e & _ & _ & _ & ->) | (_ & e & _ & ->)];
        apply fiat_except_HTTPException. }
    done.
  - intros E w symbol vs_currency amount err w' Hrun.
    destruct (crypto_reports symbol vs_currency E w) as (new & _ & Hres).
    unfold crypto_convert. glue. rewrite Hrun in Hres |- *. simpl in *.
    assert (exists code detail, err = HTTPException code detail) as (c & d & ->).
    { destruct Hres as [(_ & _ & e & _ & _ & _ & ->) | (_ & e & _ & ->)];
        apply crypto_except_HTTPException. }
    done.
Qed.

End FailureKinds.

(** * No retries *)

Lemma sends_weaken {A} (m : M A) n c n' c' :
  (n <= n')%nat -> (c <= c')%nat -> sends_at_most n c m -> sends_at_most n' c' m.
Proof.
  intros Hn Hc Hm E w. destruct (Hm E w) as (new & Hreq & Hlen & Hcat).
  exists new. split; [done |]. split; lia.
Qed.

Lemma sends_quiet {A} (m : M A) P W :
  always (touches P W (fun _ => False)) m -> sends_at_most 0 0 m.
Proof.
  intros Hm E w. destruct (Hm E w) as (_ & (new & Hreq & Hnew) & _).
  destruct new as [| uo new]; [| by apply Forall_cons in Hnew as [[] _]].
  exists []. simpl. split; [done | lia].
Qed.

Lemma sends_bind {A B} (m : M A) (k : A -> M B) n1 c1 n2 c2 :
  sends_at_most n1 c1 m -> (forall a, sends_at_most n2 c2 (k a)) ->
  sends_at_most (n1 + n2) (c1 + c2) (bind m k).
Proof.
  intros Hm Hk E w. unfold bind.
  destruct (Hm E w) as (new1 & Hreq1 & Hlen1 & Hcat1).
  destruct (m E w) as [[a | e] w1]; simpl in *.
  - destruct (Hk a E w1) as (new2 & Hreq2 & Hlen2 & Hcat2).
    exists (new1 ++ new2)%list. split; [by rewrite Hreq2, Hreq1, app_assoc |].
    rewrite length_app, catalog_fetches_app. lia.
  - exists new1. split; [done |]. lia.
Qed.

Lemma sends_try_except {A} (m : M A) (h : exc -> exc) n c :
  sends_at_most n c m -> sends_at_most n c (try_except m h).
Proof.
  intros Hm E w. unfold try_except.
  destruct (Hm E w) as (new & Hreq & Hlen). exists new.
  by destruct (m E w) as [[a | e] w1].
Qed.

Lemma sends_client_get url :
  sends_at_most 1 (if String.eqb url coins_list_url then 1 else 0) (client_get url).
Proof.
  intros E w. exists [(url, net E (steps w) url)]. split.
  - unfold client_get. by destruct (net E (steps w) url).
  - simpl. destruct (String.eqb url coins_list_url); lia.
Qed.

(** Code without requests. *)
Ltac quiet :=
  apply (sends_weaken _ 0 0); [lia | lia |];
  apply (sends_quiet _ (fun _ => True) (fun _ _ => True));
  repeat touch_step;
  first [ by apply touches_cache_get | by apply touches_cache_set ].

Section Budgets.
Context `{Runtime}.

Lemma price_request_budget coin_id vs :
  sends_at_most 1 0 (client_get (price_url coin_id vs)).
Proof.
  pose proof (sends_client_get (price_url coin_id vs)) as Hs.
  destruct (String.eqb_spec (price_url coin_id vs) coins_list_url) as [Heq | _];
    [by apply price_url_not_coins_list_url in Heq | done].
Qed.

Lemma fiat_budget base target : sends_at_most 1 0 (get_fiat_rate base target).
Proof.
  unfold get_fiat_rate. cbv zeta.
  apply (sends_bind _ _ 0 0 1 0); [quiet | intros cached].
  destruct (negb (Py.is_None cached)); [quiet |].
  apply (sends_bind _ _ 1 0 0 0); [| intros rate; quiet].
  apply sends_try_except.
  apply (sends_bind _ _ 1 0 0 0); [| intros resp; quiet].
  pose proof (sends_client_get (FIAT_API_BASE_URL +:+ upper base)) as Hs.
  destruct (String.eqb_spec (FIAT_API_BASE_URL +:+ upper base) coins_list_url)
    as [Heq | _]; [by apply fiat_url_not_coins_list_url in Heq | done].
Qed.

Lemma mapped_budget coin_id vs cache_key :
  sends_at_most 1 0 (attempt_mapped coin_id vs cache_key).
Proof.
  unfold attempt_mapped. destruct (Py.truthy coin_id); [| quiet].
  apply (sends_bind _ _ 1 0 0 0); [apply price_request_budget | intros resp; quiet].
Qed.

Lemma mapped_budget_skip coin_id vs cache_key :
  Py.truthy coin_id = false ->
  sends_at_most 0 0 (attempt_mapped coin_id vs cache_key).
Proof. intros Hno. unfold attempt_mapped. rewrite Hno. quiet. Qed.

Lemma fallback_budget symbol_upper vs :
  sends_at_most 2 1 (attempt_fallback symbol_upper vs).
Proof.
  unfold attempt_fallback.
  apply (sends_bind _ _ 1 1 1 0).
  - unfold load_coins_list.
    apply (sends_bind _ _ 0 0 1 1); [quiet | intros cached].
    destruct (Py.is_None cached); [| quiet].
    apply (sends_bind _ _ 1 1 0 0); [| intros resp; quiet].
    pose proof (sends_client_get coins_list_url) as Hs.
    by rewrite String.eqb_refl in Hs.
  - intros coins_list. unfold price_via_catalog.
    apply (sends_bind _ _ 0 0 1 0); [quiet | intros coin_id].
    destruct (negb (Py.truthy coin_id)); [quiet |].
    apply (sends_bind _ _ 1 0 0 0); [apply price_request_budget | intros resp; quiet].
Qed.

Lemma crypto_budget symbol vs_currency :
  sends_at_most
    (if Py.truthy (symbol_map_get CRYPTO_SYMBOL_MAP (upper symbol)) then 1 else 2)
    (if Py.truthy (symbol_map_get CRYPTO_SYMBOL_MAP (upper symbol)) then 0 else 1)
    (get_crypto_price symbol vs_currency).
Proof.
  unfold get_crypto_price. cbv zeta.
  destruct (Py.truthy (symbol_map_get CRYPTO_SYMBOL_MAP (upper symbol))) eqn:Hmapped;
    simpl negb; cbv iota.
  - apply (sends_bind _ _ 0 0 1 0); [quiet | intros cached].
    destruct (negb (Py.is_None cached)); [quiet |].
    apply (sends_bind _ _ 1 0 0 0); [| intros [price | price]; quiet].
    apply sends_try_except.
    apply (sends_bind _ _ 1 0 0 0); [apply mapped_budget | intros a1; quiet].
  - apply (sends_bind _ _ 0 0 2 1); [quiet | intros cached].
    destruct (negb (Py.is_None cached)); [quiet |].
    apply (sends_bind _ _ 2 1 0 0); [| intros [price | price]; quiet].
    apply sends_try_except.
    apply (sends_bind _ _ 0 0 2 1); [by apply mapped_budget_skip | intros a1].
    destruct a1 as [price | price]; [quiet |].
    apply (sends_bind _ _ 2 1 0 0); [| intros p; quiet].
    apply (sends_bind _ _ 2 1 0 0); [apply fallback_budget | intros p; quiet].
Qed.

End Budgets.

Lemma is_None_eq v : Py.is_None v = true <-> v = PNone.
Proof. by destruct v. Qed.

Section NoRetries.
Context `{Runtime}.

(** X4.  Whatever the cache holds and whatever the provider answers, one
    call of [get_fiat_rate] sends at most one request, and only to the rate
    table of the uppercased base currency: there is no retry. *)
Theorem fiat_sends_one_request_at_most (E : env) (w : world) (base target : string) :
  (length (new_requests w (snd (get_fiat_rate base target E w))) <= 1)%nat /\
  Forall (fun uo => fst uo = FIAT_API_BASE_URL +:+ upper base)
         (new_requests w (snd (get_fiat_rate base target E w))).
Proof.
  destruct (fiat_budget base target E w) as (new & Hreq & Hlen & _).
  rewrite (new_requests_eq _ _ _ Hreq). split; [done |].
  destruct (fiat_touches (fun _ => True) (fun _ _ => True)
              (fun url => url = FIAT_API_BASE_URL +:+ upper base)
              base target I I eq_refl E w) as (_ & (new' & Hreq' & Hurl) & _).
  rewrite Hreq in Hreq'. by apply app_inv_head in Hreq' as <-.
Qed.

(** X5.  One call of [get_crypto_price] sends at most two requests, at most
    one of them for the catalog, each either the catalog request or a price
    request in the lowercased currency; for a symbol of the static map it
    sends at most one request and never asks for the catalog. *)
Theorem crypto_sends_two_requests_at_most (E : env) (w : world)
    (symbol vs_currency : string) :
  let new := new_requests w (snd (get_crypto_price symbol vs_currency E w)) in
  (length new <= 2)%nat /\
  (catalog_fetches new <= 1)%nat /\
  Forall (fun uo => fst uo = coins_list_url \/
                    exists coin_id, fst uo = price_url coin_id (lower vs_currency)) new /\
  (symbol_map_get CRYPTO_SYMBOL_MAP (upper symbol) <> PNone ->
   (length new <= 1)%nat /\ catalog_fetches new = 0%nat).
Proof.
  intros new. subst new.
  destruct (crypto_budget symbol vs_currency E w) as (new & Hreq & Hlen & Hcat).
  rewrite (new_requests_eq _ _ _ Hreq).
  split; [destruct (Py.truthy _) in Hlen; lia |].
  split; [destruct (Py.truthy _) in Hcat; lia |].
  split.
  - destruct (crypto_touches (fun _ => True) (fun _ _ => True)
                (fun url => url = coins_list_url \/
                   exists coin_id, url = price_url coin_id (lower vs_currency))
                symbol vs_currency I I I I (or_introl eq_refl)
                (fun coin_id => or_intror (ex_intro _ coin_id eq_refl)) E w)
      as (_ & (new' & Hreq' & Hurl) & _).
    rewrite Hreq in Hreq'. by apply app_inv_head in Hreq' as <-.
  - intros Hmapped.
    rewrite symbol_map_truthy in Hlen, Hcat.
    destruct (Py.is_None (symbol_map_get CRYPTO_SYMBOL_MAP (upper symbol))) eqn:Hnone.
    + by apply is_None_eq in Hnone.
    + simpl in *. lia.
Qed.

(** X3.  A call of [get_fiat_rate] that ends in an error has written nothing
    to the cache: every other key holds what it held, and the pair's own key
    holds what it held or, if the call purged an expired entry, nothing. *)
Theorem failing_fiat_call_leaves_cache (E : env) (w w' : world)
    (base target : string) (err : exc) :
  get_fiat_rate base target E w = (Raise err, w') ->
  (forall k, k <> fiat_cache_key base target -> CACHE w' !! k = CACHE w !! k) /\
  (CACHE w' !! fiat_cache_key base target = CACHE w !! fiat_cache_key base target \/
   CACHE w' !! fiat_cache_key base target = None).
Proof.
  intros Hrun.
  assert (Hpost : post is_Raise
            (touches (fun k => k = fiat_cache_key base target)
                     (fun _ _ => False) (fun _ => True))
            (get_fiat_rate base target)).
  { unfold get_fiat_rate. cbv zeta.
    apply post_bind; [apply touches_trans | by apply touches_cache_get | intros cached].
    destruct (negb (Py.is_None cached)); [apply post_always, always_ret, touches_refl |].
    apply post_bind_split with (Q1 := is_Raise); [apply touches_trans | | done |].
    - apply post_always, always_try_except.
      repeat touch_step. by apply touches_client_get.
    - intros rate. right. intros E0 w0. unfold bind. rewrite cache_set_eq. simpl. tauto. }
  specialize (Hpost E w). rewrite Hrun in Hpost. specialize (Hpost I). simpl in Hpost.
  split.
  - intros k Hk. eapply touches_frame; [exact Hpost | done | by intros _ []].
  - destruct Hpost as (_ & _ & Hcache).
    destruct (Hcache (fiat_cache_key base target))
      as [Heq | [[_ Hnone] | (_ & _ & _ & [] & _)]]; [by left | by right].
Qed.

End NoRetries.

(** * Successful resolutions *)

Section Successes.
Context `{Runtime}.

(** X1.  When the cache misses and the provider answers 2xx with result
    "success" and a rate table that has a non-null rate under the uppercased
    target, [get_fiat_rate] returns that rate, having sent the one request
    for the base's table, and caches this single rate (not the table) under
    the pair's key, to expire [CACHE_TTL_SECONDS] after the clock reading
    taken on caching. *)
Theorem fiat_resolves_rate (E : env) (w w1 : world) (base target : string)
    (resp : Response) (data rates : list (string * pyval)) (rate : pyval) :
  cache_get (fiat_cache_key base target) E w = (Ok PNone, w1) ->
  net E (steps w1) (FIAT_API_BASE_URL +:+ upper base) = Responded resp ->
  is_2xx resp ->
  body resp = Some (PDict data) ->
  Py.lookup_item data "result" = Some (PStr "success") ->
  Py.lookup_item data "rates" = Some (PDict rates) ->
  Py.lookup_item rates (upper target) = Some rate ->
  rate <> PNone ->
  get_fiat_rate base target E w =
    (Ok rate,
     {| CACHE := <[fiat_cache_key base target :=
                     {| value := rate;
                        expires_at := clock E (S (steps w1)) + CACHE_TTL_SECONDS |}]>
                   (CACHE w1);
        steps := S (S (steps w1));
        requests := requests w1 ++
          [(FIAT_API_BASE_URL +:+ upper base, Responded resp)] |}).
Proof.
  intros Hmiss Hnet H2xx Hbody Hresult Hrates Htarget Hrate.
  unfold fiat_cache_key in *.
  unfold get_fiat_rate. cbv zeta. glue.
  rewrite Hmiss. glue.
  rewrite (client_get_Responded _ _ _ _ Hnet), raise_for_status_2xx by done.
  rewrite Hbody. unfold Py.get. rewrite Hresult. simpl. rewrite Hrates. simpl.
  destruct rates as [| item rates']; [done |].
  simpl. rewrite Htarget. simpl. by destruct rate.
Qed.

(** X6.  When the uppercased symbol is in the static map, the cache has no
    price for it and the provider answers the price request 2xx with a
    non-null price under the mapped id and the lowercased currency,
    [get_crypto_price] returns that price after this single request and
    caches it under the price key for [CACHE_TTL_SECONDS]; the catalog is
    neither read nor fetched. *)
Theorem crypto_fast_path_resolves (E : env) (w w1 : world)
    (symbol vs_currency id : string) (resp : Response) (data inner price : pyval) :
  symbol_map_get CRYPTO_SYMBOL_MAP (upper symbol) = PStr id ->
  cache_get (crypto_cache_key symbol vs_currency) E w = (Ok PNone, w1) ->
  net E (steps w1) (price_url (PStr id) (lower vs_currency)) = Responded resp ->
  is_2xx resp ->
  body resp = Some data ->
  Py.get_default data (PStr id) (PDict []) = Ok inner ->
  Py.get inner (lower vs_currency) = Ok price ->
  price <> PNone ->
  get_crypto_price symbol vs_currency E w =
    (Ok price,
     {| CACHE := <[crypto_cache_key symbol vs_currency :=
                     {| value := price;
                        expires_at := clock E (S (steps w1)) + CACHE_TTL_SECONDS |}]>
                   (CACHE w1);
        steps := S (S (steps w1));
        requests := requests w1 ++
          [(price_url (PStr id) (lower vs_currency), Responded resp)] |}).
Proof.
  intros Hmap Hmiss Hnet H2xx Hbody Hinner Hprice Hsome.
  assert (Htruthy : Py.truthy (PStr id) = true).
  { pose proof (symbol_map_truthy (upper symbol)) as Ht. by rewrite Hmap in Ht. }
  unfold crypto_cache_key in *.
  unfold get_crypto_price. cbv zeta. rewrite Hmap. glue.
  rewrite Hmiss. simpl.
  unfold attempt_mapped. rewrite Htruthy. glue.
  rewrite (client_get_Responded _ _ _ _ Hnet), raise_for_status_2xx by done.
  rewrite Hbody. simpl. rewrite Hinner. simpl. rewrite Hprice. simpl.
  by destruct price.
Qed.

End Successes.

(** * Resolving the same crypto pair again *)

Lemma bind_inv {A B} (m : M A) (k : A -> M B) E w r w' :
  bind m k E w = (r, w') ->
  (exists e, m E w = (Raise e, w') /\ r = Raise e) \/
  (exists a w1, m E w = (Ok a, w1) /\ k a E w1 = (r, w')).
Proof.
  unfold bind. destruct (m E w) as [[a | e] w1]; intros Hrun.
  - right. eauto.
  - left. injection Hrun as <- <-. eauto.
Qed.

Section CryptoAgain.
Context `{Runtime}.

Lemma crypto_cache_key_case symbol vs_currency symbol' vs_currency' :
  upper symbol' = upper symbol -> lower vs_currency' = lower vs_currency ->
  crypto_cache_key symbol' vs_currency' = crypto_cache_key symbol vs_currency.
Proof. intros Hs Hv. unfold crypto_cache_key. by rewrite Hs, Hv. Qed.

Lemma crypto_hit E w symbol vs_currency e :
  CACHE w !! crypto_cache_key symbol vs_currency = Some e ->
  value e <> PNone ->
  clock E (steps w) <= expires_at e ->
  get_crypto_price symbol vs_currency E w = (Ok (value e), tick w).
Proof.
  intros Hk Hv Ht. unfold crypto_cache_key in Hk.
  unfold get_crypto_price. cbv zeta. glue.
  rewrite (cache_get_live _ _ _ _ Hk Ht). simpl.
  by destruct (value e).
Qed.

(** The [return] of attempt 1 comes after the price was cached. *)
Lemma mapped_inl_inv coin_id vs cache_key E w price w' :
  attempt_mapped coin_id vs cache_key E w = (Ok (inl price), w') ->
  price <> PNone /\
  exists e, CACHE w' !! cache_key = Some e /\ value e = price.
Proof.
  unfold attempt_mapped.
  destruct (Py.truthy coin_id); [| done]. glue.
  unfold client_get.
  destruct (net E (steps w) _) as [resp | msg]; simpl; [| done].
  unfold raise_for_status.
  destruct (Z.leb 200 (status_code resp) && Z.leb (status_code resp) 299);
    simpl; [| done].
  destruct (body resp) as [data |]; simpl; [| done].
  destruct (Py.get_default data coin_id (PDict [])) as [inner |]; simpl; [| done].
  destruct (Py.get inner vs) as [found |]; simpl; [| done].
  destruct (Py.is_None found) eqn:Hfound; simpl; [done |].
  intros Hrun. injection Hrun as <- <-. simpl.
  split; [by destruct found |]. eexists. by rewrite lookup_insert_eq.
Qed.

(** A successful crypto resolution leaves the price it returns in the
    cache. *)
Lemma crypto_Ok_inv E w symbol vs_currency price w' :
  get_crypto_price symbol vs_currency E w = (Ok price, w') ->
  price <> PNone /\
  exists e, CACHE w' !! crypto_cache_key symbol vs_currency = Some e /\ value e = price.
Proof.
  unfold crypto_cache_key, get_crypto_price. cbv zeta.
  intros Hrun. apply bind_inv in Hrun as [(e & _ & He) | (cached & w1 & Hget & Hrun)];
    [done |].
  apply cache_get_inv in Hget as (_ & _ & c & Hc & Hcases). injection Hc as <-.
  destruct (Py.is_None cached) eqn:Hnone; simpl in Hrun.
  - apply bind_inv in Hrun as [(e & _ & He) | (exit & w2 & Hbody & Hrun)]; [done |].
    destruct exit as [p | p].
    + (* returned from attempt 1 *)
      injection Hrun as <- <-. unfold try_except in Hbody.
      match type of Hbody with
      | context [bind ?m ?k E w1] => destruct (bind m k E w1) as [[x | e] w3] eqn:Hb
      end; [| done].
      injection Hbody as -> ->.
      apply bind_inv in Hb as [(e & _ & He) | (a1 & w3 & Hm & Hb)]; [done |].
      destruct a1 as [p' | price0].
      * injection Hb as <- <-. by apply mapped_inl_inv in Hm.
      * apply bind_inv in Hb as [(e & _ & He) | (p0 & w4 & _ & Hb)]; [done |].
        destruct p0 as [p0 |]; [| done].
        by destruct (Py.is_None p0).
    + (* ran off the end of the try block *)
      apply bind_inv in Hrun as [(e & _ & He) | ([] & w3 & Hset & Hrun)]; [done |].
      injection Hrun as <- <-. rewrite cache_set_eq in Hset. injection Hset as <-.
      simpl. unfold try_except in Hbody.
      match type of Hbody with
      | context [bind ?m ?k E w1] => destruct (bind m k E w1) as [[x | e] w3] eqn:Hb
      end; [| done].
      injection Hbody as -> ->.
      apply bind_inv in Hb as [(e & _ & He) | (a1 & w3 & Hm & Hb)]; [done |].
      destruct a1 as [p' | price0]; [done |].
      apply bind_inv in Hb as [(e & _ & He) | (p0 & w4 & _ & Hb)]; [done |].
      destruct p0 as [p0 |]; [| done].
      destruct (Py.is_None p0) eqn:Hp0; [done |].
      injection Hb as <- <-.
      split; [by destruct p0 |]. eexists. by rewrite lookup_insert_eq.
  - injection Hrun as <- <-.
    destruct Hcases as [-> | (e & Hk & He & _ & ->)]; [done |].
    split; [by destruct cached |]. by exists e.
Qed.

(** A live price entry survives any call made before it expires. *)
Lemma run_call_keeps_crypto_entry c E w symbol vs_currency e :
  CACHE w !! crypto_cache_key symbol vs_currency = Some e ->
  value e <> PNone ->
  clock E (steps w) <= expires_at e ->
  CACHE (snd (run_call c E w)) !! crypto_cache_key symbol vs_currency = Some e.
Proof.
  intros Hk Hv Ht. destruct c as [base target | symbol' vs_currency']; simpl.
  - rewrite <- Hk.
    eapply (touches_frame (fun k => k = fiat_cache_key base target)
              (fun k _ => k = fiat_cache_key base target) (fun _ => True)).
    + by apply fiat_touches.
    + intros Heq. symmetry in Heq. by apply fiat_key_not_crypto_key in Heq.
    + intros _ Heq. symmetry in Heq. by apply fiat_key_not_crypto_key in Heq.
  - destruct (decide (crypto_cache_key symbol' vs_currency'
                      = crypto_cache_key symbol vs_currency)) as [Heq | Hne].
    + rewrite <- Heq in Hk. by rewrite (crypto_hit _ _ _ _ _ Hk Hv Ht), Heq in *.
    + rewrite <- Hk.
      eapply (touches_frame
                (fun k => k = crypto_cache_key symbol' vs_currency' \/ k = list_cache_key)
                (fun k _ => k = crypto_cache_key symbol' vs_currency' \/ k = list_cache_key)
                (fun _ => True)).
      * apply crypto_touches; auto.
      * intros [Heq | Heq]; [congruence | by apply crypto_key_not_list_key in Heq].
      * intros _ [Heq | Heq]; [congruence | by apply crypto_key_not_list_key in Heq].
Qed.

Lemma run_calls_keep_crypto_entry cs E w symbol vs_currency e :
  monotonic E ->
  CACHE w !! crypto_cache_key symbol vs_currency = Some e ->
  value e <> PNone ->
  clock E (steps (run_calls cs E w)) <= expires_at e ->
  CACHE (run_calls cs E w) !! crypto_cache_key symbol vs_currency = Some e.
Proof.
  intros Hmono. revert w. induction cs as [| c cs IH]; intros w Hk Hv Ht; simpl in *;
    [done |].
  apply IH; [| done | done].
  apply run_call_keeps_crypto_entry; [done | done |].
  etrans; [| exact Ht]. apply Hmono.
  etrans; [apply (run_call_steps c E w) | apply run_calls_steps].
Qed.

(** X7.  After a successful [get_crypto_price symbol vs_currency] the price
    it returned is in the cache under the price key.  Whatever calls are
    made in between on a monotonic clock, every later call for the same
    symbol and currency, in any letter case, at a clock reading not past
    that entry's expiry returns the same price and sends no request. *)
Theorem crypto_second_call_is_a_cache_hit (E : env) (w w1 : world)
    (symbol vs_currency : string) (price : pyval) :
  monotonic E ->
  get_crypto_price symbol vs_currency E w = (Ok price, w1) ->
  exists e : entry,
    CACHE w1 !! crypto_cache_key symbol vs_currency = Some e /\
    value e = price /\
    forall (between : list call) (symbol' vs_currency' : string),
      upper symbol' = upper symbol ->
      lower vs_currency' = lower vs_currency ->
      let w2 := run_calls between E w1 in
      clock E (steps w2) <= expires_at e ->
      get_crypto_price symbol' vs_currency' E w2 = (Ok price, tick w2) /\
      new_requests w2 (snd (get_crypto_price symbol' vs_currency' E w2)) = [].
Proof.
  intros Hmono Hrun.
  apply crypto_Ok_inv in Hrun as (Hprice & e & Hk & Hv).
  exists e. split; [done |]. split; [done |].
  intros between symbol' vs_currency' Hs Hvs w2 Htime.
  assert (Hv' : value e <> PNone) by (by rewrite Hv).
  assert (Hk2 : CACHE w2 !! crypto_cache_key symbol vs_currency = Some e)
    by (by apply run_calls_keep_crypto_entry).
  rewrite <- (crypto_cache_key_case symbol vs_currency symbol' vs_currency' Hs Hvs) in Hk2.
  rewrite (crypto_hit _ _ _ _ _ Hk2 Hv' Htime), Hv. split; [done |].
  unfold new_requests, tick. simpl. by rewrite drop_all.
Qed.

(** X10.  The endpoints do not check that the resolved rate is a number.
    When the resolver returns a value that is not a number (a JSON string,
    list or object), the multiplication raises [TypeError], which leaves the
    endpoint as it is (no [HTTPException]); the resolver has cached the
    value by then, so it stays under its key. *)
Theorem endpoints_reject_non_numeric_rate :
  (forall E w from_currency to_currency amount rate w',
     get_fiat_rate from_currency to_currency E w = (Ok rate, w') ->
     is_number rate = false ->
     convert from_currency to_currency amount E w = (Raise (PyError TypeError), w') /\
     exists e, CACHE w' !! fiat_cache_key from_currency to_currency = Some e /\
               value e = rate) /\
  (forall E w symbol vs_currency amount price w',
     get_crypto_price symbol vs_currency E w = (Ok price, w') ->
     is_number price = false ->
     crypto_convert symbol vs_currency amount E w = (Raise (PyError TypeError), w') /\
     exists e, CACHE w' !! crypto_cache_key symbol vs_currency = Some e /\
               value e = price).
Proof.
  split.
  - intros E w from_currency to_currency amount rate w' Hrun Hnum. split.
    + unfold convert. glue. rewrite Hrun. simpl.
      unfold PyFloat.mul. by destruct rate.
    + apply fiat_Ok_inv in Hrun as (_ & e & Hk & Hv & _). eauto.
  - intros E w symbol vs_currency amount price w' Hrun Hnum. split.
    + unfold crypto_convert. glue. rewrite Hrun. simpl.
      unfold PyFloat.mul. by destruct price.
    + apply crypto_Ok_inv in Hrun as (_ & e & Hk & Hv). eauto.
Qed.

End CryptoAgain.

(** * Catalog edge cases *)

Section CatalogEdges.
Context `{Runtime}.



(** X12.  A catalog cached as [None] (the provider answered the catalog
    request with JSON null) is never served: whether that entry has expired
    or not, [load_coins_list] sends the catalog request again. *)
Theorem null_catalog_is_fetched_again (E : env) (w : world) (e : entry) :
  CACHE w !! list_cache_key = Some e ->
  value e = PNone ->
  exists o, new_requests w (snd (load_coins_list E w)) = [(coins_list_url, o)].
Proof.
  intros Hk Hv.
  assert (Hget : exists w1, cache_get list_cache_key E w = (Ok PNone, w1) /\
                            requests w1 = requests w).
  { destruct (Z.lt_ge_cases (expires_at e) (clock E (steps w))) as [Hlt | Hge].
    - rewrite (cache_get_expired _ _ _ _ Hk Hlt). eauto.
    - rewrite (cache_get_live _ _ _ _ Hk Hge), Hv. eauto. }
  destruct Hget as (w1 & Hget & Hreq).
  exists (net E (steps w1) coins_list_url).
  unfold load_coins_list. glue. rewrite Hget. simpl.
  unfold client_get.
  destruct (net E (steps w1) coins_list_url) as [resp | msg]; simpl.
  - unfold raise_for_status.
    destruct (Z.leb 200 (status_code resp) && Z.leb (status_code resp) 299); simpl.
    + destruct (body resp); simpl;
        apply new_requests_eq; simpl; by rewrite Hreq.
    + apply new_requests_eq; simpl; by rewrite Hreq.
  - apply new_requests_eq; simpl; by rewrite Hreq.
Qed.

End CatalogEdges.

(** * Cache keys and letter case *)

Lemma colon_free_upper s : colon_free (upper s) = colon_free s.
Proof.
  induction s as [| c s IH]; [done |]. simpl. rewrite <- IH. f_equal. f_equal.
  by destruct c as [[] [] [] [] [] [] [] []].
Qed.

Lemma colon_free_split a b c d :
  colon_free a = true -> colon_free c = true ->
  a +:+ ":" +:+ b = c +:+ ":" +:+ d -> a = c /\ b = d.
Proof.
  revert c. induction a as [| x a IH]; intros [| y c] Ha Hc Heq; simpl in *.
  - by injection Heq.
  - injection Heq as <- _. done.
  - injection Heq as -> _. done.
  - injection Heq as -> Heq.
    apply andb_true_iff in Ha as [_ Ha]. apply andb_true_iff in Hc as [_ Hc].
    destruct (IH c Ha Hc Heq) as [-> ->]. done.
Qed.

(** X13.  For currency codes and symbols without a colon, the cache keys
    tell the requests apart exactly up to letter case: two fiat pairs have
    the same key if and only if their uppercased bases and targets agree,
    and two crypto pairs if and only if their uppercased symbols and
    lowercased currencies agree. *)
Theorem cache_keys_identify_pairs :
  (forall base target base' target',
     colon_free base = true -> colon_free base' = true ->
     (fiat_cache_key base target = fiat_cache_key base' target' <->
      upper base = upper base' /\ upper target = upper target')) /\
  (forall symbol vs_currency symbol' vs_currency',
     colon_free symbol = true -> colon_free symbol' = true ->
     (crypto_cache_key symbol vs_currency = crypto_cache_key symbol' vs_currency' <->
      upper symbol = upper symbol' /\ lower vs_currency = lower vs_currency')).
Proof.
  split.
  - intros base target base' target' Hb Hb'. unfold fiat_cache_key. split.
    + intros Heq. apply String.app_inj in Heq.
      apply colon_free_split in Heq; [done | by rewrite colon_free_upper..].
    + by intros [-> ->].
  - intros symbol vs_currency symbol' vs_currency' Hs Hs'. unfold crypto_cache_key. split.
    + intros Heq. apply String.app_inj in Heq.
      apply colon_free_split in Heq; [done | by rewrite colon_free_upper..].
    + by intros [-> ->].
Qed.

Section LetterCase.
Context `{Runtime}.

(** X14.  The letter case of the codes never matters: with the same
    uppercased codes (lowercased, for the quote currency of a crypto price)
    both resolvers and both endpoints behave identically in every world,
    down to the requests sent, the cache written and the response
    returned. *)
Theorem letter_case_is_ignored :
  (forall base target base' target' amount E w,
     upper base' = upper base -> upper target' = upper target ->
     get_fiat_rate base' target' E w = get_fiat_rate base target E w /\
     convert base' target' amount E w = convert base target amount E w) /\
  (forall symbol vs_currency symbol' vs_currency' amount E w,
     upper symbol' = upper symbol -> lower vs_currency' = lower vs_currency ->
     get_crypto_price symbol' vs_currency' E w = get_crypto_price symbol vs_currency E w /\
     crypto_convert symbol' vs_currency' amount E w
       = crypto_convert symbol vs_currency amount E w).
Proof.
  split.
  - intros base target base' target' amount E w Hb Ht.
    assert (Hres : get_fiat_rate base' target' E w = get_fiat_rate base target E w)
      by (unfold get_fiat_rate; by rewrite Hb, Ht).
    split; [done |]. unfold convert, bind, try_except. by rewrite Hres, Hb, Ht.
  - intros symbol vs_currency symbol' vs_currency' amount E w Hs Hv.
    assert (Hres : get_crypto_price symbol' vs_currency' E w
                   = get_crypto_price symbol vs_currency E w)
      by (unfold get_crypto_price; by rewrite Hs, Hv).
    split; [done |]. unfold crypto_convert, bind, try_except. by rewrite Hres, Hs, Hv.
Qed.

(** X15.  Entries leave the cache only when their own key is read: however
    many resolver calls are made, an entry under a key that none of them
    reads (and that is not the catalog key) stays exactly as it is, long
    after its expiry too. *)
Theorem unread_entries_stay (cs : list call) (E : env) (w : world) (k : string) :
  (forall c, In c cs -> k <> call_cache_key c) ->
  k <> list_cache_key ->
  CACHE (run_calls cs E w) !! k = CACHE w !! k.
Proof.
  revert w. induction cs as [| c cs IH]; intros w Hcs Hk; simpl; [done |].
  rewrite IH; [| intros c' Hc'; apply Hcs; by right | done].
  assert (Hc : k <> call_cache_key c) by (apply Hcs; by left).
  destruct c as [base target | symbol vs_currency]; simpl in *.
  - eapply (touches_frame (fun k => k = fiat_cache_key base target)
              (fun k _ => k = fiat_cache_key base target) (fun _ => True));
      [by apply fiat_touches | done | by intros _].
  - eapply (touches_frame
              (fun k => k = crypto_cache_key symbol vs_currency \/ k = list_cache_key)
              (fun k _ => k = crypto_cache_key symbol vs_currency \/ k = list_cache_key)
              (fun _ => True)).
    + apply crypto_touches; auto.
    + by intros [Heq | Heq].
    + by intros _ [Heq | Heq].
Qed.

End LetterCase.

(** * Failures reported by the rate provider *)

Section ProviderFailure.
Context `{Runtime}.

(** X16.  When the cache misses and the provider answers 2xx with a JSON
    object whose "result" is anything but the string "success" (absent
    included), [get_fiat_rate] ends with status 500, not 502: the 502
    "ExchangeRate-API failed" it raises, which names the object's "error"
    or, when that is absent or falsy, "Unknown error", is caught by its own
    [except Exception] clause and wrapped.  Nothing is cached. *)
Theorem fiat_provider_failure_is_500 (E : env) (w w1 : world) (base target : string)
    (resp : Response) (data : list (string * pyval)) :
  cache_get (fiat_cache_key base target) E w = (Ok PNone, w1) ->
  net E (steps w1) (FIAT_API_BASE_URL +:+ upper base) = Responded resp ->
  is_2xx resp ->
  body resp = Some (PDict data) ->
  Py.lookup_item data "result" <> Some (PStr "success") ->
  let reason :=
    Py.or_ (default PNone (Py.lookup_item data "error")) (PStr "Unknown error") in
  let raised := HTTPException 502 ("ExchangeRate-API failed: " +:+ Py.format reason) in
  get_fiat_rate base target E w =
    (Raise (HTTPException 500
              ("Internal server error while processing fiat rates: "
                 +:+ exc_str raised)),
     {| CACHE := CACHE w1;
        steps := S (steps w1);
        requests := requests w1 ++
          [(FIAT_API_BASE_URL +:+ upper base, Responded resp)] |}).
Proof.
  intros Hmiss Hnet H2xx Hbody Hresult reason raised.
  assert (Hne : Py.ne_str (default PNone (Py.lookup_item data "result")) "success" = true).
  { destruct (Py.lookup_item data "result") as [[| | | | s | |] |]; try done.
    simpl. destruct (String.eqb_spec s "success") as [-> | _]; done. }
  unfold fiat_cache_key in Hmiss.
  unfold get_fiat_rate. cbv zeta. glue.
  rewrite Hmiss. glue.
  rewrite (client_get_Responded _ _ _ _ Hnet), raise_for_status_2xx by done.
  rewrite Hbody. unfold Py.get. simpl. rewrite Hne. reflexivity.
Qed.

End ProviderFailure.


(** * More concrete runs *)

(** [fiat_resolves_rate] on the sample provider: usd/eur resolves to 0.9, cached
    until clock reading 901. *)
Lemma fiat_resolves_rate_witness :
  fst (@get_fiat_rate sample_runtime "usd" "eur" eur_env empty_world)
    = Ok (PFloat float_0_9) /\
  CACHE (snd (@get_fiat_rate sample_runtime "usd" "eur" eur_env empty_world))
    !! fiat_cache_key "usd" "eur"
    = Some {| value := PFloat float_0_9; expires_at := 901 |}.
Proof.
  rewrite (@fiat_resolves_rate sample_runtime eur_env empty_world empty_world
             "usd" "eur"
             {| status_code := 200;
                body := Some (PDict [("result", PStr "success");
                                     ("rates", PDict [("EUR", PFloat float_0_9)])]) |}
             [("result", PStr "success"); ("rates", PDict [("EUR", PFloat float_0_9)])]
             [("EUR", PFloat float_0_9)] (PFloat float_0_9));
    [| reflexivity | reflexivity | unfold is_2xx; simpl; lia
     | reflexivity | reflexivity | reflexivity | reflexivity | discriminate].
  split; [reflexivity | vm_compute; reflexivity].
Defined.

(** [fiat_failure_kinds] on a provider that answers 503: the failing call's last
    request was answered outside 2xx. *)
Lemma fiat_failure_kinds_witness :
  exists pre url resp,
    new_requests empty_world
      (snd (@get_fiat_rate sample_runtime "usd" "eur" unavailable_env empty_world))
      = (pre ++ [(url, Responded resp)])%list /\
    ~ is_2xx resp.
Proof.
  destruct (@fiat_failure_kinds sample_runtime unavailable_env empty_world
              (snd (@get_fiat_rate sample_runtime "usd" "eur" unavailable_env empty_world))
              "usd" "eur"
              (HTTPException 502 "Failed to fetch fiat rates (HTTP Error 503)")
              eq_refl)
    as [(pre & url & resp & Hnew & Hno & _)
       | [(pre & url & msg & _ & Herr) | (_ & e & _ & Herr)]];
    [| discriminate Herr | discriminate Herr].
  exists pre, url, resp. split; [exact Hnew | exact Hno].
Defined.

(** [failing_fiat_call_leaves_cache] on that provider: the GBP/JPY entry is as
    it was after the failing usd/eur call. *)
Lemma failing_fiat_call_leaves_cache_witness :
  CACHE (snd (@get_fiat_rate sample_runtime "usd" "eur" unavailable_env stale_world))
    !! "fiat:GBP:JPY"
  = Some {| value := PInt 150; expires_at := 0 |}.
Proof.
  rewrite (proj1 (@failing_fiat_call_leaves_cache sample_runtime unavailable_env
                    stale_world
                    (snd (@get_fiat_rate sample_runtime "usd" "eur"
                            unavailable_env stale_world))
                    "usd" "eur"
                    (HTTPException 502 "Failed to fetch fiat rates (HTTP Error 503)")
                    eq_refl) "fiat:GBP:JPY");
    [vm_compute; reflexivity | vm_compute; discriminate].
Defined.

(** [crypto_sends_two_requests_at_most] on a mapped symbol: at most one
    request. *)
Lemma crypto_sends_two_requests_at_most_witness :
  (length (new_requests empty_world
             (snd (@get_crypto_price sample_runtime "btc" "usd" btc_env empty_world)))
   <= 1)%nat.
Proof.
  apply (proj2 (proj2 (proj2 (@crypto_sends_two_requests_at_most sample_runtime
                                 btc_env empty_world "btc" "usd")))).
  vm_compute. discriminate.
Defined.

(** [crypto_fast_path_resolves] on the sample provider: btc resolves to 50000
    usd with the single price request for bitcoin. *)
Lemma crypto_fast_path_resolves_witness :
  fst (@get_crypto_price sample_runtime "btc" "usd" btc_env empty_world)
    = Ok (PInt 50000) /\
  requests (snd (@get_crypto_price sample_runtime "btc" "usd" btc_env empty_world))
    = [(@price_url sample_runtime (PStr "bitcoin") "usd",
        ok_json (PDict [("bitcoin", PDict [("usd", PInt 50000)])]))].
Proof.
  rewrite (@crypto_fast_path_resolves sample_runtime btc_env empty_world empty_world
             "btc" "usd" "bitcoin"
             {| status_code := 200;
                body := Some (PDict [("bitcoin", PDict [("usd", PInt 50000)])]) |}
             (PDict [("bitcoin", PDict [("usd", PInt 50000)])])
             (PDict [("usd", PInt 50000)]) (PInt 50000));
    [| reflexivity | reflexivity | reflexivity | unfold is_2xx; simpl; lia
     | reflexivity | reflexivity | reflexivity | discriminate].
  split; reflexivity.
Defined.

(** [crypto_second_call_is_a_cache_hit] on the sample provider: btc/usd is
    resolved upstream, a fiat call comes in between, and BTC/Usd is then
    answered from the cache. *)
Lemma crypto_second_call_is_a_cache_hit_witness :
  fst (@get_crypto_price sample_runtime "BTC" "Usd" btc_env
         (@run_calls sample_runtime [FiatCall "usd" "eur"] btc_env
            (snd (@get_crypto_price sample_runtime "btc" "usd" btc_env empty_world))))
  = Ok (PInt 50000).
Proof.
  destruct (@crypto_second_call_is_a_cache_hit sample_runtime btc_env empty_world
              (snd (@get_crypto_price sample_runtime "btc" "usd" btc_env empty_world))
              "btc" "usd" (PInt 50000))
    as (e & Hk & _ & Hagain).
  - apply seconds_clock_monotonic.
  - reflexivity.
  - vm_compute in Hk. injection Hk as <-.
    destruct (Hagain [FiatCall "usd" "eur"] "BTC" "Usd") as [Hhit _];
      [reflexivity | reflexivity | vm_compute; discriminate |].
    rewrite Hhit. reflexivity.
Defined.

(** [crypto_failure_kinds] on a provider that does not answer: the failing
    call's last request got no response. *)
Lemma crypto_failure_kinds_witness :
  exists pre url msg,
    new_requests empty_world
      (snd (@get_crypto_price sample_runtime "btc" "usd" down_env empty_world))
      = (pre ++ [(url, Failed msg)])%list.
Proof.
  destruct (@crypto_failure_kinds sample_runtime down_env empty_world
              (snd (@get_crypto_price sample_runtime "btc" "usd" down_env empty_world))
              "btc" "usd"
              (HTTPException 504
                 "Timeout or network error connecting to CoinGecko: timed out")
              eq_refl)
    as [(pre & url & resp & _ & _ & Herr)
       | [(pre & url & resp & _ & _ & _ & Herr)
         | [(pre & url & msg & Hnew & _) | (_ & e & _ & Herr)]]];
    [discriminate Herr | discriminate Herr | | discriminate Herr].
  exists pre, url, msg. exact Hnew.
Defined.

(** [endpoints_pass_failures_on] on that provider: [convert] raises the
    resolver's 504. *)
Lemma endpoints_pass_failures_on_witness :
  fst (@convert sample_runtime "usd" "eur" float_100 down_env empty_world)
  = Raise (HTTPException 504
      "Timeout or network error connecting to ExchangeRate-API: timed out").
Proof.
  rewrite (proj1 (@endpoints_pass_failures_on sample_runtime) down_env empty_world
             "usd" "eur" float_100
             (HTTPException 504
                "Timeout or network error connecting to ExchangeRate-API: timed out")
             (snd (@get_fiat_rate sample_runtime "usd" "eur" down_env empty_world))
             eq_refl).
  reflexivity.
Defined.

(** [endpoints_reject_non_numeric_rate] on a provider that quotes the rate as
    text: [convert] raises [TypeError]. *)
Lemma endpoints_reject_non_numeric_rate_witness :
  fst (@convert sample_runtime "usd" "eur" float_100 text_rate_env empty_world)
  = Raise (PyError TypeError).
Proof.
  destruct (proj1 (@endpoints_reject_non_numeric_rate sample_runtime)
              text_rate_env empty_world "usd" "eur" float_100 (PStr "0.9")
              (snd (@get_fiat_rate sample_runtime "usd" "eur" text_rate_env empty_world))
              eq_refl eq_refl)
    as [Hrun _].
  rewrite Hrun. reflexivity.
Defined.


(** [null_catalog_is_fetched_again] on a provider that answers null: the
    second load, right after the first, requests the catalog again. *)
Lemma null_catalog_is_fetched_again_witness :
  exists o,
    new_requests (snd (load_coins_list null_catalog_env empty_world))
      (snd (load_coins_list null_catalog_env
              (snd (load_coins_list null_catalog_env empty_world))))
    = [(coins_list_url, o)].
Proof.
  apply (null_catalog_is_fetched_again null_catalog_env
           (snd (load_coins_list null_catalog_env empty_world))
           {| value := PNone; expires_at := 86401 |});
    [vm_compute; reflexivity | reflexivity].
Defined.

(** [cache_keys_identify_pairs] on usd/eur and USD/Eur, which share a key. *)
Lemma cache_keys_identify_pairs_witness :
  upper "usd" = upper "USD" /\ upper "eur" = upper "Eur".
Proof.
  apply (proj1 (proj1 cache_keys_identify_pairs "usd" "eur" "USD" "Eur"
                  eq_refl eq_refl)).
  reflexivity.
Defined.

(** [letter_case_is_ignored] on two spellings of the same conversion. *)
Lemma letter_case_is_ignored_witness :
  @convert sample_runtime "Usd" "eur" float_100 eur_env empty_world
  = @convert sample_runtime "USD" "Eur" float_100 eur_env empty_world.
Proof.
  apply (proj1 (@letter_case_is_ignored sample_runtime)
           "USD" "Eur" "Usd" "eur" float_100 eur_env empty_world);
    reflexivity.
Defined.

(** [unread_entries_stay] on a cache with a GBP/JPY rate long expired: two
    calls for other pairs later it is still there. *)
Lemma unread_entries_stay_witness :
  CACHE (@run_calls sample_runtime [FiatCall "usd" "eur"; CryptoCall "btc" "usd"]
           eur_env stale_world) !! "fiat:GBP:JPY"
  = Some {| value := PInt 150; expires_at := 0 |}.
Proof.
  rewrite (@unread_entries_stay sample_runtime
             [FiatCall "usd" "eur"; CryptoCall "btc" "usd"] eur_env stale_world
             "fiat:GBP:JPY").
  - vm_compute. reflexivity.
  - intros c [<- | [<- | []]]; vm_compute; discriminate.
  - vm_compute. discriminate.
Defined.

(** [fiat_provider_failure_is_500] on a provider that refuses the base
    currency without an "error" field. *)
Lemma fiat_provider_failure_is_500_witness :
  fst (@get_fiat_rate sample_runtime "usd" "eur" refused_env empty_world)
  = Raise (HTTPException 500
      "Internal server error while processing fiat rates: 502: ExchangeRate-API failed: Unknown error").
Proof.
  rewrite (@fiat_provider_failure_is_500 sample_runtime refused_env
             empty_world empty_world "usd" "eur"
             {| status_code := 200;
                body := Some (PDict [("result", PStr "error");
                                     ("error-type", PStr "unsupported-code")]) |}
             [("result", PStr "error"); ("error-type", PStr "unsupported-code")]);
    [reflexivity | reflexivity | reflexivity | unfold is_2xx; simpl; lia
     | reflexivity | vm_compute; discriminate].
Defined.
